(** * exprcalc: a shallow embedding of the expression calculator

    The development follows [parser.go]: the Go values an [interface{}] can
    hold, the [lexer.Error] values the evaluator builds, the six AST node
    types, the tree-walking evaluator, the regular-expression tokenizer and
    the grammar that the struct tags describe.  The host object behind
    [Gettable] may have effects of its own, so evaluation threads a host
    state: which children were evaluated, and in which order, is read off
    that state. *)

From Stdlib Require Import ZArith NArith List String Ascii Bool Lia HexString.
From Stdlib Require Import Floats.SpecFloat.
Import ListNotations.
Local Open Scope string_scope.

(** ** Go values *)

(** [float64]: IEEE 754 binary64.  [spec_float] is the Standard Library's
    inductive model of binary floating point; the Go operators are the IEEE
    comparison predicates, [a > b] being [b < a]. *)
Module Float64.
Definition prec : Z := 53.
Definition emax : Z := 1024.
Definition t := spec_float.

Definition eq (a b : t) : bool := SFeqb a b.
Definition ne (a b : t) : bool := negb (SFeqb a b).
Definition lt (a b : t) : bool := SFltb a b.
Definition gt (a b : t) : bool := SFltb b a.
Definition le (a b : t) : bool := SFleb a b.
Definition ge (a b : t) : bool := SFleb b a.

(** The conversion [float64(n)] of an integer: round to nearest, ties to
    even. *)
Definition of_Z (n : Z) : t := binary_normalize prec emax n 0 false.

(** The conversion [float64(f)] of a [float32]: exact, the significand is
    re-normalised to 53 bits. *)
Definition of_float32 (f : spec_float) : t :=
  match f with
  | S754_finite s m e => binary_round prec emax s m e
  | _ => f
  end.
End Float64.

(** Go strings are byte sequences.  The runtime compares two strings on
    their first differing byte; when one is a prefix of the other the
    shorter is the smaller. *)
Module GoString.
Fixpoint cmpstring (a b : string) : comparison :=
  match a, b with
  | EmptyString, EmptyString => Eq
  | EmptyString, String _ _ => Lt
  | String _ _, EmptyString => Gt
  | String x a', String y b' =>
      match N.compare (N_of_ascii x) (N_of_ascii y) with
      | Eq => cmpstring a' b'
      | c => c
      end
  end.

Definition eq (a b : string) : bool := String.eqb a b.
Definition ne (a b : string) : bool := negb (String.eqb a b).
Definition lt (a b : string) : bool :=
  match cmpstring a b with Lt => true | _ => false end.
Definition gt (a b : string) : bool :=
  match cmpstring a b with Gt => true | _ => false end.
Definition le (a b : string) : bool :=
  match cmpstring a b with Gt => false | _ => true end.
Definition ge (a b : string) : bool :=
  match cmpstring a b with Lt => false | _ => true end.
End GoString.

(** A value of type [interface{}], by dynamic type.  [of_Boolean] is the
    package's own [Boolean]; [of_bool] is Go's [bool].  [of_other] stands
    for every dynamic type [castToInternal] has no case for (slices,
    structs, [uintptr], [complex128], ...): its type name and an opaque
    payload. *)
Inductive any : Type :=
| of_nil
| of_bool (b : bool)
| of_int (n : Z)
| of_int8 (n : Z)
| of_int16 (n : Z)
| of_int32 (n : Z)
| of_int64 (n : Z)
| of_uint (n : Z)
| of_uint8 (n : Z)
| of_uint16 (n : Z)
| of_uint32 (n : Z)
| of_uint64 (n : Z)
| of_float32 (f : spec_float)
| of_float64 (f : Float64.t)
| of_string (s : string)
| of_Boolean (b : bool)
| of_other (type_name : string) (payload : N).

(** A non-nil [*string]: the address is what [fmt] prints for it under
    [%v], the pointee is what [*p] reads. *)
Record string_ptr : Type := mk_string_ptr { addr : N; deref : string }.

(** [fmt.Sprintf("%v", p)] for a non-nil pointer to a string: the address
    in hexadecimal. *)
Definition fmt_v_pointer (p : string_ptr) : string := HexString.of_N (addr p).

(** ** Positions and errors *)

(** [lexer.Position]. *)
Record Position : Type := mkPosition {
  Filename : string;
  Offset : Z;
  Line : Z;
  Column : Z
}.

(** A Go [error].  [errorString] is what [fmt.Errorf] returns for a format
    without [%w], and stands for any host error too, of which the package
    only ever reads the [Error()] text; [lexer_Error] is participle's
    [*lexer.Error]. *)
Inductive error : Type :=
| errorString (s : string)
| lexer_Error (Pos : Position) (Message : string).

(** The three ways a Go call of type [(T, error)] ends: a value with a nil
    error, a non-nil error (every such return in the package has a nil
    value), or a panic.  The two panics of the package append the
    [repr.String] of the node to the message kept here. *)
Inductive outcome (A : Type) : Type :=
| Ok (a : A)
| Err (e : error)
| Panic (msg : string).
Arguments Ok {A} a.
Arguments Err {A} e.
Arguments Panic {A} msg.

(** ** The AST (the struct types of [parser.go])

    A nil-able pointer field is an [option]; the slices [Or] and [And] are
    lists of nodes. *)

Record Value : Type := mkValue {
  Value_Pos : Position;
  Number : option Float64.t;
  String_ : option string;
  Boolean : option bool
}.

Inductive Expression : Type :=
| mkExpression (Pos : Position) (Or : list OrCondition)
with OrCondition : Type :=
| mkOrCondition (Pos : Position) (And : list ConditionOperand)
with ConditionOperand : Type :=
| mkConditionOperand (Pos : Position) (Term_ : Term) (Compare_ : option Compare)
with Compare : Type :=
| mkCompare (Pos : Position) (Operator : string) (Term_ : Term)
with Term : Type :=
| mkTerm (Pos : Position) (Value_ : option Value)
         (Identifier : option string_ptr) (SubExpression : option Expression).


(** ** Coercions *)

Definition castToInternal (value : any) : any :=
  match value with
  | of_bool b => of_Boolean b
  | of_int n => of_float64 (Float64.of_Z n)
  | of_int8 n => of_float64 (Float64.of_Z n)
  | of_int16 n => of_float64 (Float64.of_Z n)
  | of_int32 n => of_float64 (Float64.of_Z n)
  | of_int64 n => of_float64 (Float64.of_Z n)
  | of_uint n => of_float64 (Float64.of_Z n)
  | of_uint8 n => of_float64 (Float64.of_Z n)
  | of_uint16 n => of_float64 (Float64.of_Z n)
  | of_uint32 n => of_float64 (Float64.of_Z n)
  | of_uint64 n => of_float64 (Float64.of_Z n)
  | of_float32 f => of_float64 (Float64.of_float32 f)
  | _ => value
  end.

Definition castToExternal (value : any) : any :=
  match value with
  | of_Boolean b => of_bool b
  | _ => value
  end.

(** ** The evaluator *)

Section Evaluator.

(** The state of the host behind [Gettable]: a call of [GetByName] may
    read and change it. *)
Variable St : Type.

(** The [Error()] method of a [lexer.Error]: how participle renders a
    position and a message as one line. *)
Variable FormatError : Position -> string -> string.

(** [Gettable.GetByName]: a value and a nil-able error. *)
Definition Gettable : Type := string -> St -> (any * option error) * St.

(** [Context]; [Object] is [None] for a nil interface. *)
Record Context : Type := mkContext { Object : option Gettable }.

(** A computation over the host state. *)
Definition M (A : Type) : Type := St -> outcome A * St.

Definition ret {A : Type} (a : A) : M A := fun s => (Ok a, s).
Definition fail {A : Type} (e : error) : M A := fun s => (Err e, s).
Definition panic {A : Type} (msg : string) : M A := fun s => (Panic msg, s).

(** The text of an error, [err.Error()], which is what [%v] prints. *)
Definition error_Error (err : error) : string :=
  match err with
  | errorString s => s
  | lexer_Error pos msg => FormatError pos msg
  end.

(** [lexer.Errorf(pos, format, args...)] once the format is expanded. *)
Definition lexer_Errorf (pos : Position) (msg : string) : error :=
  lexer_Error pos msg.

(** The interface [Evaluable]: the [Eval] method of a node. *)
Definition Evaluable : Type := Context -> M any.

Definition evaluateBooleans (ctx : Context) (lhs : any) (rhsExpr : Evaluable)
  : M (bool * bool) :=
  fun s =>
    match rhsExpr ctx s with
    | (Err err, s') => (Err err, s')
    | (Panic msg, s') => (Panic msg, s')
    | (Ok rhs, s') =>
        match lhs with
        | of_Boolean lhsBool =>
            match rhs with
            | of_Boolean rhsBool => (Ok (lhsBool, rhsBool), s')
            | _ => (Err (errorString "rhs must be boolean"), s')
            end
        | _ => (Err (errorString "lhs must be boolean"), s')
        end
    end.

(** The two [for ... range] loops, over the children after the first.
    [pos] is the position of the node that owns the loop, [lhs] the
    running left value. *)
Section Loops.
Variable X : Type.
Variable Eval_ : X -> Evaluable.
Variable ctx : Context.
Variable pos : Position.

(** [for _, or := range e.Or[1:]] of [Expression.Eval]. *)
Fixpoint Expression_Eval_range (lhs : any) (ors : list X) {struct ors} : M any :=
  match ors with
  | [] => ret lhs
  | or :: ors' =>
      fun s =>
        match evaluateBooleans ctx lhs (Eval_ or) s with
        | (Err err, s') => (Err (lexer_Errorf pos (error_Error err)), s')
        | (Panic msg, s') => (Panic msg, s')
        | (Ok (lhsBool, rhsBool), s') =>
            if lhsBool then (Ok lhs, s')
            else Expression_Eval_range (of_Boolean (lhsBool || rhsBool)) ors' s'
        end
  end.

(** [for _, and := range o.And[1:]] of [OrCondition.Eval]. *)
Fixpoint OrCondition_Eval_range (lhs : any) (ands : list X) {struct ands} : M any :=
  match ands with
  | [] => ret lhs
  | and :: ands' =>
      fun s =>
        match evaluateBooleans ctx lhs (Eval_ and) s with
        | (Err err, s') => (Err (lexer_Errorf pos (error_Error err)), s')
        | (Panic msg, s') => (Panic msg, s')
        | (Ok (lhsBool, rhsBool), s') =>
            if negb lhsBool then (Ok lhs, s')
            else OrCondition_Eval_range (of_Boolean (lhsBool && rhsBool)) ands' s'
        end
  end.
End Loops.

(** [Expression.Eval] and [OrCondition.Eval] over the [Eval] method of
    their children: the code before the loop, then the loop. *)
Section Nodes.
Variable X : Type.
Variable Eval_ : X -> Evaluable.

Definition Expression_Eval_body (pos : Position) (Or : list X) (ctx : Context) : M any :=
  match Or with
  | [] => ret of_nil
  | or0 :: rest =>
      fun s =>
        match Eval_ or0 ctx s with
        | (Err err, s') => (Err err, s')
        | (Panic msg, s') => (Panic msg, s')
        | (Ok lhs, s') =>
            if (List.length Or =? 1)%nat then (Ok lhs, s')
            else if (List.length Or =? 2)%nat
                    && match lhs with of_Boolean lhsBool => lhsBool | _ => false end
            then (Ok lhs, s')
            else Expression_Eval_range X Eval_ ctx pos lhs rest s'
        end
  end.

Definition OrCondition_Eval_body (pos : Position) (And : list X) (ctx : Context) : M any :=
  match And with
  | [] => ret of_nil
  | and0 :: rest =>
      fun s =>
        match Eval_ and0 ctx s with
        | (Err err, s') => (Err err, s')
        | (Panic msg, s') => (Panic msg, s')
        | (Ok lhs, s') =>
            if (List.length And =? 1)%nat then (Ok lhs, s')
            else if (List.length And =? 2)%nat
                    && match lhs with of_Boolean lhsBool => negb lhsBool | _ => false end
            then (Ok lhs, s')
            else OrCondition_Eval_range X Eval_ ctx pos lhs rest s'
        end
  end.
End Nodes.

Definition Value_Eval (v : Value) (ctx : Context) : M any :=
  match Number v with
  | Some n => ret (of_float64 n)
  | None =>
      match String_ v with
      | Some s => ret (of_string s)
      | None =>
          match Boolean v with
          | Some b => ret (of_Boolean b)
          | None => panic "unsupported value type"
          end
      end
  end.

(** The comparison of [Compare.Eval] once both operands are known. *)
Definition Compare_dispatch (pos : Position) (Operator : string) (lhs rhs : any)
  : outcome any :=
  match lhs with
  | of_float64 lhs =>
      match rhs with
      | of_float64 rhs =>
          if Operator =? "==" then Ok (of_Boolean (Float64.eq lhs rhs))
          else if Operator =? "!=" then Ok (of_Boolean (Float64.ne lhs rhs))
          else if Operator =? "<" then Ok (of_Boolean (Float64.lt lhs rhs))
          else if Operator =? ">" then Ok (of_Boolean (Float64.gt lhs rhs))
          else if Operator =? "<=" then Ok (of_Boolean (Float64.le lhs rhs))
          else if Operator =? ">=" then Ok (of_Boolean (Float64.ge lhs rhs))
          else Err (lexer_Errorf pos
                      ("unsupported number comparison operator " ++ Operator))
      | _ => Err (lexer_Errorf pos ("rhs of " ++ Operator ++ " must be a number"))
      end
  | of_string lhs =>
      match rhs with
      | of_string rhs =>
          if Operator =? "==" then Ok (of_Boolean (GoString.eq lhs rhs))
          else if Operator =? "!=" then Ok (of_Boolean (GoString.ne lhs rhs))
          else if Operator =? "<" then Ok (of_Boolean (GoString.lt lhs rhs))
          else if Operator =? ">" then Ok (of_Boolean (GoString.gt lhs rhs))
          else if Operator =? "<=" then Ok (of_Boolean (GoString.le lhs rhs))
          else if Operator =? ">=" then Ok (of_Boolean (GoString.ge lhs rhs))
          else Err (lexer_Errorf pos
                      ("unsupported string comparison operator " ++ Operator))
      | _ => Err (lexer_Errorf pos ("rhs of " ++ Operator ++ " must be a string"))
      end
  | of_Boolean lhs =>
      match rhs with
      | of_Boolean rhs =>
          if Operator =? "==" then Ok (of_Boolean (Bool.eqb lhs rhs))
          else if Operator =? "!=" then Ok (of_Boolean (negb (Bool.eqb lhs rhs)))
          else Err (lexer_Errorf pos
                      ("unsupported boolean comparison operator " ++ Operator))
      | _ => Err (lexer_Errorf pos ("rhs of " ++ Operator ++ " must be boolean"))
      end
  | _ =>
      Err (lexer_Errorf pos
             ("lhs of " ++ Operator ++ " must be a number, string or boolean"))
  end.

(** The [Identifier] case of [Term.Eval]. *)
Definition Identifier_Eval (pos : Position) (Identifier : string_ptr) (ctx : Context)
  : M any :=
  match Object ctx with
  | None =>
      fail (lexer_Errorf pos
              ("Identifier " ++ fmt_v_pointer Identifier ++ " on nil object"))
  | Some object =>
      fun s =>
        match object (deref Identifier) s with
        | ((_, Some err), s') => (Err (lexer_Errorf pos (error_Error err)), s')
        | ((value, None), s') => (Ok (castToInternal value), s')
        end
  end.

Fixpoint Expression_Eval (e : Expression) (ctx : Context) {struct e} : M any :=
  match e with
  | mkExpression pos Or =>
      Expression_Eval_body OrCondition OrCondition_Eval pos Or ctx
  end
with OrCondition_Eval (o : OrCondition) (ctx : Context) {struct o} : M any :=
  match o with
  | mkOrCondition pos And =>
      OrCondition_Eval_body ConditionOperand ConditionOperand_Eval pos And ctx
  end
with ConditionOperand_Eval (c : ConditionOperand) (ctx : Context) {struct c} : M any :=
  match c with
  | mkConditionOperand pos term compare =>
      fun s =>
        match Term_Eval term ctx s with
        | (Err err, s') => (Err err, s')
        | (Panic msg, s') => (Panic msg, s')
        | (Ok lhs, s') =>
            match compare with
            | None => (Ok lhs, s')
            | Some c' => Compare_Eval c' ctx lhs s'
            end
        end
  end
with Compare_Eval (c : Compare) (ctx : Context) (lhs : any) {struct c} : M any :=
  match c with
  | mkCompare pos Operator term =>
      fun s =>
        match Term_Eval term ctx s with
        | (Err err, s') => (Err err, s')
        | (Panic msg, s') => (Panic msg, s')
        | (Ok rhs, s') => (Compare_dispatch pos Operator lhs rhs, s')
        end
  end
with Term_Eval (t : Term) (ctx : Context) {struct t} : M any :=
  match t with
  | mkTerm pos value identifier subExpression =>
      match value with
      | Some v => Value_Eval v ctx
      | None =>
          match identifier with
          | Some id => Identifier_Eval pos id ctx
          | None =>
              match subExpression with
              | Some e => Expression_Eval e ctx
              | None => panic "unsupported term type"
              end
          end
      end
  end.

(** [EvalParsed]. *)
Definition EvalParsed (expr : Expression) (obj : option Gettable) : M any :=
  let ctx := mkContext obj in
  fun s =>
    match Expression_Eval expr ctx s with
    | (Err err, s') => (Err err, s')
    | (Panic msg, s') => (Panic msg, s')
    | (Ok value, s') => (Ok (castToExternal value), s')
    end.

End Evaluator.

(** ** The tokenizer

    [lexer.Regexp] of participle: at every position the pattern is matched
    against the rest of the input, a match has to start at that position,
    and the first group that took part in the match names the token.  Go's
    [regexp] prefers the leftmost alternative and is greedy, as a
    backtracking matcher is; [rmatch] is that matcher, over bytes. *)
Module lexer.

Inductive regex : Type :=
| Byte (class : ascii -> bool)
| Str (s : string)
| Cat (r1 r2 : regex)
| Alt (r1 r2 : regex)
| Star (r : regex)
| Opt (r : regex).

Definition Plus (r : regex) : regex := Cat r (Star r).

Fixpoint strip_prefix (p s : string) : option string :=
  match p with
  | EmptyString => Some s
  | String c p' =>
      match s with
      | EmptyString => None
      | String d s' => if Ascii.eqb c d then strip_prefix p' s' else None
      end
  end.

(** The iterations of a star: [m] matches its body, [k] is what follows
    the star.  One more iteration is preferred to none, and an iteration
    has to consume input. *)
Fixpoint star_loop {A : Type} (m : string -> (string -> option A) -> option A)
  (k : string -> option A) (fuel : nat) (s : string) {struct fuel} : option A :=
  match fuel with
  | O => k s
  | Datatypes.S fuel' =>
      match m s (fun s' =>
                   if (String.length s' <? String.length s)%nat
                   then star_loop m k fuel' s' else None) with
      | Some x => Some x
      | None => k s
      end
  end.

(** [rmatch r s k]: match [r] at the start of [s], then pass what is left
    to [k]; the alternatives are tried in the order of preference and the
    first one that lets [k] succeed is kept. *)
Fixpoint rmatch {A : Type} (r : regex) (s : string) (k : string -> option A)
  {struct r} : option A :=
  match r with
  | Byte class =>
      match s with
      | String c s' => if class c then k s' else None
      | EmptyString => None
      end
  | Str l =>
      match strip_prefix l s with
      | Some s' => k s'
      | None => None
      end
  | Cat r1 r2 => rmatch r1 s (fun s' => rmatch r2 s' k)
  | Alt r1 r2 =>
      match rmatch r1 s k with
      | Some x => Some x
      | None => rmatch r2 s k
      end
  | Opt r1 =>
      match rmatch r1 s k with
      | Some x => Some x
      | None => k s
      end
  | Star r1 => star_loop (rmatch r1) k (String.length s) s
  end.

(** Character classes. *)
Definition between (lo hi c : ascii) : bool :=
  (N_of_ascii lo <=? N_of_ascii c)%N && (N_of_ascii c <=? N_of_ascii hi)%N.
Definition one_of (l : list ascii) (c : ascii) : bool :=
  existsb (Ascii.eqb c) l.
Definition none_of (l : list ascii) (c : ascii) : bool := negb (one_of l c).

Definition HT : ascii := ascii_of_N 9.
Definition LF : ascii := ascii_of_N 10.
Definition FF : ascii := ascii_of_N 12.
Definition CR : ascii := ascii_of_N 13.

(** [\s] is [[\t\n\f\r ]] and [\d] is [[0-9]]. *)
Definition space : ascii -> bool := one_of [HT; LF; FF; CR; " "%char].
Definition digit : ascii -> bool := between "0" "9".
Definition upper : ascii -> bool := between "A" "Z".
Definition lower : ascii -> bool := between "a" "z".

Definition to_lower (c : ascii) : ascii :=
  if upper c then ascii_of_N (N_of_ascii c + 32) else c.
Definition to_upper (c : ascii) : ascii :=
  if lower c then ascii_of_N (N_of_ascii c - 32) else c.

(** One letter under [(?i)]: both cases, and the other members of its
    Unicode fold orbit, which exist for [s] (U+017F, bytes C5 BF) and for
    [k] (U+212A, bytes E2 84 AA). *)
Definition fold_byte (c : ascii) : regex :=
  let either := Byte (fun x => Ascii.eqb (to_lower x) (to_lower c)) in
  if Ascii.eqb (to_lower c) "s"
  then Alt either (Str (String (ascii_of_N 197) (String (ascii_of_N 191) "")))
  else if Ascii.eqb (to_lower c) "k"
  then Alt either (Str (String (ascii_of_N 226) (String (ascii_of_N 132)
                          (String (ascii_of_N 170) ""))))
  else either.

(** A literal under [(?i)]. *)
Fixpoint fold (l : string) : regex :=
  match l with
  | EmptyString => Str ""
  | String c EmptyString => fold_byte c
  | String c l' => Cat (fold_byte c) (fold l')
  end.

(** The names of the groups of the pattern of this package. *)
Inductive symbol : Type :=
| EOF | LogicOp | Boolean | Ident | Number | String_ | CompareOp.

Definition symbol_eqb (a b : symbol) : bool :=
  match a, b with
  | EOF, EOF | LogicOp, LogicOp | Boolean, Boolean | Ident, Ident
  | Number, Number | String_, String_ | CompareOp, CompareOp => true
  | _, _ => false
  end.

Record Token : Type := mkToken {
  Type_ : symbol;
  Value : string;
  Pos : Position
}.

(** A lexer definition: the top-level alternatives of the pattern, each
    with the name of its group ([None] for a group without a name). *)
Definition Definition_ : Type := list (option symbol * regex).

(** The first alternative that matches, and what it leaves. *)
Fixpoint first_match (d : Definition_) (b : string) : option (option symbol * string) :=
  match d with
  | [] => None
  | (name, r) :: d' =>
      match rmatch r b (fun rest => Some rest) with
      | Some rest => Some (name, rest)
      | None => first_match d' b
      end
  end.

(** [utf8.RuneCount]: a byte that does not start a well-formed sequence
    counts as one rune. *)
Definition rune_size (b : string) : nat :=
  let cont := between (ascii_of_N 128) (ascii_of_N 191) in
  let follows (lo hi : N) (n : nat) : nat :=
    match b with
    | String _ (String c1 t) =>
        if negb (between (ascii_of_N lo) (ascii_of_N hi) c1) then 1
        else match n with
             | 2 => 2
             | _ =>
                 match t with
                 | String c2 t' =>
                     if negb (cont c2) then 1
                     else match n with
                          | 3 => 3
                          | _ =>
                              match t' with
                              | String c3 _ => if cont c3 then 4 else 1
                              | EmptyString => 1
                              end
                          end
                 | EmptyString => 1
                 end
             end
    | _ => 1
    end%nat in
  match b with
  | EmptyString => 0
  | String c _ =>
      let n := N_of_ascii c in
      if (n <? 194)%N then 1
      else if (n <? 224)%N then follows 128%N 191%N 2
      else if (n =? 224)%N then follows 160%N 191%N 3
      else if (n =? 237)%N then follows 128%N 159%N 3
      else if (n <? 240)%N then follows 128%N 191%N 3
      else if (n =? 240)%N then follows 144%N 191%N 4
      else if (n <? 244)%N then follows 128%N 191%N 4
      else if (n =? 244)%N then follows 128%N 143%N 4
      else 1
  end%nat.

Fixpoint substring_from (n : nat) (s : string) : string :=
  match n, s with
  | O, _ => s
  | Datatypes.S n', String _ s' => substring_from n' s'
  | Datatypes.S _, EmptyString => EmptyString
  end.

Fixpoint RuneCount_fuel (fuel : nat) (b : string) : Z :=
  match fuel, b with
  | _, EmptyString => 0
  | O, _ => 0
  | Datatypes.S fuel', _ => 1 + RuneCount_fuel fuel' (substring_from (rune_size b) b)
  end.
Definition RuneCount (b : string) : Z := RuneCount_fuel (String.length b) b.

(** [bytes.Count(b, "\n")]. *)
Fixpoint count_eol (b : string) : Z :=
  match b with
  | EmptyString => 0
  | String c b' => (if Ascii.eqb c LF then 1 else 0) + count_eol b'
  end.

(** [b[bytes.LastIndex(b, "\n"):]] for a [b] that has a line feed. *)
Fixpoint from_last_eol (b : string) : string :=
  match b with
  | EmptyString => EmptyString
  | String c b' =>
      if (0 <? count_eol b')%Z then from_last_eol b' else b
  end.

(** The position after the bytes [match_] that start at [pos]. *)
Definition advance (pos : Position) (match_ : string) : Position :=
  let lines := count_eol match_ in
  mkPosition (Filename pos)
             (Offset pos + Z.of_nat (String.length match_))
             (Line pos + lines)
             (if (lines =? 0)%Z then Column pos + RuneCount match_
              else RuneCount (from_last_eol match_)).

(** The bytes of [b] before its suffix [rest]. *)
Definition consumed (b rest : string) : string :=
  substring 0 (String.length b - String.length rest) b.

(** The tokens of an input, or the position at which no alternative
    matches.  A match of a group without a name is skipped; the list ends
    with the [EOF] token.  Every match takes at least one byte (no
    alternative of [myLexer] matches the empty string), so the length of
    the input is fuel enough. *)
Fixpoint Lex_fuel (d : Definition_) (fuel : nat) (pos : Position) (b : string)
  : list Token + Position :=
  match b with
  | EmptyString => inl [mkToken EOF "" pos]
  | String _ _ =>
      match fuel with
      | O => inr pos
      | Datatypes.S fuel' =>
          match first_match d b with
          | None => inr pos
          | Some (name, rest) =>
              let match_ := consumed b rest in
              let pos' := advance pos match_ in
              if (String.length b <=? String.length rest)%nat then inr pos
              else
                match name, Lex_fuel d fuel' pos' rest with
                | _, inr p => inr p
                | None, inl ts => inl ts
                | Some sym, inl ts => inl (mkToken sym match_ pos :: ts)
                end
          end
      end
  end.

Definition Lex (d : Definition_) (b : string) : list Token + Position :=
  Lex_fuel d (String.length b) (mkPosition "" 0 1 1) b.

End lexer.

(** The alternatives of the pattern of [myLexer], in their order. *)

(** The first group, which has no name: [\s+]. *)
Definition re_space : lexer.regex := lexer.Plus (lexer.Byte lexer.space).

(** Group [LogicOp]: [(?i)AND|OR]. *)
Definition re_LogicOp : lexer.regex := lexer.Alt (lexer.fold "AND") (lexer.fold "OR").

(** Group [Boolean]: [(?i)true|false]. *)
Definition re_Boolean : lexer.regex :=
  lexer.Alt (lexer.fold "true") (lexer.fold "false").

(** Group [Ident]: [[a-zA-Z_][a-zA-Z0-9_]*]. *)
Definition re_letter (c : ascii) : bool :=
  lexer.between "a" "z" c || lexer.between "A" "Z" c || Ascii.eqb c "_".
Definition re_word (c : ascii) : bool := re_letter c || lexer.between "0" "9" c.
Definition re_Ident : lexer.regex :=
  lexer.Cat (lexer.Byte re_letter) (lexer.Star (lexer.Byte re_word)).

(** Group [Number]: [[-+]?\d*\.?\d+([eE][-+]?\d+)?]. *)
Definition re_Number : lexer.regex :=
  let sign := lexer.Byte (lexer.one_of ["-"; "+"]%char) in
  let digit := lexer.Byte lexer.digit in
  lexer.Cat (lexer.Opt sign)
    (lexer.Cat (lexer.Star digit)
       (lexer.Cat (lexer.Opt (lexer.Str "."))
          (lexer.Cat (lexer.Plus digit)
             (lexer.Opt
                (lexer.Cat (lexer.Byte (lexer.one_of ["e"; "E"]%char))
                   (lexer.Cat (lexer.Opt sign) (lexer.Plus digit))))))).

(** Group [String]: a single quote, bytes other than it, and a single
    quote; or the same with the double quote. *)
Definition re_String : lexer.regex :=
  let squote := "'"%char in
  let dquote := ascii_of_N 34 in
  lexer.Alt
    (lexer.Cat (lexer.Byte (Ascii.eqb squote))
       (lexer.Cat (lexer.Star (lexer.Byte (lexer.none_of [squote])))
          (lexer.Byte (Ascii.eqb squote))))
    (lexer.Cat (lexer.Byte (Ascii.eqb dquote))
       (lexer.Cat (lexer.Star (lexer.Byte (lexer.none_of [dquote])))
          (lexer.Byte (Ascii.eqb dquote)))).

(** Group [CompareOp]: [!=], [<=], [>=], [==], or one of the two
    parentheses and the two angle brackets. *)
Definition re_CompareOp : lexer.regex :=
  lexer.Alt (lexer.Str "!=")
    (lexer.Alt (lexer.Str "<=")
       (lexer.Alt (lexer.Str ">=")
          (lexer.Alt (lexer.Str "==")
             (lexer.Byte (lexer.one_of ["("; ")"; "<"; ">"]%char))))).

Definition myLexer : lexer.Definition_ :=
  [ (None, re_space);
    (Some lexer.LogicOp, re_LogicOp);
    (Some lexer.Boolean, re_Boolean);
    (Some lexer.Ident, re_Ident);
    (Some lexer.Number, re_Number);
    (Some lexer.String_, re_String);
    (Some lexer.CompareOp, re_CompareOp) ].

(** ** The grammar

    [participle.MustBuild] turns the struct tags into a parser.  Its parts
    that are not of this package are taken as given: how a [Number] token
    becomes a [float64] ([strconv.ParseFloat]), how [participle.Unquote]
    rewrites a [String] token, which address a captured identifier is
    stored at, and which error participle reports for a text it rejects.

    participle backs out of an optional part or of a repetition that fails
    within its lookahead.  In this grammar what is left then starts with a
    token that nothing after it accepts, so the text is rejected either
    way, and the functions below simply return [None]. *)
Section Participle.

Variable ParseFloat : string -> option Float64.t.
Variable unquote : string -> option string.
Variable new_string : Position -> N.
Variable parse_error : string -> error.

Definition tokens : Type := list lexer.Token.

(** [participle.CaseInsensitive("LogicOp", "Boolean")]. *)
Definition caseInsensitive (t : lexer.symbol) : bool :=
  match t with
  | lexer.LogicOp | lexer.Boolean => true
  | _ => false
  end.

(** [strings.ToLower] and [strings.EqualFold] on the letters of ASCII.
    They are applied to tokens of the types [LogicOp] and [Boolean] only,
    whose bytes are letters of ASCII and those of U+017F, which
    [strings.ToLower] leaves alone; and the literals of the grammar have
    no letter with a fold outside ASCII, so [EqualFold] against one of
    them is this comparison. *)
Fixpoint ToLower (s : string) : string :=
  match s with
  | EmptyString => EmptyString
  | String c s' => String (lexer.to_lower c) (ToLower s')
  end.
Definition EqualFold (a b : string) : bool := String.eqb (ToLower a) (ToLower b).

(** A literal of the grammar against a token: by value, whatever the
    type of the token, and up to case for the two types above. *)
Definition literal (l : string) (tok : lexer.Token) : bool :=
  if caseInsensitive (lexer.Type_ tok)
  then EqualFold (lexer.Value tok) l
  else String.eqb (lexer.Value tok) l.

(** The position a struct gets: that of the next token. *)
Definition peek_pos (ts : tokens) : Position :=
  match ts with
  | tok :: _ => lexer.Pos tok
  | [] => mkPosition "" 0 0 0
  end.

(** [Boolean.Capture]. *)
Definition Boolean_Capture (value : string) : bool :=
  String.eqb (ToLower value) "true".

(** [Value]: [( @Number | @String | @Boolean )]. *)
Definition parse_Value (ts : tokens) : option (Value * tokens) :=
  match ts with
  | [] => None
  | tok :: ts' =>
      let pos := lexer.Pos tok in
      match lexer.Type_ tok with
      | lexer.Number =>
          match ParseFloat (lexer.Value tok) with
          | Some f => Some (mkValue pos (Some f) None None, ts')
          | None => None
          end
      | lexer.String_ => Some (mkValue pos None (Some (lexer.Value tok)) None, ts')
      | lexer.Boolean =>
          Some (mkValue pos None None (Some (Boolean_Capture (lexer.Value tok))), ts')
      | _ => None
      end
  end.

(** One repetition [{ "OP" @@ }] after a first element: as long as the
    next token is the literal and an element follows it. *)
Fixpoint repetition {A : Type} (op : string) (elem : tokens -> option (A * tokens))
  (fuel : nat) (ts : tokens) {struct fuel} : list A * tokens :=
  match fuel, ts with
  | Datatypes.S fuel', tok :: ts' =>
      if literal op tok then
        match elem ts' with
        | Some (a, ts'') =>
            let (l, rest) := repetition op elem fuel' ts'' in (a :: l, rest)
        | None => ([], ts)
        end
      else ([], ts)
  | _, _ => ([], ts)
  end.

Section Rules.
(** The parser of an [Expression] between parentheses. *)
Variable sub : tokens -> option (Expression * tokens).

(** [Term]: [@@ | @Ident | "(" @@ ")"]. *)
Definition parse_Term (ts : tokens) : option (Term * tokens) :=
  let pos := peek_pos ts in
  match parse_Value ts with
  | Some (v, ts') => Some (mkTerm pos (Some v) None None, ts')
  | None =>
      match ts with
      | [] => None
      | tok :: ts' =>
          match lexer.Type_ tok with
          | lexer.Ident =>
              Some (mkTerm pos None
                      (Some (mk_string_ptr (new_string pos) (lexer.Value tok)))
                      None, ts')
          | _ =>
              if literal "(" tok then
                match sub ts' with
                | Some (e, close :: ts'') =>
                    if literal ")" close
                    then Some (mkTerm pos None None (Some e), ts'')
                    else None
                | _ => None
                end
              else None
          end
      end
  end.

(** [Compare]: [@( "<=" | ">=" | "==" | "<" | ">" | "!=" )] and then
    [( @@ )]. *)
Definition parse_Compare (ts : tokens) : option (Compare * tokens) :=
  let pos := peek_pos ts in
  match ts with
  | [] => None
  | tok :: ts' =>
      if existsb (fun l => literal l tok) ["<="; ">="; "=="; "<"; ">"; "!="] then
        match parse_Term ts' with
        | Some (t, ts'') => Some (mkCompare pos (lexer.Value tok) t, ts'')
        | None => None
        end
      else None
  end.

(** [ConditionOperand]: [@@] and then [[ @@ ]]. *)
Definition parse_ConditionOperand (ts : tokens) : option (ConditionOperand * tokens) :=
  let pos := peek_pos ts in
  match parse_Term ts with
  | None => None
  | Some (t, ts') =>
      match parse_Compare ts' with
      | Some (c, ts'') => Some (mkConditionOperand pos t (Some c), ts'')
      | None => Some (mkConditionOperand pos t None, ts')
      end
  end.

(** [OrCondition]: [@@ { "AND" @@ }]. *)
Definition parse_OrCondition (ts : tokens) : option (OrCondition * tokens) :=
  let pos := peek_pos ts in
  match parse_ConditionOperand ts with
  | None => None
  | Some (c, ts') =>
      let (l, rest) := repetition "AND" parse_ConditionOperand (List.length ts') ts' in
      Some (mkOrCondition pos (c :: l), rest)
  end.

(** [Expression]: [@@ { "OR" @@ }]. *)
Definition parse_Expression_rule (ts : tokens) : option (Expression * tokens) :=
  let pos := peek_pos ts in
  match parse_OrCondition ts with
  | None => None
  | Some (o, ts') =>
      let (l, rest) := repetition "OR" parse_OrCondition (List.length ts') ts' in
      Some (mkExpression pos (o :: l), rest)
  end.
End Rules.

(** The rules closed on themselves; [depth] bounds the nesting of
    parentheses. *)
Fixpoint parse_Expression (depth : nat) (ts : tokens) {struct depth}
  : option (Expression * tokens) :=
  match depth with
  | O => None
  | Datatypes.S depth' => parse_Expression_rule (parse_Expression depth') ts
  end.

(** The [Unquote] mapping over the tokens of the lexer. *)
Fixpoint Unquote (ts : tokens) : option tokens :=
  match ts with
  | [] => Some []
  | tok :: ts' =>
      match Unquote ts' with
      | None => None
      | Some r =>
          match lexer.Type_ tok with
          | lexer.String_ =>
              match unquote (lexer.Value tok) with
              | Some v => Some (lexer.mkToken lexer.String_ v (lexer.Pos tok) :: r)
              | None => None
              end
          | _ => Some (tok :: r)
          end
      end
  end.

(** [Parser.ParseString]: the whole text has to be one [Expression].
    Every level of parentheses takes a token, so the number of tokens
    bounds the depth. *)
Definition Parser (expr : string) : Expression + error :=
  match lexer.Lex myLexer expr with
  | inr _ => inr (parse_error expr)
  | inl raw =>
      match Unquote raw with
      | None => inr (parse_error expr)
      | Some ts =>
          match parse_Expression (List.length ts) ts with
          | Some (e, [eof]) =>
              if lexer.symbol_eqb (lexer.Type_ eof) lexer.EOF then inl e
              else inr (parse_error expr)
          | _ => inr (parse_error expr)
          end
      end
  end.

End Participle.

(** ** The package functions *)

Section Package.

Variable St : Type.
Variable FormatError : Position -> string -> string.

(** The package variable [Parser], through its method [ParseString]. *)
Variable Parser_ParseString : string -> Expression + error.

(** [Parse]. *)
Definition Parse (expr : string) : outcome Expression :=
  match Parser_ParseString expr with
  | inr err => Err err
  | inl e => Ok e
  end.

(** [Eval].  The output of [repr.Println] under [Debug] goes to the
    standard output and is not part of the result. *)
Definition Eval (expr : string) (obj : option (Gettable St)) : M St any :=
  if (String.length expr =? 0)%nat then ret St of_nil
  else
    match Parse expr with
    | Err err => fail St err
    | Panic msg => panic St msg
    | Ok e => EvalParsed St FormatError e obj
    end.

End Package.

(** ** Notions the statements use *)

(** The children [cs], evaluated one after the other from the state [s]:
    their values when each of them returns a [Boolean], and the state the
    host is left in. *)
Section InOrder.
Variable St : Type.
Variable X : Type.
Variable Eval_ : X -> Evaluable St.
Variable ctx : Context St.

Fixpoint eval_in_order (cs : list X) (s : St) : option (list bool) * St :=
  match cs with
  | [] => (Some [], s)
  | c :: cs' =>
      match Eval_ c ctx s with
      | (Ok (of_Boolean b), s1) =>
          match eval_in_order cs' s1 with
          | (Some bs, s2) => (Some (b :: bs), s2)
          | (None, s2) => (None, s2)
          end
      | (_, s1) => (None, s1)
      end
  end.
End InOrder.

Definition is_Boolean (v : any) : bool :=
  match v with of_Boolean _ => true | _ => false end.

(** The laws of an N-ary logical node, stated once for both kinds of node.
    [node pos cs] is the node at [pos] with the children [cs]; [stop] is
    the value of the running left operand on which the loop ends ([true]
    for [OR], [false] for [AND]) and [op] the connective. *)
Section Laws.
Variable St : Type.
Variable FormatError : Position -> string -> string.
Variables X N : Type.
Variable node : Position -> list X -> N.
Variable eval_node : N -> Evaluable St.
Variable eval_child : X -> Evaluable St.
Variable stop : bool.
Variable op : bool -> bool -> bool.

(** The children [evald] are evaluated in order and all return Booleans
    [bs]; the running left operand is not [stop] before the last step
    ([bs] without its last two elements), and either [evald] are all the
    children or the left operand of the last step is [stop].  Then the
    node returns the fold of [bs] in the state reached after the last of
    [evald]: the children [post] are not evaluated. *)
Definition fold_law : Prop :=
  forall (ctx : Context St) (pos : Position) (evald post : list X)
         (s s' : St) (bs : list bool),
    3 <= List.length (evald ++ post) ->
    2 <= List.length evald ->
    eval_in_order St X eval_child ctx evald s = (Some bs, s') ->
    (forall i, i + 2 < List.length bs -> nth i bs (negb stop) = negb stop) ->
    post = [] \/ nth (List.length bs - 2) bs (negb stop) = stop ->
    eval_node (node pos (evald ++ post)) ctx s
    = (Ok (of_Boolean (fold_left op bs (negb stop))), s').

(** A first child whose value is not a Boolean: the second child is
    evaluated, and then the node fails on its left operand. *)
Definition lhs_type_law : Prop :=
  forall (ctx : Context St) (pos : Position) (c0 c1 : X) (rest : list X)
         (s s1 s2 : St) (v0 v1 : any),
    1 <= List.length rest ->
    eval_child c0 ctx s = (Ok v0, s1) ->
    is_Boolean v0 = false ->
    eval_child c1 ctx s1 = (Ok v1, s2) ->
    eval_node (node pos (c0 :: c1 :: rest)) ctx s
    = (Err (lexer_Error pos "lhs must be boolean"), s2).

(** A later child [c] that the loop reaches (the children [pre] before
    it return Booleans, none of them but possibly the last being [stop])
    and whose value is not a Boolean: the node fails on its right
    operand, also when the left operand is [stop]. *)
Definition rhs_type_law : Prop :=
  forall (ctx : Context St) (pos : Position) (pre : list X) (c : X)
         (post : list X) (s s1 s2 : St) (bs : list bool) (v : any),
    3 <= List.length (pre ++ c :: post) ->
    1 <= List.length pre ->
    eval_in_order St X eval_child ctx pre s = (Some bs, s1) ->
    (forall i, i + 1 < List.length bs -> nth i bs (negb stop) = negb stop) ->
    eval_child c ctx s1 = (Ok v, s2) ->
    is_Boolean v = false ->
    eval_node (node pos (pre ++ c :: post)) ctx s
    = (Err (lexer_Error pos "rhs must be boolean"), s2).

(** The right-hand child of a step is evaluated before the left operand
    is looked at.  With a first child that returned [v0] and no
    two-operand short-circuit on it: an error of the second child is the
    error of the node, whatever [v0] is; and when [v0] is not a Boolean
    the node still evaluates the second child before it fails. *)
Definition rhs_first_law : Prop :=
  forall (ctx : Context St) (pos : Position) (c0 c1 : X) (rest : list X)
         (s s1 s2 : St) (v0 : any),
    eval_child c0 ctx s = (Ok v0, s1) ->
    (rest = [] -> v0 <> of_Boolean stop) ->
    (forall err, eval_child c1 ctx s1 = (Err err, s2) ->
       eval_node (node pos (c0 :: c1 :: rest)) ctx s
       = (Err (lexer_Error pos (error_Error FormatError err)), s2))
    /\ (forall v1, eval_child c1 ctx s1 = (Ok v1, s2) ->
          is_Boolean v0 = false ->
          eval_node (node pos (c0 :: c1 :: rest)) ctx s
          = (Err (lexer_Error pos "lhs must be boolean"), s2)).
End Laws.

(** The six operators of the tag of [Compare.Operator]. *)
Inductive CompareOp : Type := EQ | NE | LT | GT | LE | GE.

Definition op_text (o : CompareOp) : string :=
  match o with
  | EQ => "==" | NE => "!=" | LT => "<" | GT => ">" | LE => "<=" | GE => ">="
  end.

Definition is_ordering (o : CompareOp) : bool :=
  match o with EQ | NE => false | _ => true end.

(** IEEE 754: two floating-point values are in exactly one of the
    relations less, equal, greater and unordered, which [SFcompare]
    computes ([None] is unordered); each operator is a set of them. *)
Definition ieee_holds (o : CompareOp) (a b : Float64.t) : Prop :=
  match o with
  | EQ => SFcompare a b = Some Eq
  | NE => SFcompare a b <> Some Eq
  | LT => SFcompare a b = Some Lt
  | GT => SFcompare a b = Some Gt
  | LE => SFcompare a b = Some Lt \/ SFcompare a b = Some Eq
  | GE => SFcompare a b = Some Gt \/ SFcompare a b = Some Eq
  end.

(** The lexicographic order on byte strings: a proper prefix comes first,
    otherwise the first byte that differs decides. *)
Inductive lex_lt : string -> string -> Prop :=
| lex_lt_prefix (c : ascii) (t : string) : lex_lt EmptyString (String c t)
| lex_lt_byte (x y : ascii) (s t : string) :
    (N_of_ascii x < N_of_ascii y)%N -> lex_lt (String x s) (String y t)
| lex_lt_tail (x : ascii) (s t : string) :
    lex_lt s t -> lex_lt (String x s) (String x t).

Definition lex_holds (o : CompareOp) (s t : string) : Prop :=
  match o with
  | EQ => s = t
  | NE => s <> t
  | LT => lex_lt s t
  | GT => lex_lt t s
  | LE => lex_lt s t \/ s = t
  | GE => lex_lt t s \/ s = t
  end.

(** The variants of a value as the evaluator tells them apart: the three
    it computes with, the nil interface, and everything else. *)
Inductive Variant : Type := Number_ | Text_ | Boolean_ | NoValue | Opaque.

Definition variant (v : any) : Variant :=
  match v with
  | of_float64 _ => Number_
  | of_string _ => Text_
  | of_Boolean _ => Boolean_
  | of_nil => NoValue
  | _ => Opaque
  end.

Definition Variant_eqb (a b : Variant) : bool :=
  match a, b with
  | Number_, Number_ | Text_, Text_ | Boolean_, Boolean_
  | NoValue, NoValue | Opaque, Opaque => true
  | _, _ => false
  end.

(** The three cases in which a comparison is ill-typed. *)
Definition ill_typed (o : CompareOp) (lhs rhs : any) : bool :=
  negb (Variant_eqb (variant lhs) (variant rhs))
  || (Variant_eqb (variant lhs) Boolean_ && Variant_eqb (variant rhs) Boolean_
      && is_ordering o)
  || match variant lhs with
     | Number_ | Text_ | Boolean_ => false
     | _ => true
     end.

(** The host types that [castToInternal] turns into a number. *)
Definition host_numeric (v : any) : bool :=
  match v with
  | of_int _ | of_int8 _ | of_int16 _ | of_int32 _ | of_int64 _
  | of_uint _ | of_uint8 _ | of_uint16 _ | of_uint32 _ | of_uint64 _
  | of_float32 _ | of_float64 _ => true
  | _ => false
  end.

(** The conventional shape of an identifier, and the four keywords. *)
Definition ident_start (c : ascii) : bool :=
  lexer.lower c || lexer.upper c || Ascii.eqb c "_".
Definition ident_part (c : ascii) : bool := ident_start c || lexer.digit c.

(** The longest prefix of bytes in a class, and what follows it. *)
Fixpoint take_while (p : ascii -> bool) (s : string) : string :=
  match s with
  | EmptyString => EmptyString
  | String c s' => if p c then String c (take_while p s') else EmptyString
  end.

Fixpoint drop_while (p : ascii -> bool) (s : string) : string :=
  match s with
  | EmptyString => EmptyString
  | String c s' => if p c then drop_while p s' else s
  end.

(** What follows the literal [l] at the start of [s], up to the case of
    the letters of ASCII. *)
Fixpoint fold_prefix (l s : string) : option string :=
  match l with
  | EmptyString => Some s
  | String c l' =>
      match s with
      | EmptyString => None
      | String d s' =>
          if Ascii.eqb (lexer.to_lower d) (lexer.to_lower c)
          then fold_prefix l' s' else None
      end
  end.

Definition is_ascii7 (c : ascii) : bool := (N_of_ascii c <? 128)%N.

Fixpoint all_bytes (p : ascii -> bool) (s : string) : bool :=
  match s with
  | EmptyString => true
  | String c s' => p c && all_bytes p s'
  end.

Definition ident_shape (s : string) : bool :=
  match s with
  | EmptyString => false
  | String c s' => ident_start c && all_bytes ident_part s'
  end.

Definition keywords : list string := ["and"; "or"; "true"; "false"].

(** [s] starts with a keyword, in whatever case. *)
Definition keyword_prefix (s : string) : bool :=
  existsb (fun k => String.eqb (ToLower (substring 0 (String.length k) s)) k) keywords.

(** Types and texts of a token list. *)
Definition kinds (ts : list lexer.Token) : list (lexer.symbol * string) :=
  map (fun t => (lexer.Type_ t, lexer.Value t)) ts.

(** [sub] occurs in [s]. *)
Fixpoint contains (sub s : string) : bool :=
  match lexer.strip_prefix sub s with
  | Some _ => true
  | None =>
      match s with
      | EmptyString => false
      | String _ s' => contains sub s'
      end
  end.

(** The text of a Boolean literal. *)
Definition lit (b : bool) : string := if b then "true" else "false".

(** ** Trees

    Predicates on the AST and the induction principle that follows its
    five node types through the lists and options between them. *)

(** No [Term] of the node is an identifier: a condition on the tree, not
    on its evaluation.  [Term.Eval] looks at [Value] first, so a [Term]
    with a populated [Value] is a literal whatever its other fields
    hold. *)
Fixpoint Expression_closed (e : Expression) : bool :=
  match e with
  | mkExpression _ l => forallb OrCondition_closed l
  end
with OrCondition_closed (o : OrCondition) : bool :=
  match o with
  | mkOrCondition _ l => forallb ConditionOperand_closed l
  end
with ConditionOperand_closed (c : ConditionOperand) : bool :=
  match c with
  | mkConditionOperand _ t cmp =>
      Term_closed t
      && match cmp with Some c' => Compare_closed c' | None => true end
  end
with Compare_closed (c : Compare) : bool :=
  match c with
  | mkCompare _ _ t => Term_closed t
  end
with Term_closed (t : Term) : bool :=
  match t with
  | mkTerm _ v id sub =>
      match v, id, sub with
      | Some _, _, _ => true
      | None, Some _, _ => false
      | None, None, Some e => Expression_closed e
      | None, None, None => true
      end
  end.

(** The operators of the tag of [Compare.Operator], in its order. *)
Definition comparison_operators : list string := ["<="; ">="; "=="; "<"; ">"; "!="].

(** Exactly one field of a [Value] is populated. *)
Definition Value_wf (v : Value) : bool :=
  match Number v, String_ v, Boolean v with
  | Some _, None, None | None, Some _, None | None, None, Some _ => true
  | _, _, _ => false
  end.

(** The shape the grammar gives a tree: no node without children, an
    operator of the tag in every [Compare], and exactly one populated
    field in every [Term] and every [Value]. *)
Fixpoint Expression_wf (e : Expression) : bool :=
  match e with
  | mkExpression _ l =>
      match l with [] => false | _ :: _ => forallb OrCondition_wf l end
  end
with OrCondition_wf (o : OrCondition) : bool :=
  match o with
  | mkOrCondition _ l =>
      match l with [] => false | _ :: _ => forallb ConditionOperand_wf l end
  end
with ConditionOperand_wf (c : ConditionOperand) : bool :=
  match c with
  | mkConditionOperand _ t cmp =>
      Term_wf t && match cmp with Some c' => Compare_wf c' | None => true end
  end
with Compare_wf (c : Compare) : bool :=
  match c with
  | mkCompare _ op t => existsb (String.eqb op) comparison_operators && Term_wf t
  end
with Term_wf (t : Term) : bool :=
  match t with
  | mkTerm _ v id sub =>
      match v, id, sub with
      | Some v', None, None => Value_wf v'
      | None, Some _, None => true
      | None, None, Some e => Expression_wf e
      | _, _, _ => false
      end
  end.

Section Tree_ind.
Variable PE : Expression -> Prop.
Variable PO : OrCondition -> Prop.
Variable PC : ConditionOperand -> Prop.
Variable PM : Compare -> Prop.
Variable PT : Term -> Prop.
Hypothesis HE : forall pos l, Forall PO l -> PE (mkExpression pos l).
Hypothesis HO : forall pos l, Forall PC l -> PO (mkOrCondition pos l).
Hypothesis HC0 : forall pos t, PT t -> PC (mkConditionOperand pos t None).
Hypothesis HC1 : forall pos t c, PT t -> PM c -> PC (mkConditionOperand pos t (Some c)).
Hypothesis HM : forall pos op t, PT t -> PM (mkCompare pos op t).
Hypothesis HT0 : forall pos v id, PT (mkTerm pos v id None).
Hypothesis HT1 : forall pos v id e, PE e -> PT (mkTerm pos v id (Some e)).

Fixpoint Expression_tree_ind (e : Expression) : PE e :=
  match e with
  | mkExpression pos l =>
      HE pos l
         ((fix all (l : list OrCondition) : Forall PO l :=
             match l with
             | [] => Forall_nil PO
             | o :: l' => Forall_cons o (OrCondition_tree_ind o) (all l')
             end) l)
  end
with OrCondition_tree_ind (o : OrCondition) : PO o :=
  match o with
  | mkOrCondition pos l =>
      HO pos l
         ((fix all (l : list ConditionOperand) : Forall PC l :=
             match l with
             | [] => Forall_nil PC
             | c :: l' => Forall_cons c (ConditionOperand_tree_ind c) (all l')
             end) l)
  end
with ConditionOperand_tree_ind (c : ConditionOperand) : PC c :=
  match c with
  | mkConditionOperand pos t None => HC0 pos t (Term_tree_ind t)
  | mkConditionOperand pos t (Some c') =>
      HC1 pos t c' (Term_tree_ind t) (Compare_tree_ind c')
  end
with Compare_tree_ind (c : Compare) : PM c :=
  match c with
  | mkCompare pos op t => HM pos op t (Term_tree_ind t)
  end
with Term_tree_ind (t : Term) : PT t :=
  match t with
  | mkTerm pos v id None => HT0 pos v id
  | mkTerm pos v id (Some e) => HT1 pos v id e (Expression_tree_ind e)
  end.
End Tree_ind.

(** An [Eval] method whose outcome is the same under every context and
    in every state of the host, and which leaves that state as it is. *)
Definition constant {St : Type} (m : Evaluable St) : Prop :=
  exists r : outcome any, forall (ctx : Context St) (s : St), m ctx s = (r, s).

(** An [Eval] method that, whenever it returns a value without an object,
    returns that value under every context and in every state of the
    host, and leaves that state as it is. *)
Definition object_free {St : Type} (m : Evaluable St) : Prop :=
  forall (s0 : St) (v : any) (s0' : St),
    m (mkContext St None) s0 = (Ok v, s0') ->
    forall (ctx : Context St) (s : St), m ctx s = (Ok v, s).

Definition panics {A : Type} (o : outcome A) : bool :=
  match o with Panic _ => true | _ => false end.

(** The three types of value the evaluator computes with, the three types
    [Eval] is documented to return, and the host values that
    [GetByName] is documented to return. *)
Definition is_internal (v : any) : bool :=
  match v with of_float64 _ | of_string _ | of_Boolean _ => true | _ => false end.
Definition is_external (v : any) : bool :=
  match v with of_float64 _ | of_string _ | of_bool _ => true | _ => false end.
Definition host_supported (v : any) : bool :=
  match v with of_bool _ | of_string _ => true | _ => host_numeric v end.

(** An object, if there is one, that returns values of those types only. *)
Definition supported_host {St : Type} (obj : option (Gettable St)) : Prop :=
  forall object, obj = Some object ->
  forall name s v s', object name s = ((v, None), s') -> host_supported v = true.

(** [t] between parentheses: the [Term] whose [SubExpression] has [t] as
    its one operand.  The positions are those of the [Term], the
    [Expression], the [OrCondition] and the [ConditionOperand]. *)
Definition parenthesised (p : Position * Position * Position * Position) (t : Term)
  : Term :=
  let '(p1, p2, p3, p4) := p in
  mkTerm p1 None None
         (Some (mkExpression p2 [mkOrCondition p3 [mkConditionOperand p4 t None]])).

(** The bytes a token of [myLexer] can start with. *)
Definition can_start (c : ascii) : bool :=
  lexer.space c || ident_start c || lexer.digit c
  || lexer.one_of ["-"; "+"; "."; "'"; ascii_of_N 34; "!"; "="; "<"; ">"; "("; ")"]%char c.

(** The positions of the nodes of a tree. *)
Fixpoint Expression_positions (e : Expression) : list Position :=
  match e with
  | mkExpression pos l => pos :: flat_map OrCondition_positions l
  end
with OrCondition_positions (o : OrCondition) : list Position :=
  match o with
  | mkOrCondition pos l => pos :: flat_map ConditionOperand_positions l
  end
with ConditionOperand_positions (c : ConditionOperand) : list Position :=
  match c with
  | mkConditionOperand pos t cmp =>
      pos :: (Term_positions t
              ++ match cmp with Some c' => Compare_positions c' | None => [] end)%list
  end
with Compare_positions (c : Compare) : list Position :=
  match c with
  | mkCompare pos _ t => pos :: Term_positions t
  end
with Term_positions (t : Term) : list Position :=
  match t with
  | mkTerm pos _ _ sub =>
      pos :: match sub with Some e => Expression_positions e | None => [] end
  end.

(** An error made by [lexer.Errorf] at one of the positions [ps]. *)
Definition positioned (ps : list Position) (err : error) : Prop :=
  exists pos msg, err = lexer_Error pos msg /\ In pos ps.

(** A regular expression that matches the empty string. *)
Fixpoint nullable (r : lexer.regex) : bool :=
  match r with
  | lexer.Byte _ => false
  | lexer.Str l => match l with EmptyString => true | String _ _ => false end
  | lexer.Cat r1 r2 => nullable r1 && nullable r2
  | lexer.Alt r1 r2 => nullable r1 || nullable r2
  | lexer.Star _ | lexer.Opt _ => true
  end.

(** Bytes after which a byte that can start a token has started one: a
    digit after a sign or a dot, the equals sign after [!] and [=], and
    the same quote after a quote. *)
Definition completion (c : ascii) : string :=
  if lexer.one_of ["-"; "+"; "."]%char c then "0"
  else if lexer.one_of ["!"; "="]%char c then "="
  else if lexer.one_of ["'"; ascii_of_N 34]%char c then String c ""
  else "".

(** The two quotes of a [String] token. *)
Definition is_quote (q : ascii) : bool := lexer.one_of ["'"; ascii_of_N 34]%char q.

(** The bytes a match of a regular expression can start with. *)
Fixpoint first_byte (r : lexer.regex) (c : ascii) : bool :=
  match r with
  | lexer.Byte class => class c
  | lexer.Str l => match l with String d _ => Ascii.eqb d c | EmptyString => false end
  | lexer.Cat r1 r2 => first_byte r1 c || (nullable r1 && first_byte r2 c)
  | lexer.Alt r1 r2 => first_byte r1 c || first_byte r2 c
  | lexer.Star r1 | lexer.Opt r1 => first_byte r1 c
  end.

(** What the text taken by a match of [r] looks like from outside: it is
    empty only if [r] is nullable, and starts with a byte of [first_byte]
    otherwise. *)
Definition taken (r : lexer.regex) (a : string) : Prop :=
  match a with
  | EmptyString => nullable r = true
  | String c _ => first_byte r c = true
  end.

(** The bytes a token of each type can start with. *)
Definition starts (sym : lexer.symbol) (c : ascii) : bool :=
  match sym with
  | lexer.EOF => false
  | lexer.LogicOp => lexer.one_of ["a"; "A"; "o"; "O"]%char c
  | lexer.Boolean => lexer.one_of ["t"; "T"; "f"; "F"]%char c
  | lexer.Ident => ident_start c
  | lexer.Number => lexer.digit c || lexer.one_of ["-"; "+"; "."]%char c
  | lexer.String_ => is_quote c
  | lexer.CompareOp => lexer.one_of ["!"; "<"; ">"; "="; "("; ")"]%char c
  end.

(** A token with a text that starts as its type says; such a token is
    not empty and is not the [EOF] token. *)
Definition named_token (t : lexer.Token) : bool :=
  match lexer.Value t with
  | String c _ => starts (lexer.Type_ t) c
  | EmptyString => false
  end.

(** One alternative of the group [String]: the quote [q], bytes other
    than [q], and [q]. *)
Definition quoted (q : ascii) : lexer.regex :=
  lexer.Cat (lexer.Byte (Ascii.eqb q))
    (lexer.Cat (lexer.Star (lexer.Byte (lexer.none_of [q])))
       (lexer.Byte (Ascii.eqb q))).

(** The tree of a text that is one literal: the four nodes around a
    [Value], all at the position of its token. *)
Definition single (pos : Position) (v : Value) : Expression :=
  mkExpression pos
    [mkOrCondition pos
       [mkConditionOperand pos (mkTerm pos (Some v) None None) None]].

(** What follows the digits before the dot in the group [Number]: the
    optional dot, the digits that have to be there, and the optional
    exponent. *)
Definition after_digits (s : string) : option string :=
  let sign := lexer.Byte (lexer.one_of ["-"; "+"]%char) in
  let digit := lexer.Byte lexer.digit in
  lexer.rmatch
    (lexer.Cat (lexer.Opt (lexer.Str "."))
       (lexer.Cat (lexer.Plus digit)
          (lexer.Opt
             (lexer.Cat (lexer.Byte (lexer.one_of ["e"; "E"]%char))
                (lexer.Cat (lexer.Opt sign) (lexer.Plus digit))))))
    s (fun rest => Some rest).

(** The nodes of a Boolean literal at a position. *)
Definition Boolean_term (pos : Position) (b : bool) : Term :=
  mkTerm pos (Some (mkValue pos None None (Some b))) None None.
Definition Boolean_operand (pos : Position) (b : bool) : ConditionOperand :=
  mkConditionOperand pos (Boolean_term pos b) None.

(** The value of an operand that is a Boolean literal. *)
Definition literal_value (c : ConditionOperand) : bool :=
  match c with
  | mkConditionOperand _ (mkTerm _ (Some v) _ _) _ =>
      match Boolean v with Some b => b | None => false end
  | _ => false
  end.

(** ** A host for the examples

    The state of the host is the list of the names it was asked for.  It
    knows [t] and [f] as the two values of [bool], [age] as an [int] and
    [gender] as a string, and fails on every other name. *)
Module Example.

Definition St : Type := list string.

Definition FormatError (pos : Position) (msg : string) : string := msg.

Definition GetByName : Gettable St :=
  fun name s =>
    (if name =? "t" then (of_bool true, None)
     else if name =? "f" then (of_bool false, None)
     else if name =? "age" then (of_int 22, None)
     else if name =? "gender" then (of_string "male", None)
     else (of_nil, Some (errorString "Invalid identifier")),
     (s ++ [name])%list).

Definition ctx : Context St := mkContext St (Some GetByName).
Definition no_object : Context St := mkContext St None.

Definition p0 : Position := mkPosition "" 0 1 1.

(** The nodes of a bare identifier. *)
Definition ident (name : string) : Term :=
  mkTerm p0 None (Some (mk_string_ptr 824633786960 name)) None.
Definition operand (name : string) : ConditionOperand :=
  mkConditionOperand p0 (ident name) None.
Definition cond (name : string) : OrCondition := mkOrCondition p0 [operand name].

(** The nodes of a string literal. *)
Definition text (s : string) : Term :=
  mkTerm p0 (Some (mkValue p0 None (Some s) None)) None None.

(** The nodes of a number literal. *)
Definition number (n : Z) : Term :=
  mkTerm p0 (Some (mkValue p0 (Some (Float64.of_Z n)) None None)) None None.

End Example.

(** * Properties *)

Lemma last_cons {A : Type} (l : list A) :
  forall x d : A, last (x :: l) d = last l x.
Proof.
  induction l as [|y l IH]; intros x d; [reflexivity|].
  change (last (x :: y :: l) d) with (last (y :: l) d).
  rewrite (IH y d), (IH y x). reflexivity.
Qed.

(** ** The loops *)

Section LoopFacts.
Variable St : Type.
Variable FormatError : Position -> string -> string.
Variable X : Type.
Variable Eval_ : X -> Evaluable St.
Variable ctx : Context St.
Variable pos : Position.

Local Notation "'or_range'" := (Expression_Eval_range St FormatError X Eval_ ctx pos).
Local Notation "'and_range'" := (OrCondition_Eval_range St FormatError X Eval_ ctx pos).
Local Notation "'in_order'" := (eval_in_order St X Eval_ ctx).

Lemma in_order_cons (c : X) (cs : list X) (s s' : St) (bs : list bool) :
  in_order (c :: cs) s = (Some bs, s') ->
  exists b bs' s1,
    bs = b :: bs' /\ Eval_ c ctx s = (Ok (of_Boolean b), s1)
    /\ in_order cs s1 = (Some bs', s').
Proof.
  simpl.
  destruct (Eval_ c ctx s) as [[v| |] s1] eqn:E; try discriminate.
  destruct v; try discriminate.
  destruct (eval_in_order St X Eval_ ctx cs s1) as [[bs'|] s2] eqn:E'; try discriminate.
  intros H; inversion H; subst. exists b, bs', s1. auto.
Qed.

Lemma in_order_length (cs : list X) :
  forall s s' bs, in_order cs s = (Some bs, s') -> List.length bs = List.length cs.
Proof.
  induction cs as [|c cs IH]; intros s s' bs H.
  - simpl in H. inversion H; reflexivity.
  - apply in_order_cons in H. destruct H as (b & bs' & s1 & -> & _ & H).
    simpl. f_equal. eapply IH; eassumption.
Qed.

(** One step of either loop on Booleans. *)
Lemma or_range_step (a b : bool) (c : X) (cs : list X) (s s1 : St) :
  Eval_ c ctx s = (Ok (of_Boolean b), s1) ->
  or_range (of_Boolean a) (c :: cs) s
  = if a then (Ok (of_Boolean true), s1) else or_range (of_Boolean b) cs s1.
Proof.
  intros E. simpl. unfold evaluateBooleans. rewrite E.
  destruct a; reflexivity.
Qed.

Lemma and_range_step (a b : bool) (c : X) (cs : list X) (s s1 : St) :
  Eval_ c ctx s = (Ok (of_Boolean b), s1) ->
  and_range (of_Boolean a) (c :: cs) s
  = if a then and_range (of_Boolean b) cs s1 else (Ok (of_Boolean false), s1).
Proof.
  intros E. simpl. unfold evaluateBooleans. rewrite E.
  destruct a; reflexivity.
Qed.

(** The loop over children that all return Booleans. *)
Lemma or_range_fold (cs : list X) :
  forall (a : bool) (post : list X) (s s' : St) (bs : list bool),
    cs <> [] ->
    in_order cs s = (Some bs, s') ->
    (forall i, i + 2 < List.length (a :: bs) -> nth i (a :: bs) false = false) ->
    post = [] \/ nth (List.length bs - 1) (a :: bs) false = true ->
    or_range (of_Boolean a) (cs ++ post) s
    = (Ok (of_Boolean (fold_left orb (a :: bs) false)), s').
Proof.
  induction cs as [|c cs IH]; intros a post s s' bs Hne H Hpre Hlast;
    [congruence|].
  apply in_order_cons in H. destruct H as (b & bs' & s1 & -> & E & H).
  simpl app. rewrite (or_range_step a b c (cs ++ post) s s1 E).
  destruct cs as [|c' cs].
  - simpl in H. inversion H; subst. simpl.
    destruct a; [reflexivity|].
    destruct Hlast as [-> | Hlast]; [reflexivity|discriminate].
  - assert (Ha : a = false).
    { apply in_order_length in H. simpl in H.
      apply (Hpre 0). simpl. lia. }
    subst a.
    rewrite (IH b post s1 s' bs'); try assumption; try discriminate.
    + reflexivity.
    + intros i Hi. apply (Hpre (Datatypes.S i)). simpl in *. lia.
    + destruct Hlast as [Hl | Hl]; [left; assumption|right].
      apply in_order_length in H. simpl in H.
      destruct bs' as [|b' bs']; [discriminate|].
      simpl in Hl. simpl. rewrite Nat.sub_0_r in *. exact Hl.
Qed.

Lemma and_range_fold (cs : list X) :
  forall (a : bool) (post : list X) (s s' : St) (bs : list bool),
    cs <> [] ->
    in_order cs s = (Some bs, s') ->
    (forall i, i + 2 < List.length (a :: bs) -> nth i (a :: bs) true = true) ->
    post = [] \/ nth (List.length bs - 1) (a :: bs) true = false ->
    and_range (of_Boolean a) (cs ++ post) s
    = (Ok (of_Boolean (fold_left andb (a :: bs) true)), s').
Proof.
  induction cs as [|c cs IH]; intros a post s s' bs Hne H Hpre Hlast;
    [congruence|].
  apply in_order_cons in H. destruct H as (b & bs' & s1 & -> & E & H).
  simpl app. rewrite (and_range_step a b c (cs ++ post) s s1 E).
  destruct cs as [|c' cs].
  - simpl in H. inversion H; subst. simpl.
    destruct a; [|reflexivity].
    destruct Hlast as [-> | Hlast]; [reflexivity|discriminate].
  - assert (Ha : a = true).
    { apply in_order_length in H. simpl in H.
      apply (Hpre 0). simpl. lia. }
    subst a.
    rewrite (IH b post s1 s' bs'); try assumption; try discriminate.
    + reflexivity.
    + intros i Hi. apply (Hpre (Datatypes.S i)). simpl in *. lia.
    + destruct Hlast as [Hl | Hl]; [left; assumption|right].
      apply in_order_length in H. simpl in H.
      destruct bs' as [|b' bs']; [discriminate|].
      simpl in Hl. simpl. rewrite Nat.sub_0_r in *. exact Hl.
Qed.

(** The right-hand child is evaluated first: its error is the error of
    the step, whatever the left operand is. *)
Lemma or_range_rhs_error (lhs : any) (c : X) (cs : list X) (s s' : St) (err : error) :
  Eval_ c ctx s = (Err err, s') ->
  or_range lhs (c :: cs) s
  = (Err (lexer_Error pos (error_Error FormatError err)), s').
Proof.
  intros E. simpl. unfold evaluateBooleans. rewrite E. reflexivity.
Qed.

Lemma and_range_rhs_error (lhs : any) (c : X) (cs : list X) (s s' : St) (err : error) :
  Eval_ c ctx s = (Err err, s') ->
  and_range lhs (c :: cs) s
  = (Err (lexer_Error pos (error_Error FormatError err)), s').
Proof.
  intros E. simpl. unfold evaluateBooleans. rewrite E. reflexivity.
Qed.

(** A left operand that is not a Boolean, after the right-hand child
    returned. *)
Lemma or_range_lhs_type (lhs v : any) (c : X) (cs : list X) (s s' : St) :
  is_Boolean lhs = false ->
  Eval_ c ctx s = (Ok v, s') ->
  or_range lhs (c :: cs) s = (Err (lexer_Error pos "lhs must be boolean"), s').
Proof.
  intros Hl E. simpl. unfold evaluateBooleans. rewrite E.
  destruct lhs; try discriminate; reflexivity.
Qed.

Lemma and_range_lhs_type (lhs v : any) (c : X) (cs : list X) (s s' : St) :
  is_Boolean lhs = false ->
  Eval_ c ctx s = (Ok v, s') ->
  and_range lhs (c :: cs) s = (Err (lexer_Error pos "lhs must be boolean"), s').
Proof.
  intros Hl E. simpl. unfold evaluateBooleans. rewrite E.
  destruct lhs; try discriminate; reflexivity.
Qed.

(** A right operand that is not a Boolean. *)
Lemma or_range_rhs_type (a : bool) (v : any) (c : X) (cs : list X) (s s' : St) :
  is_Boolean v = false ->
  Eval_ c ctx s = (Ok v, s') ->
  or_range (of_Boolean a) (c :: cs) s
  = (Err (lexer_Error pos "rhs must be boolean"), s').
Proof.
  intros Hv E. simpl. unfold evaluateBooleans. rewrite E.
  destruct v; try discriminate; reflexivity.
Qed.

Lemma and_range_rhs_type (a : bool) (v : any) (c : X) (cs : list X) (s s' : St) :
  is_Boolean v = false ->
  Eval_ c ctx s = (Ok v, s') ->
  and_range (of_Boolean a) (c :: cs) s
  = (Err (lexer_Error pos "rhs must be boolean"), s').
Proof.
  intros Hv E. simpl. unfold evaluateBooleans. rewrite E.
  destruct v; try discriminate; reflexivity.
Qed.

(** The loop runs through children that return the value on which it
    does not stop. *)
Lemma or_range_skip (cs : list X) :
  forall (a : bool) (rest : list X) (s s' : St) (bs : list bool),
    in_order cs s = (Some bs, s') ->
    (forall i, i + 1 < List.length (a :: bs) -> nth i (a :: bs) false = false) ->
    or_range (of_Boolean a) (cs ++ rest) s
    = or_range (of_Boolean (last bs a)) rest s'.
Proof.
  induction cs as [|c cs IH]; intros a rest s s' bs H Hpre.
  - simpl in H. inversion H; subst. reflexivity.
  - apply in_order_cons in H. destruct H as (b & bs' & s1 & -> & E & H).
    simpl app. rewrite (or_range_step a b c (cs ++ rest) s s1 E).
    assert (Ha : a = false) by (apply (Hpre 0); simpl; lia). subst a.
    rewrite (IH b rest s1 s' bs' H).
    + rewrite last_cons. reflexivity.
    + intros i Hi. apply (Hpre (Datatypes.S i)). simpl in *. lia.
Qed.

Lemma and_range_skip (cs : list X) :
  forall (a : bool) (rest : list X) (s s' : St) (bs : list bool),
    in_order cs s = (Some bs, s') ->
    (forall i, i + 1 < List.length (a :: bs) -> nth i (a :: bs) true = true) ->
    and_range (of_Boolean a) (cs ++ rest) s
    = and_range (of_Boolean (last bs a)) rest s'.
Proof.
  induction cs as [|c cs IH]; intros a rest s s' bs H Hpre.
  - simpl in H. inversion H; subst. reflexivity.
  - apply in_order_cons in H. destruct H as (b & bs' & s1 & -> & E & H).
    simpl app. rewrite (and_range_step a b c (cs ++ rest) s s1 E).
    assert (Ha : a = true) by (apply (Hpre 0); simpl; lia). subst a.
    rewrite (IH b rest s1 s' bs' H).
    + rewrite last_cons. reflexivity.
    + intros i Hi. apply (Hpre (Datatypes.S i)). simpl in *. lia.
Qed.
End LoopFacts.


(** ** The two logical nodes *)

Section NodeFacts.
Variable St : Type.
Variable FormatError : Position -> string -> string.

Local Notation "'Expression_Eval''" := (Expression_Eval St FormatError).
Local Notation "'OrCondition_Eval''" := (OrCondition_Eval St FormatError).
Local Notation "'ConditionOperand_Eval''" := (ConditionOperand_Eval St FormatError).

Lemma Expression_Eval_unfold (pos : Position) (Or : list OrCondition) :
  Expression_Eval' (mkExpression pos Or)
  = Expression_Eval_body St FormatError OrCondition OrCondition_Eval' pos Or.
Proof. reflexivity. Qed.

Lemma OrCondition_Eval_unfold (pos : Position) (And : list ConditionOperand) :
  OrCondition_Eval' (mkOrCondition pos And)
  = OrCondition_Eval_body St FormatError ConditionOperand ConditionOperand_Eval' pos And.
Proof. reflexivity. Qed.

(** With a first child that returned and no two-operand short-circuit on
    its value, the node goes on with its loop. *)
Lemma Expression_enters_loop (ctx : Context St) (pos : Position) (c0 c1 : OrCondition)
      (rest : list OrCondition) (s s1 : St) (v0 : any) :
  OrCondition_Eval' c0 ctx s = (Ok v0, s1) ->
  (rest = [] -> v0 <> of_Boolean true) ->
  Expression_Eval' (mkExpression pos (c0 :: c1 :: rest)) ctx s
  = Expression_Eval_range St FormatError OrCondition OrCondition_Eval' ctx pos
      v0 (c1 :: rest) s1.
Proof.
  intros E Hsc. rewrite Expression_Eval_unfold.
  unfold Expression_Eval_body. rewrite E. destruct rest as [|c2 rest].
  - simpl. destruct v0 as [| | | | | | | | | | | | | | |[|]|]; try reflexivity.
    exfalso. apply Hsc; reflexivity.
  - reflexivity.
Qed.

Lemma OrCondition_enters_loop (ctx : Context St) (pos : Position) (c0 c1 : ConditionOperand)
      (rest : list ConditionOperand) (s s1 : St) (v0 : any) :
  ConditionOperand_Eval' c0 ctx s = (Ok v0, s1) ->
  (rest = [] -> v0 <> of_Boolean false) ->
  OrCondition_Eval' (mkOrCondition pos (c0 :: c1 :: rest)) ctx s
  = OrCondition_Eval_range St FormatError ConditionOperand ConditionOperand_Eval' ctx pos
      v0 (c1 :: rest) s1.
Proof.
  intros E Hsc. rewrite OrCondition_Eval_unfold.
  unfold OrCondition_Eval_body. rewrite E. destruct rest as [|c2 rest].
  - simpl. destruct v0 as [| | | | | | | | | | | | | | |[|]|]; try reflexivity.
    exfalso. apply Hsc; reflexivity.
  - reflexivity.
Qed.

Lemma not_Boolean (v : any) (b : bool) : is_Boolean v = false -> v <> of_Boolean b.
Proof. intros H ->. discriminate. Qed.

Lemma Expression_fold_law :
  fold_law St OrCondition Expression mkExpression Expression_Eval' OrCondition_Eval'
           true orb.
Proof.
  intros ctx pos evald post s s' bs H3 H2 Hin Hpre Hlast.
  destruct evald as [|c0 [|c1 cs]]; simpl in H2; try lia.
  apply in_order_cons in Hin. destruct Hin as (b0 & bs' & s1 & -> & E0 & Hin).
  simpl app. rewrite (Expression_enters_loop ctx pos c0 c1 (cs ++ post) s s1 _ E0).
  - change (c1 :: cs ++ post)%list with ((c1 :: cs) ++ post)%list.
    apply or_range_fold; try assumption; discriminate.
  - intros Hnil. apply app_eq_nil in Hnil. destruct Hnil as [-> ->].
    simpl in H3. lia.
Qed.

Lemma OrCondition_fold_law :
  fold_law St ConditionOperand OrCondition mkOrCondition OrCondition_Eval'
           ConditionOperand_Eval' false andb.
Proof.
  intros ctx pos evald post s s' bs H3 H2 Hin Hpre Hlast.
  destruct evald as [|c0 [|c1 cs]]; simpl in H2; try lia.
  apply in_order_cons in Hin. destruct Hin as (b0 & bs' & s1 & -> & E0 & Hin).
  simpl app. rewrite (OrCondition_enters_loop ctx pos c0 c1 (cs ++ post) s s1 _ E0).
  - change (c1 :: cs ++ post)%list with ((c1 :: cs) ++ post)%list.
    apply and_range_fold; try assumption; discriminate.
  - intros Hnil. apply app_eq_nil in Hnil. destruct Hnil as [-> ->].
    simpl in H3. lia.
Qed.

Lemma Expression_rhs_first_law :
  rhs_first_law St FormatError OrCondition Expression mkExpression Expression_Eval'
                OrCondition_Eval' true.
Proof.
  intros ctx pos c0 c1 rest s s1 s2 v0 E0 Hsc.
  rewrite (Expression_enters_loop ctx pos c0 c1 rest s s1 v0 E0 Hsc). split.
  - intros err E1. apply or_range_rhs_error; assumption.
  - intros v1 E1 Hv0. eapply or_range_lhs_type; eassumption.
Qed.

Lemma OrCondition_rhs_first_law :
  rhs_first_law St FormatError ConditionOperand OrCondition mkOrCondition
                OrCondition_Eval' ConditionOperand_Eval' false.
Proof.
  intros ctx pos c0 c1 rest s s1 s2 v0 E0 Hsc.
  rewrite (OrCondition_enters_loop ctx pos c0 c1 rest s s1 v0 E0 Hsc). split.
  - intros err E1. apply and_range_rhs_error; assumption.
  - intros v1 E1 Hv0. eapply and_range_lhs_type; eassumption.
Qed.

Lemma Expression_lhs_type_law :
  lhs_type_law St OrCondition Expression mkExpression Expression_Eval' OrCondition_Eval'.
Proof.
  intros ctx pos c0 c1 rest s s1 s2 v0 v1 Hrest E0 Hv0 E1.
  destruct (Expression_rhs_first_law ctx pos c0 c1 rest s s1 s2 v0 E0) as [_ H].
  - intros _. apply not_Boolean; assumption.
  - eapply H; eassumption.
Qed.

Lemma OrCondition_lhs_type_law :
  lhs_type_law St ConditionOperand OrCondition mkOrCondition OrCondition_Eval'
               ConditionOperand_Eval'.
Proof.
  intros ctx pos c0 c1 rest s s1 s2 v0 v1 Hrest E0 Hv0 E1.
  destruct (OrCondition_rhs_first_law ctx pos c0 c1 rest s s1 s2 v0 E0) as [_ H].
  - intros _. apply not_Boolean; assumption.
  - eapply H; eassumption.
Qed.

Lemma Expression_rhs_type_law :
  rhs_type_law St OrCondition Expression mkExpression Expression_Eval' OrCondition_Eval'
               true.
Proof.
  intros ctx pos pre c post s s1 s2 bs v H3 H1 Hin Hpre E Hv.
  destruct pre as [|c0 mid]; simpl in H1; try lia.
  apply in_order_cons in Hin. destruct Hin as (b0 & bs' & s0 & -> & E0 & Hin).
  assert (Hloop : Expression_Eval' (mkExpression pos ((c0 :: mid) ++ c :: post)) ctx s
                  = Expression_Eval_range St FormatError OrCondition OrCondition_Eval'
                      ctx pos (of_Boolean b0) (mid ++ c :: post) s0).
  { destruct mid as [|c1 mid]; simpl app.
    - apply Expression_enters_loop; [assumption|].
      intros ->. simpl in H3. lia.
    - apply Expression_enters_loop; [assumption|].
      intros Hnil. apply app_eq_nil in Hnil. destruct Hnil; discriminate. }
  rewrite Hloop.
  rewrite (or_range_skip St FormatError _ _ ctx pos mid b0 (c :: post) s0 s1 bs' Hin Hpre).
  eapply or_range_rhs_type; eassumption.
Qed.

Lemma OrCondition_rhs_type_law :
  rhs_type_law St ConditionOperand OrCondition mkOrCondition OrCondition_Eval'
               ConditionOperand_Eval' false.
Proof.
  intros ctx pos pre c post s s1 s2 bs v H3 H1 Hin Hpre E Hv.
  destruct pre as [|c0 mid]; simpl in H1; try lia.
  apply in_order_cons in Hin. destruct Hin as (b0 & bs' & s0 & -> & E0 & Hin).
  assert (Hloop : OrCondition_Eval' (mkOrCondition pos ((c0 :: mid) ++ c :: post)) ctx s
                  = OrCondition_Eval_range St FormatError ConditionOperand
                      ConditionOperand_Eval' ctx pos (of_Boolean b0)
                      (mid ++ c :: post) s0).
  { destruct mid as [|c1 mid]; simpl app.
    - apply OrCondition_enters_loop; [assumption|].
      intros ->. simpl in H3. lia.
    - apply OrCondition_enters_loop; [assumption|].
      intros Hnil. apply app_eq_nil in Hnil. destruct Hnil; discriminate. }
  rewrite Hloop.
  rewrite (and_range_skip St FormatError _ _ ctx pos mid b0 (c :: post) s0 s1 bs' Hin Hpre).
  eapply and_range_rhs_type; eassumption.
Qed.

End NodeFacts.

(** C1.  An [Expression] (resp. an [OrCondition]) with three or more
    children folds them from left to right.  Each step evaluates the next
    child and wants the running left operand and the value of that child
    to be Booleans: a first child that is not one makes the node fail with
    "lhs must be boolean" once the second child is evaluated, a later child
    that is not one makes it fail with "rhs must be boolean", also at the
    step where the loop would stop.  The loop stops when the left operand
    of a step is already [true] (resp. [false]): the child of that step is
    evaluated, the children after it are not, and the node returns the fold
    of the values of the children it evaluated, in the state the last of
    them left. *)
Theorem nary_fold_left_to_right (St : Type) (FormatError : Position -> string -> string) :
  (fold_law St OrCondition Expression mkExpression
     (Expression_Eval St FormatError) (OrCondition_Eval St FormatError) true orb
   /\ lhs_type_law St OrCondition Expression mkExpression
        (Expression_Eval St FormatError) (OrCondition_Eval St FormatError)
   /\ rhs_type_law St OrCondition Expression mkExpression
        (Expression_Eval St FormatError) (OrCondition_Eval St FormatError) true)
  /\ (fold_law St ConditionOperand OrCondition mkOrCondition
        (OrCondition_Eval St FormatError) (ConditionOperand_Eval St FormatError)
        false andb
      /\ lhs_type_law St ConditionOperand OrCondition mkOrCondition
           (OrCondition_Eval St FormatError) (ConditionOperand_Eval St FormatError)
      /\ rhs_type_law St ConditionOperand OrCondition mkOrCondition
           (OrCondition_Eval St FormatError) (ConditionOperand_Eval St FormatError)
           false).
Proof.
  repeat split.
  - apply Expression_fold_law.
  - apply Expression_lhs_type_law.
  - apply Expression_rhs_type_law.
  - apply OrCondition_fold_law.
  - apply OrCondition_lhs_type_law.
  - apply OrCondition_rhs_type_law.
Qed.

(** [t OR f OR x] on the example host: [t] and [f] are looked up, the
    unknown [x] is not, and the value is [true]. *)
Lemma nary_fold_left_to_right_witness :
  Expression_Eval Example.St Example.FormatError
    (mkExpression Example.p0
       ([Example.cond "t"; Example.cond "f"] ++ [Example.cond "x"]))
    Example.ctx []
  = (Ok (of_Boolean (fold_left orb [true; false] false)), ["t"; "f"]).
Proof.
  apply (proj1 (proj1 (nary_fold_left_to_right Example.St Example.FormatError))).
  - simpl. lia.
  - simpl. lia.
  - reflexivity.
  - simpl. intros i Hi. lia.
  - right. reflexivity.
Defined.

(** C2.  An [Expression] with exactly two children whose first child
    returns the Boolean [true] (resp. an [OrCondition] with exactly two
    children whose first child returns the Boolean [false]) returns that
    Boolean in the state the first child left: the second child, whatever
    it is, is not evaluated and cannot make the node fail. *)
Theorem two_operand_short_circuit (St : Type) (FormatError : Position -> string -> string)
        (ctx : Context St) (pos : Position) (s s1 : St) :
  (forall o0 o1 : OrCondition,
      OrCondition_Eval St FormatError o0 ctx s = (Ok (of_Boolean true), s1) ->
      Expression_Eval St FormatError (mkExpression pos [o0; o1]) ctx s
      = (Ok (of_Boolean true), s1))
  /\ (forall c0 c1 : ConditionOperand,
         ConditionOperand_Eval St FormatError c0 ctx s = (Ok (of_Boolean false), s1) ->
         OrCondition_Eval St FormatError (mkOrCondition pos [c0; c1]) ctx s
         = (Ok (of_Boolean false), s1)).
Proof.
  split.
  - intros o0 o1 E. rewrite Expression_Eval_unfold.
    unfold Expression_Eval_body. rewrite E. reflexivity.
  - intros c0 c1 E. rewrite OrCondition_Eval_unfold.
    unfold OrCondition_Eval_body. rewrite E. reflexivity.
Qed.

(** [t OR x] on the example host: the unknown [x] is never looked up. *)
Lemma two_operand_short_circuit_witness :
  Expression_Eval Example.St Example.FormatError
    (mkExpression Example.p0 [Example.cond "t"; Example.cond "x"]) Example.ctx []
  = (Ok (of_Boolean true), ["t"]).
Proof.
  apply (proj1 (two_operand_short_circuit Example.St Example.FormatError
                  Example.ctx Example.p0 [] ["t"])).
  reflexivity.
Defined.

(** C10.  In every step of the two loops the right-hand child is evaluated
    before the running left operand is looked at: an error of that child is
    the error of the step whatever the left operand is, and a left operand
    that is not a Boolean is only reported once the child has returned.
    For a node with two or more children on whose first child the
    two-operand short-circuit does not apply, an error of the second child
    is therefore the error of the node, also when the first child is not a
    Boolean, and a first child that is not a Boolean does not keep the
    second from being evaluated. *)
Theorem right_child_evaluated_first (St : Type)
        (FormatError : Position -> string -> string) :
  (forall (X : Type) (Eval_ : X -> Evaluable St) (ctx : Context St) (pos : Position)
          (lhs : any) (c : X) (cs : list X) (s s' : St),
      (forall err, Eval_ c ctx s = (Err err, s') ->
         Expression_Eval_range St FormatError X Eval_ ctx pos lhs (c :: cs) s
         = (Err (lexer_Error pos (error_Error FormatError err)), s')
         /\ OrCondition_Eval_range St FormatError X Eval_ ctx pos lhs (c :: cs) s
            = (Err (lexer_Error pos (error_Error FormatError err)), s'))
      /\ (forall v, Eval_ c ctx s = (Ok v, s') -> is_Boolean lhs = false ->
            Expression_Eval_range St FormatError X Eval_ ctx pos lhs (c :: cs) s
            = (Err (lexer_Error pos "lhs must be boolean"), s')
            /\ OrCondition_Eval_range St FormatError X Eval_ ctx pos lhs (c :: cs) s
               = (Err (lexer_Error pos "lhs must be boolean"), s')))
  /\ rhs_first_law St FormatError OrCondition Expression mkExpression
       (Expression_Eval St FormatError) (OrCondition_Eval St FormatError) true
  /\ rhs_first_law St FormatError ConditionOperand OrCondition mkOrCondition
       (OrCondition_Eval St FormatError) (ConditionOperand_Eval St FormatError) false.
Proof.
  split; [|split].
  - intros X Eval_ ctx pos lhs c cs s s'. split.
    + intros err E. split.
      * apply or_range_rhs_error; assumption.
      * apply and_range_rhs_error; assumption.
    + intros v E Hl. split.
      * eapply or_range_lhs_type; eassumption.
      * eapply and_range_lhs_type; eassumption.
  - apply Expression_rhs_first_law.
  - apply OrCondition_rhs_first_law.
Qed.

(** [gender OR x] on the example host: [gender] is a string, and still
    [x] is looked up, and the failure to resolve it is what is reported. *)
Lemma right_child_evaluated_first_witness :
  Expression_Eval Example.St Example.FormatError
    (mkExpression Example.p0 [Example.cond "gender"; Example.cond "x"]) Example.ctx []
  = (Err (lexer_Error Example.p0
            (error_Error Example.FormatError
               (lexer_Error Example.p0 "Invalid identifier"))),
     ["gender"; "x"]).
Proof.
  apply (proj1 (proj1 (proj2 (right_child_evaluated_first Example.St Example.FormatError))
                  Example.ctx Example.p0 (Example.cond "gender") (Example.cond "x") []
                  [] ["gender"] ["gender"; "x"] (of_string "male")
                  eq_refl (fun _ => not_Boolean (of_string "male") true eq_refl))).
  reflexivity.
Defined.

(** ** Comparisons *)

(** The IEEE relation of [b] and [a] is the converse of that of [a] and
    [b]. *)
Lemma SFcompare_antisym (a b : spec_float) :
  SFcompare b a = match SFcompare a b with
                  | Some c => Some (CompOpp c)
                  | None => None
                  end.
Proof.
  destruct a as [s1|s1| |s1 m1 e1], b as [s2|s2| |s2 m2 e2]; simpl;
    try (destruct s1); try (destruct s2); try reflexivity;
    f_equal; rewrite (Z.compare_antisym e1 e2);
    change (Pos.compare_cont Eq m2 m1) with (Pos.compare m2 m1);
    change (Pos.compare_cont Eq m1 m2) with (Pos.compare m1 m2);
    rewrite (Pos.compare_antisym m1 m2);
    destruct (e1 ?= e2)%Z; destruct (m1 ?= m2)%positive; reflexivity.
Qed.

Lemma Float64_eq_ieee (a b : Float64.t) : Float64.eq a b = true <-> ieee_holds EQ a b.
Proof.
  unfold Float64.eq, SFeqb, ieee_holds.
  destruct (SFcompare a b) as [[| |]|]; split; intros H;
    try reflexivity; try discriminate.
Qed.

Lemma Float64_ne_ieee (a b : Float64.t) : Float64.ne a b = true <-> ieee_holds NE a b.
Proof.
  unfold Float64.ne, SFeqb, ieee_holds.
  destruct (SFcompare a b) as [[| |]|]; simpl; split; intros H;
    try reflexivity; try discriminate; try (intros H'; discriminate);
    exfalso; apply H; reflexivity.
Qed.

Lemma Float64_lt_ieee (a b : Float64.t) : Float64.lt a b = true <-> ieee_holds LT a b.
Proof.
  unfold Float64.lt, SFltb, ieee_holds.
  destruct (SFcompare a b) as [[| |]|]; split; intros H;
    try reflexivity; try discriminate.
Qed.

Lemma Float64_gt_ieee (a b : Float64.t) : Float64.gt a b = true <-> ieee_holds GT a b.
Proof.
  unfold Float64.gt, SFltb, ieee_holds. rewrite (SFcompare_antisym a b).
  destruct (SFcompare a b) as [[| |]|]; simpl; split; intros H;
    try reflexivity; try discriminate.
Qed.

Lemma Float64_le_ieee (a b : Float64.t) : Float64.le a b = true <-> ieee_holds LE a b.
Proof.
  unfold Float64.le, SFleb, ieee_holds.
  destruct (SFcompare a b) as [[| |]|]; split; intros H;
    try reflexivity; try discriminate; auto;
    destruct H as [H|H]; discriminate.
Qed.

Lemma Float64_ge_ieee (a b : Float64.t) : Float64.ge a b = true <-> ieee_holds GE a b.
Proof.
  unfold Float64.ge, SFleb, ieee_holds. rewrite (SFcompare_antisym a b).
  destruct (SFcompare a b) as [[| |]|]; simpl; split; intros H;
    try reflexivity; try discriminate; auto;
    destruct H as [H|H]; discriminate.
Qed.

(** The order of the runtime is the lexicographic order. *)
Lemma N_of_ascii_inj (x y : ascii) : N_of_ascii x = N_of_ascii y -> x = y.
Proof.
  intros H. rewrite <- (ascii_N_embedding x), <- (ascii_N_embedding y), H.
  reflexivity.
Qed.

Lemma lex_lt_irrefl (s : string) : ~ lex_lt s s.
Proof.
  induction s as [|c s IH]; intros H; inversion H; subst.
  - lia.
  - apply IH; assumption.
Qed.

Lemma lex_lt_asym (s t : string) : lex_lt s t -> lex_lt t s -> False.
Proof.
  intros H. induction H as [c t|x y s t Hxy|x s t H IH]; intros H'; inversion H'; subst.
  - lia.
  - lia.
  - lia.
  - apply IH; assumption.
Qed.

Lemma cmpstring_spec (a : string) :
  forall b, match GoString.cmpstring a b with
            | Lt => lex_lt a b
            | Eq => a = b
            | Gt => lex_lt b a
            end.
Proof.
  induction a as [|x a IH]; intros [|y b]; simpl.
  - reflexivity.
  - constructor.
  - constructor.
  - destruct (N.compare_spec (N_of_ascii x) (N_of_ascii y)) as [E|L|G].
    + apply N_of_ascii_inj in E. subst y. specialize (IH b).
      destruct (GoString.cmpstring a b).
      * subst; reflexivity.
      * apply lex_lt_tail; assumption.
      * apply lex_lt_tail; assumption.
    + apply lex_lt_byte; assumption.
    + apply lex_lt_byte; assumption.
Qed.

Lemma cmpstring_Lt (a b : string) : GoString.cmpstring a b = Lt <-> lex_lt a b.
Proof.
  pose proof (cmpstring_spec a b) as H. split.
  - intros E. rewrite E in H. exact H.
  - intros L. destruct (GoString.cmpstring a b); [|reflexivity|].
    + subst. exfalso. eapply lex_lt_irrefl; eassumption.
    + exfalso. eapply lex_lt_asym; eassumption.
Qed.

Lemma cmpstring_Gt (a b : string) : GoString.cmpstring a b = Gt <-> lex_lt b a.
Proof.
  pose proof (cmpstring_spec a b) as H. split.
  - intros E. rewrite E in H. exact H.
  - intros L. destruct (GoString.cmpstring a b); [| |reflexivity].
    + subst. exfalso. eapply lex_lt_irrefl; eassumption.
    + exfalso. eapply lex_lt_asym; eassumption.
Qed.

Lemma cmpstring_Eq (a b : string) : GoString.cmpstring a b = Eq <-> a = b.
Proof.
  pose proof (cmpstring_spec a b) as H. split.
  - intros E. rewrite E in H. exact H.
  - intros ->. pose proof (cmpstring_spec b b) as H'.
    destruct (GoString.cmpstring b b); [reflexivity| |];
      exfalso; eapply lex_lt_irrefl; eassumption.
Qed.

Lemma GoString_ops_lex (o : CompareOp) (a b : string) :
  match o with
  | EQ => GoString.eq a b
  | NE => GoString.ne a b
  | LT => GoString.lt a b
  | GT => GoString.gt a b
  | LE => GoString.le a b
  | GE => GoString.ge a b
  end = true <-> lex_holds o a b.
Proof.
  pose proof (cmpstring_Lt a b) as HL. pose proof (cmpstring_Gt a b) as HG.
  pose proof (cmpstring_Eq a b) as HE.
  destruct o; simpl;
    unfold GoString.eq, GoString.ne, GoString.lt, GoString.gt, GoString.le, GoString.ge.
  - apply String.eqb_eq.
  - rewrite negb_true_iff. apply String.eqb_neq.
  - rewrite <- HL. destruct (GoString.cmpstring a b); split; congruence.
  - rewrite <- HG. destruct (GoString.cmpstring a b); split; congruence.
  - rewrite <- HL, <- HE. destruct (GoString.cmpstring a b); split; intros H;
      auto; try discriminate; destruct H; discriminate.
  - rewrite <- HG, <- HE. destruct (GoString.cmpstring a b); split; intros H;
      auto; try discriminate; destruct H; discriminate.
Qed.

Lemma Compare_Eval_unfold (St : Type) (FormatError : Position -> string -> string)
      (pos : Position) (Operator : string) (term : Term) (ctx : Context St)
      (lhs : any) (s : St) :
  Compare_Eval St FormatError (mkCompare pos Operator term) ctx lhs s
  = match Term_Eval St FormatError term ctx s with
    | (Err err, s') => (Err err, s')
    | (Panic msg, s') => (Panic msg, s')
    | (Ok rhs, s') => (Compare_dispatch pos Operator lhs rhs, s')
    end.
Proof. reflexivity. Qed.

(** C3.  When both operands are numbers, a comparison with any of the six
    operators returns the Boolean that the IEEE 754 double-precision
    relation of the two gives; when both are strings, the Boolean that the
    lexicographic order of their bytes gives. *)
Theorem compare_numbers_and_strings (St : Type)
        (FormatError : Position -> string -> string) (ctx : Context St)
        (pos : Position) (o : CompareOp) (term : Term) (s s' : St) :
  (forall a b : Float64.t,
      Term_Eval St FormatError term ctx s = (Ok (of_float64 b), s') ->
      exists r : bool,
        Compare_Eval St FormatError (mkCompare pos (op_text o) term) ctx (of_float64 a) s
        = (Ok (of_Boolean r), s')
        /\ (r = true <-> ieee_holds o a b))
  /\ (forall a b : string,
         Term_Eval St FormatError term ctx s = (Ok (of_string b), s') ->
         exists r : bool,
           Compare_Eval St FormatError (mkCompare pos (op_text o) term) ctx (of_string a) s
           = (Ok (of_Boolean r), s')
           /\ (r = true <-> lex_holds o a b)).
Proof.
  split; intros a b E; rewrite Compare_Eval_unfold, E.
  - destruct o; simpl; eexists; (split; [reflexivity|]).
    + apply Float64_eq_ieee.
    + apply Float64_ne_ieee.
    + apply Float64_lt_ieee.
    + apply Float64_gt_ieee.
    + apply Float64_le_ieee.
    + apply Float64_ge_ieee.
  - pose proof (GoString_ops_lex o a b) as H.
    destruct o; simpl; eexists; (split; [reflexivity|exact H]).
Qed.

(** [-1.234e9 == -1234000000] and ["a" < "bcd"], the right operands being
    literals. *)
Lemma compare_numbers_and_strings_witness :
  (exists r : bool,
      Compare_Eval Example.St Example.FormatError
        (mkCompare Example.p0 (op_text EQ) (Example.number (-1234000000)))
        Example.ctx (of_float64 (S754_finite true 5175771136000000 (-22))) []
      = (Ok (of_Boolean r), [])
      /\ (r = true <-> ieee_holds EQ (S754_finite true 5175771136000000 (-22))
                                     (Float64.of_Z (-1234000000))))
  /\ (exists r : bool,
         Compare_Eval Example.St Example.FormatError
           (mkCompare Example.p0 (op_text LT) (Example.text "bcd"))
           Example.ctx (of_string "a") []
         = (Ok (of_Boolean r), [])
         /\ (r = true <-> lex_holds LT "a" "bcd")).
Proof.
  split.
  - apply (proj1 (compare_numbers_and_strings Example.St Example.FormatError
                    Example.ctx Example.p0 EQ _ [] [])).
    reflexivity.
  - apply (proj2 (compare_numbers_and_strings Example.St Example.FormatError
                    Example.ctx Example.p0 LT _ [] [])).
    reflexivity.
Defined.

(** C4.  With a right operand that evaluates, a comparison fails in
    exactly three cases, and then with an error at the position of the
    [Compare] node: the variants of the two operands differ; both are
    Booleans and the operator is an ordering; the left operand is neither
    a number, a string nor a Boolean (the nil interface included).  In
    every other case it returns a Boolean, and whenever it returns a value
    the two operands are of one variant: nothing is coerced. *)
Theorem compare_type_errors (St : Type) (FormatError : Position -> string -> string)
        (ctx : Context St) (pos : Position) (o : CompareOp) (term : Term)
        (lhs rhs : any) (s s' : St) :
  Term_Eval St FormatError term ctx s = (Ok rhs, s') ->
  (ill_typed o lhs rhs = true ->
   exists msg : string,
     Compare_Eval St FormatError (mkCompare pos (op_text o) term) ctx lhs s
     = (Err (lexer_Error pos msg), s'))
  /\ (ill_typed o lhs rhs = false ->
      exists b : bool,
        Compare_Eval St FormatError (mkCompare pos (op_text o) term) ctx lhs s
        = (Ok (of_Boolean b), s'))
  /\ (forall v : any,
         Compare_Eval St FormatError (mkCompare pos (op_text o) term) ctx lhs s
         = (Ok v, s') ->
         variant lhs = variant rhs).
Proof.
  intros E. rewrite Compare_Eval_unfold, E.
  repeat split.
  - destruct o, lhs, rhs; simpl; intros H; try discriminate H; eexists; reflexivity.
  - destruct o, lhs, rhs; simpl; intros H; try discriminate H; eexists; reflexivity.
  - destruct o, lhs, rhs; simpl; intros v H; try reflexivity; discriminate H.
Qed.

(** ["asdf" > 1234], with the string on the left. *)
Lemma compare_type_errors_witness :
  exists msg : string,
    Compare_Eval Example.St Example.FormatError
      (mkCompare Example.p0 (op_text GT) (Example.number 1234))
      Example.ctx (of_string "asdf") []
    = (Err (lexer_Error Example.p0 msg), []).
Proof.
  apply (proj1 (compare_type_errors Example.St Example.FormatError Example.ctx
                  Example.p0 GT (Example.number 1234) (of_string "asdf")
                  (of_float64 (Float64.of_Z 1234)) [] [] eq_refl)).
  reflexivity.
Defined.

(** ** Identifiers *)

Lemma Term_Eval_Identifier (St : Type) (FormatError : Position -> string -> string)
      (pos : Position) (id : string_ptr) (sub : option Expression) (ctx : Context St) :
  Term_Eval St FormatError (mkTerm pos None (Some id) sub) ctx
  = Identifier_Eval St FormatError pos id ctx.
Proof. reflexivity. Qed.

(** What holds of an identifier under a context with an object: a failure
    of [GetByName] comes back as an error at the position of the term whose
    message is the text of the cause, and a value comes back through
    [castToInternal]. *)
Lemma Identifier_resolution (St : Type) (FormatError : Position -> string -> string)
      (pos : Position) (id : string_ptr) (sub : option Expression)
      (object : Gettable St) (s s' : St) (value : any) :
  (forall cause : error,
      object (deref id) s = ((value, Some cause), s') ->
      Term_Eval St FormatError (mkTerm pos None (Some id) sub)
        (mkContext St (Some object)) s
      = (Err (lexer_Error pos (error_Error FormatError cause)), s'))
  /\ (object (deref id) s = ((value, None), s') ->
      Term_Eval St FormatError (mkTerm pos None (Some id) sub)
        (mkContext St (Some object)) s
      = (Ok (castToInternal value), s')).
Proof.
  rewrite Term_Eval_Identifier. unfold Identifier_Eval. simpl.
  split; [intros cause E|intros E]; rewrite E; reflexivity.
Qed.

(** C5.  An identifier under a context without an object fails with an
    error at the position of the term, but the message of that error
    carries the address of the string that holds the name, not the name:
    [Term.Eval] passes the pointer [t.Identifier] to the format, not the
    string it points to.  So the test input [gender > 18] without an object,
    the name being stored at 0xc000010250, fails with "Identifier
    0xc000010250 on nil object", in which [gender] does not occur. *)
Theorem nil_object_error_omits_name
        (ParseFloat : string -> option Float64.t) (unquote : string -> option string)
        (new_string : Position -> N) (parse_error : string -> error)
        (St : Type) (FormatError : Position -> string -> string) (s : St)
        (f : Float64.t) :
  ParseFloat "18" = Some f ->
  new_string (mkPosition "" 0 1 1) = 824633786960%N ->
  (forall (pos : Position) (id : string_ptr) (sub : option Expression),
      Term_Eval St FormatError (mkTerm pos None (Some id) sub) (mkContext St None) s
      = (Err (lexer_Error pos
                ("Identifier " ++ HexString.of_N (addr id) ++ " on nil object")), s))
  /\ Eval St FormatError (Parser ParseFloat unquote new_string parse_error)
       "gender > 18" None s
     = (Err (lexer_Error (mkPosition "" 0 1 1) "Identifier 0xc000010250 on nil object"),
        s)
  /\ contains "gender" "Identifier 0xc000010250 on nil object" = false.
Proof.
  intros Hf Ha. split; [|split].
  - intros pos id sub. reflexivity.
  - unfold Eval, Parse, Parser.
    set (l := lexer.Lex myLexer "gender > 18"). vm_compute in l. subst l.
    cbn [Unquote lexer.Type_ List.length].
    change (parse_Expression ParseFloat new_string 4)
      with (parse_Expression_rule ParseFloat new_string
              (parse_Expression ParseFloat new_string 3)).
    set (sub := parse_Expression ParseFloat new_string 3).
    cbv beta iota zeta delta
        [parse_Expression_rule parse_OrCondition parse_ConditionOperand parse_Term
         parse_Compare parse_Value peek_pos literal caseInsensitive existsb
         lexer.Type_ lexer.Value lexer.Pos String.eqb Ascii.eqb Bool.eqb orb].
    rewrite Hf.
    cbv beta iota zeta delta
        [repetition literal caseInsensitive List.length
         lexer.Type_ lexer.Value lexer.Pos String.eqb Ascii.eqb Bool.eqb orb
         lexer.symbol_eqb EqualFold ToLower lexer.to_lower].
    cbn. rewrite Ha. reflexivity.
  - reflexivity.
Qed.

Lemma nil_object_error_omits_name_witness :
  Eval Example.St Example.FormatError
    (Parser (fun _ => Some (Float64.of_Z 18)) (fun q => Some q)
            (fun _ => 824633786960%N) (fun _ => errorString "syntax"))
    "gender > 18" None []
  = (Err (lexer_Error (mkPosition "" 0 1 1) "Identifier 0xc000010250 on nil object"),
     []).
Proof.
  apply (proj1 (proj2 (nil_object_error_omits_name
                         (fun _ => Some (Float64.of_Z 18)) (fun q => Some q)
                         (fun _ => 824633786960%N) (fun _ => errorString "syntax")
                         Example.St Example.FormatError [] (Float64.of_Z 18)
                         eq_refl eq_refl))).
Defined.

(** ** No value *)

(** C6.  [Eval] on the empty text returns the nil interface without an
    error, whatever the object (none included) and whatever the parser,
    which it does not call; the state of the host is untouched.  An
    [Expression] without children evaluates to the nil interface as well,
    and so does [EvalParsed] on it. *)
Theorem empty_input_is_no_value (St : Type) (FormatError : Position -> string -> string) :
  (forall (Parser_ParseString : string -> Expression + error)
          (obj : option (Gettable St)) (s : St),
      Eval St FormatError Parser_ParseString "" obj s = (Ok of_nil, s))
  /\ (forall (pos : Position) (ctx : Context St) (s : St),
         Expression_Eval St FormatError (mkExpression pos []) ctx s = (Ok of_nil, s))
  /\ (forall (pos : Position) (obj : option (Gettable St)) (s : St),
         EvalParsed St FormatError (mkExpression pos []) obj s = (Ok of_nil, s)).
Proof. repeat split. Qed.

(** ** Coercions *)

(** C9.  [castToInternal] turns a [bool] into a [Boolean] and every value
    of an integer type or of [float32] into the [float64] of its
    conversion; a [float64], a string and any other value it returns as it
    is.  [castToExternal] turns a [Boolean] into a [bool] and returns any
    other value, the nil interface included, as it is.  [EvalParsed]
    applies it to the value of the expression, once, and an identifier
    enters the evaluation through [castToInternal]. *)
Theorem coercions (St : Type) (FormatError : Position -> string -> string) :
  (forall b : bool, castToInternal (of_bool b) = of_Boolean b)
  /\ (forall v : any, host_numeric v = true ->
        exists f : Float64.t, castToInternal v = of_float64 f)
  /\ (forall n : Z,
        castToInternal (of_int n) = of_float64 (Float64.of_Z n)
        /\ castToInternal (of_int8 n) = of_float64 (Float64.of_Z n)
        /\ castToInternal (of_int16 n) = of_float64 (Float64.of_Z n)
        /\ castToInternal (of_int32 n) = of_float64 (Float64.of_Z n)
        /\ castToInternal (of_int64 n) = of_float64 (Float64.of_Z n)
        /\ castToInternal (of_uint n) = of_float64 (Float64.of_Z n)
        /\ castToInternal (of_uint8 n) = of_float64 (Float64.of_Z n)
        /\ castToInternal (of_uint16 n) = of_float64 (Float64.of_Z n)
        /\ castToInternal (of_uint32 n) = of_float64 (Float64.of_Z n)
        /\ castToInternal (of_uint64 n) = of_float64 (Float64.of_Z n))
  /\ (forall f : spec_float,
        castToInternal (of_float32 f) = of_float64 (Float64.of_float32 f)
        /\ castToInternal (of_float64 f) = of_float64 f)
  /\ (forall s : string, castToInternal (of_string s) = of_string s)
  /\ (forall v : any, host_numeric v = false -> (forall b, v <> of_bool b) ->
        castToInternal v = v)
  /\ (forall b : bool, castToExternal (of_Boolean b) = of_bool b)
  /\ (forall v : any, is_Boolean v = false -> castToExternal v = v)
  /\ castToExternal of_nil = of_nil
  /\ (forall (expr : Expression) (obj : option (Gettable St)) (s s' : St) (value : any),
        Expression_Eval St FormatError expr (mkContext St obj) s = (Ok value, s') ->
        EvalParsed St FormatError expr obj s = (Ok (castToExternal value), s'))
  /\ (forall (pos : Position) (id : string_ptr) (object : Gettable St)
             (s s' : St) (value : any),
        object (deref id) s = ((value, None), s') ->
        Term_Eval St FormatError (mkTerm pos None (Some id) None)
          (mkContext St (Some object)) s
        = (Ok (castToInternal value), s')).
Proof.
  repeat split.
  - intros v H. destruct v; try discriminate H; eexists; reflexivity.
  - intros v H Hb. destruct v; try discriminate H; try reflexivity.
    exfalso. eapply Hb. reflexivity.
  - intros v H. destruct v; try discriminate H; reflexivity.
  - intros expr obj s s' value E. unfold EvalParsed. rewrite E. reflexivity.
  - intros pos id object s s' value E.
    apply (proj2 (Identifier_resolution St FormatError pos id None object s s' value)).
    exact E.
Qed.

(** [age] on the example host is the [int] 22 and enters as a number;
    the Boolean that [t] evaluates to leaves [EvalParsed] as a [bool]. *)
Lemma coercions_witness :
  (exists f : Float64.t, castToInternal (of_int 22) = of_float64 f)
  /\ EvalParsed Example.St Example.FormatError
       (mkExpression Example.p0 [Example.cond "t"]) (Some Example.GetByName) []
     = (Ok (castToExternal (of_Boolean true)), ["t"]).
Proof.
  destruct (coercions Example.St Example.FormatError)
    as (_ & Hnum & _ & _ & _ & _ & _ & _ & _ & Hext & _).
  split.
  - apply Hnum. reflexivity.
  - apply Hext. reflexivity.
Defined.

(** ** Precedence *)


(** ** The tokenizer *)

Lemma take_drop_while (p : ascii -> bool) (s : string) :
  s = take_while p s ++ drop_while p s.
Proof.
  induction s as [|c s IH]; simpl; [reflexivity|].
  destruct (p c); simpl; [f_equal; exact IH|reflexivity].
Qed.

Lemma all_bytes_take_while (p : ascii -> bool) (s : string) :
  all_bytes p (take_while p s) = true.
Proof.
  induction s as [|c s IH]; simpl; [reflexivity|].
  destruct (p c) eqn:E; simpl; [rewrite E; exact IH|reflexivity].
Qed.

Lemma drop_while_all (p : ascii -> bool) (s : string) :
  all_bytes p s = true -> drop_while p s = EmptyString.
Proof.
  induction s as [|c s IH]; simpl; [reflexivity|].
  destruct (p c); simpl; [exact IH|discriminate].
Qed.

Lemma length_append (a b : string) :
  String.length (a ++ b) = String.length a + String.length b.
Proof. induction a as [|c a IH]; simpl; [reflexivity|]. rewrite IH. reflexivity. Qed.

Lemma substring_0_append (a b : string) :
  substring 0 (String.length a) (a ++ b) = a.
Proof. induction a as [|c a IH]; simpl; [destruct b; reflexivity|]. rewrite IH. reflexivity. Qed.

(** What a match consumed, from what it left. *)
Lemma consumed_append (a rest : string) : lexer.consumed (a ++ rest) rest = a.
Proof.
  unfold lexer.consumed. rewrite length_append.
  replace (String.length a + String.length rest - String.length rest)
    with (String.length a) by lia.
  apply substring_0_append.
Qed.

Lemma substring_split (n : nat) :
  forall s, s = substring 0 n s ++ lexer.substring_from n s.
Proof.
  induction n as [|n IH]; intros [|c s]; simpl; try reflexivity.
  f_equal. apply IH.
Qed.

(** A letter and its two cases. *)
Lemma to_lower_inv (c l : ascii) :
  lexer.lower l = true -> lexer.to_lower c = l -> c = l \/ c = lexer.to_upper l.
Proof.
  intros Hl <-. revert Hl.
  destruct c as [[|] [|] [|] [|] [|] [|] [|] [|]]; vm_compute; intros H;
    try discriminate H; auto.
Qed.

(** The star of a class of bytes, when what follows always matches: the
    longest run of bytes of the class is taken. *)
Lemma star_Byte_Some (p : ascii -> bool) (fuel : nat) :
  forall s, String.length s <= fuel ->
            lexer.star_loop (lexer.rmatch (lexer.Byte p)) (fun r => Some r) fuel s
            = Some (drop_while p s).
Proof.
  induction fuel as [|fuel IH]; intros [|c s] H; simpl in *; try reflexivity; try lia.
  destruct (p c); [|reflexivity].
  replace (String.length s <? Datatypes.S (String.length s))%nat with true
    by (symmetry; apply Nat.ltb_lt; lia).
  rewrite IH by lia. reflexivity.
Qed.

Lemma first_match_cons (name : option lexer.symbol) (r : lexer.regex)
      (d : lexer.Definition_) (b : string) :
  lexer.first_match ((name, r) :: d) b
  = match lexer.rmatch r b (fun rest => Some rest) with
    | Some rest => Some (name, rest)
    | None => lexer.first_match d b
    end.
Proof. reflexivity. Qed.

(** The alternative [Ident]. *)
Lemma rmatch_Ident (b : string) :
  lexer.rmatch re_Ident b (fun rest => Some rest)
  = match b with
    | String c b' => if ident_start c then Some (drop_while ident_part b') else None
    | EmptyString => None
    end.
Proof.
  destruct b as [|c b']; [reflexivity|].
  unfold re_Ident. cbn [lexer.rmatch].
  change (re_letter c) with (ident_start c).
  destruct (ident_start c); [|reflexivity].
  apply (star_Byte_Some re_word). lia.
Qed.

(** Blank space is not the start of an identifier. *)
Lemma rmatch_space_ident (c : ascii) (b : string) :
  ident_start c = true ->
  lexer.rmatch re_space (String c b) (fun rest => Some rest) = None.
Proof.
  intros H. unfold re_space, lexer.Plus. cbn [lexer.rmatch].
  replace (lexer.space c) with false; [reflexivity|].
  revert H. destruct c as [[|] [|] [|] [|] [|] [|] [|] [|]]; vm_compute; intros H;
    try discriminate H; reflexivity.
Qed.

(** The two cases of every letter of a word whose lower case is known. *)
Ltac letter_cases :=
  repeat match goal with
         | H : lexer.to_lower ?c = ?l |- _ =>
             apply (to_lower_inv c l eq_refl) in H; destruct H as [H|H]; subst c
         end.

(** A keyword, in whatever case and whatever follows it, is matched by
    its own alternative, which comes before that of the identifiers. *)
Lemma first_match_LogicOp (w rest : string) :
  ToLower w = "and" \/ ToLower w = "or" ->
  lexer.first_match myLexer (w ++ rest) = Some (Some lexer.LogicOp, rest).
Proof.
  intros [H|H].
  - destruct w as [|c1 [|c2 [|c3 [|c4 w]]]]; simpl in H; try discriminate H.
    injection H as H1 H2 H3. letter_cases; vm_compute; reflexivity.
  - destruct w as [|c1 [|c2 [|c3 w]]]; simpl in H; try discriminate H.
    injection H as H1 H2. letter_cases; vm_compute; reflexivity.
Qed.

Lemma first_match_Boolean (w rest : string) :
  ToLower w = "true" \/ ToLower w = "false" ->
  lexer.first_match myLexer (w ++ rest) = Some (Some lexer.Boolean, rest).
Proof.
  intros [H|H].
  - destruct w as [|c1 [|c2 [|c3 [|c4 [|c5 w]]]]]; simpl in H; try discriminate H.
    injection H as H1 H2 H3 H4. letter_cases; vm_compute; reflexivity.
  - destruct w as [|c1 [|c2 [|c3 [|c4 [|c5 [|c6 w]]]]]]; simpl in H; try discriminate H.
    injection H as H1 H2 H3 H4 H5. letter_cases; vm_compute; reflexivity.
Qed.

(** An input that starts with a keyword starts with one of its case
    variants. *)
Lemma keyword_prefix_split (b : string) :
  keyword_prefix b = true ->
  exists w rest, b = w ++ rest
                 /\ (ToLower w = "and" \/ ToLower w = "or"
                     \/ ToLower w = "true" \/ ToLower w = "false").
Proof.
  unfold keyword_prefix, keywords. cbn [existsb].
  intros H.
  repeat (apply orb_true_iff in H; destruct H as [H|H]); try discriminate H;
    apply String.eqb_eq in H;
    match type of H with
    | ToLower (substring 0 ?n b) = _ =>
        exists (substring 0 n b), (lexer.substring_from n b);
        split; [apply substring_split|tauto]
    end.
Qed.

(** The first token of an input that starts with a keyword is not an
    identifier. *)
Lemma keyword_prefix_not_Ident (b rest : string) :
  lexer.first_match myLexer b = Some (Some lexer.Ident, rest) ->
  keyword_prefix b = false.
Proof.
  intros H. destruct (keyword_prefix b) eqn:K; [|reflexivity].
  apply keyword_prefix_split in K. destruct K as (w & r & -> & [K|[K|[K|K]]]).
  - rewrite (first_match_LogicOp w r) in H by tauto. discriminate H.
  - rewrite (first_match_LogicOp w r) in H by tauto. discriminate H.
  - rewrite (first_match_Boolean w r) in H by tauto. discriminate H.
  - rewrite (first_match_Boolean w r) in H by tauto. discriminate H.
Qed.

(** The first token is an identifier only when the input starts with a
    letter or an underscore; the match is the longest run of letters,
    digits and underscores. *)
Lemma first_match_Ident_inv (b rest : string) :
  lexer.first_match myLexer b = Some (Some lexer.Ident, rest) ->
  exists c b', b = String c b' /\ ident_start c = true
               /\ rest = drop_while ident_part b'.
Proof.
  unfold myLexer. rewrite !first_match_cons.
  destruct (lexer.rmatch re_space b _); [discriminate|].
  destruct (lexer.rmatch re_LogicOp b _); [discriminate|].
  destruct (lexer.rmatch re_Boolean b _); [discriminate|].
  rewrite rmatch_Ident.
  assert (Hother : match lexer.rmatch re_Number b (fun r => Some r) with
                   | Some r => Some (Some lexer.Number, r)
                   | None =>
                       match lexer.rmatch re_String b (fun r => Some r) with
                       | Some r => Some (Some lexer.String_, r)
                       | None =>
                           match lexer.rmatch re_CompareOp b (fun r => Some r) with
                           | Some r => Some (Some lexer.CompareOp, r)
                           | None => None
                           end
                       end
                   end <> Some (Some lexer.Ident, rest)).
  { destruct (lexer.rmatch re_Number b _); [discriminate|].
    destruct (lexer.rmatch re_String b _); [discriminate|].
    destruct (lexer.rmatch re_CompareOp b _); discriminate. }
  destruct b as [|c b']; [intros H; elim (Hother H)|].
  destruct (ident_start c) eqn:E; [|intros H; elim (Hother H)].
  intros H. injection H as <-. exists c, b'. auto.
Qed.

Lemma is_ascii7_not_197 (c : ascii) :
  is_ascii7 c = true -> Ascii.eqb (ascii_of_N 197) c = false.
Proof.
  destruct c as [[|] [|] [|] [|] [|] [|] [|] [|]]; vm_compute; intros H;
    try discriminate H; reflexivity.
Qed.

Lemma is_ascii7_not_226 (c : ascii) :
  is_ascii7 c = true -> Ascii.eqb (ascii_of_N 226) c = false.
Proof.
  destruct c as [[|] [|] [|] [|] [|] [|] [|] [|]]; vm_compute; intros H;
    try discriminate H; reflexivity.
Qed.

Lemma ident_part_ascii7 (c : ascii) : ident_part c = true -> is_ascii7 c = true.
Proof.
  destruct c as [[|] [|] [|] [|] [|] [|] [|] [|]]; vm_compute; intros H;
    try discriminate H; reflexivity.
Qed.

Lemma ident_start_part (c : ascii) : ident_start c = true -> ident_part c = true.
Proof. unfold ident_part. intros ->. reflexivity. Qed.

Lemma all_bytes_impl (p q : ascii -> bool) (s : string) :
  (forall c, p c = true -> q c = true) -> all_bytes p s = true -> all_bytes q s = true.
Proof.
  intros Hpq. induction s as [|c s IH]; simpl; [reflexivity|].
  intros H. apply andb_true_iff in H. destruct H as [Hc Hs].
  rewrite (Hpq c Hc), (IH Hs). reflexivity.
Qed.

(** One letter under [(?i)] on a byte of ASCII. *)
Lemma rmatch_fold_byte_ascii {A : Type} (l c : ascii) (s : string)
      (k : string -> option A) :
  is_ascii7 c = true ->
  lexer.rmatch (lexer.fold_byte l) (String c s) k
  = if Ascii.eqb (lexer.to_lower c) (lexer.to_lower l) then k s else None.
Proof.
  intros Hc. unfold lexer.fold_byte.
  destruct (Ascii.eqb (lexer.to_lower l) "s");
    [|destruct (Ascii.eqb (lexer.to_lower l) "k")]; cbn [lexer.rmatch lexer.strip_prefix];
    try rewrite (is_ascii7_not_197 c Hc); try rewrite (is_ascii7_not_226 c Hc);
    destruct (Ascii.eqb (lexer.to_lower c) (lexer.to_lower l)); try reflexivity;
    destruct (k s); reflexivity.
Qed.

Lemma rmatch_fold_byte_empty {A : Type} (l : ascii) (k : string -> option A) :
  lexer.rmatch (lexer.fold_byte l) EmptyString k = None.
Proof.
  unfold lexer.fold_byte.
  destruct (Ascii.eqb (lexer.to_lower l) "s");
    [|destruct (Ascii.eqb (lexer.to_lower l) "k")]; reflexivity.
Qed.

(** A literal under [(?i)] on bytes of ASCII. *)
Lemma rmatch_fold_ascii {A : Type} (l : string) :
  forall (s : string) (k : string -> option A),
    all_bytes is_ascii7 s = true ->
    lexer.rmatch (lexer.fold l) s k
    = match fold_prefix l s with
      | Some rest => k rest
      | None => None
      end.
Proof.
  induction l as [|c l IH]; intros s k Hs.
  - reflexivity.
  - destruct l as [|c' l].
    + cbn [lexer.fold fold_prefix]. destruct s as [|d s].
      * apply rmatch_fold_byte_empty.
      * simpl in Hs. apply andb_true_iff in Hs. destruct Hs as [Hd Hs].
        rewrite (rmatch_fold_byte_ascii c d s k Hd).
        destruct (Ascii.eqb (lexer.to_lower d) (lexer.to_lower c)); reflexivity.
    + change (lexer.fold (String c (String c' l)))
        with (lexer.Cat (lexer.fold_byte c) (lexer.fold (String c' l))).
      cbn [lexer.rmatch]. destruct s as [|d s].
      * apply rmatch_fold_byte_empty.
      * simpl in Hs. apply andb_true_iff in Hs. destruct Hs as [Hd Hs].
        rewrite (rmatch_fold_byte_ascii c d s _ Hd).
        cbn [fold_prefix].
        destruct (Ascii.eqb (lexer.to_lower d) (lexer.to_lower c)); [|reflexivity].
        apply IH. exact Hs.
Qed.

Lemma fold_prefix_None (l : string) :
  forall s, String.eqb (ToLower (substring 0 (String.length l) s)) (ToLower l) = false ->
            fold_prefix l s = None.
Proof.
  induction l as [|c l IH]; intros [|d s]; simpl; intros H; try discriminate H;
    try reflexivity.
  destruct (Ascii.eqb (lexer.to_lower d) (lexer.to_lower c)); [|reflexivity].
  apply IH. exact H.
Qed.

(** On a name of letters, digits and underscores that does not start with
    a keyword, the two alternatives of the keywords do not match. *)
Lemma keyword_alternatives_fail (name : string) :
  all_bytes is_ascii7 name = true ->
  keyword_prefix name = false ->
  lexer.rmatch re_LogicOp name (fun rest => Some rest) = None
  /\ lexer.rmatch re_Boolean name (fun rest => Some rest) = None.
Proof.
  intros Ha K. unfold keyword_prefix, keywords in K. cbn [existsb] in K.
  repeat (apply orb_false_iff in K; destruct K as [?K K]).
  unfold re_LogicOp, re_Boolean. cbn [lexer.rmatch].
  rewrite !(rmatch_fold_ascii _ name _ Ha).
  rewrite (fold_prefix_None "AND" name K0), (fold_prefix_None "OR" name K1),
    (fold_prefix_None "true" name K2), (fold_prefix_None "false" name K3).
  split; reflexivity.
Qed.

Lemma consumed_all (b : string) : lexer.consumed b EmptyString = b.
Proof.
  rewrite <- (consumed_append b EmptyString) at 2.
  f_equal. induction b as [|c b IH]; simpl; [reflexivity|]. f_equal. exact IH.
Qed.

Lemma Lex_fuel_empty (d : lexer.Definition_) (fuel : nat) (pos : Position) :
  lexer.Lex_fuel d fuel pos EmptyString = inl [lexer.mkToken lexer.EOF "" pos].
Proof. destruct fuel; reflexivity. Qed.

(** A conventional name that does not start with a keyword is one
    [Ident] token, whose text is the name. *)
Lemma Lex_identifier (name : string) :
  ident_shape name = true ->
  keyword_prefix name = false ->
  lexer.Lex myLexer name
  = inl [lexer.mkToken lexer.Ident name (mkPosition "" 0 1 1);
         lexer.mkToken lexer.EOF "" (lexer.advance (mkPosition "" 0 1 1) name)].
Proof.
  intros Hshape K. destruct name as [|c n]; [discriminate Hshape|].
  simpl in Hshape. apply andb_true_iff in Hshape. destruct Hshape as [Hc Hn].
  assert (Ha : all_bytes is_ascii7 (String c n) = true).
  { simpl. rewrite (ident_part_ascii7 c (ident_start_part c Hc)).
    apply (all_bytes_impl ident_part); [exact ident_part_ascii7|exact Hn]. }
  destruct (keyword_alternatives_fail (String c n) Ha K) as [HL HB].
  assert (Hm : lexer.first_match myLexer (String c n) = Some (Some lexer.Ident, "")).
  { unfold myLexer. rewrite !first_match_cons.
    rewrite (rmatch_space_ident c n Hc), HL, HB, rmatch_Ident, Hc.
    rewrite (drop_while_all ident_part n Hn). reflexivity. }
  unfold lexer.Lex. cbn [String.length lexer.Lex_fuel]. rewrite Hm.
  rewrite consumed_all, Lex_fuel_empty. reflexivity.
Qed.

(** The keywords win inside a longer word too: [order] is the keyword
    [or] and the identifier [der]. *)
Lemma keyword_inside_a_name :
  match lexer.Lex myLexer "order" with
  | inl ts => kinds ts
  | inr _ => []
  end = [(lexer.LogicOp, "or"); (lexer.Ident, "der"); (lexer.EOF, "")].
Proof. vm_compute. reflexivity. Qed.

(** The keywords [AND] and [OR] and the literals [true] and [false]
    are recognised in whatever case and before the identifiers: an input
    that starts with one of them, whatever follows, has it as its first
    token, of type [LogicOp] resp. [Boolean]; so [TRUE] is a Boolean
    literal and evaluates to [true] without any object.  A token of type
    [Ident] is a letter or an underscore followed by letters, digits and
    underscores, it is the text of the input as it stands, and the input
    does not start with a keyword there.  Every name of that shape that
    does not start with a keyword is one [Ident] token with the name as
    its text, and evaluating it asks the object for exactly that name, in
    the case it was written in. *)
Theorem keywords_first_and_plain_names :
  (forall w rest : string,
      ToLower w = "and" \/ ToLower w = "or" ->
      lexer.first_match myLexer (w ++ rest) = Some (Some lexer.LogicOp, rest))
  /\ (forall w rest : string,
         ToLower w = "true" \/ ToLower w = "false" ->
         lexer.first_match myLexer (w ++ rest) = Some (Some lexer.Boolean, rest))
  /\ lexer.Lex myLexer "TRUE"
     = inl [lexer.mkToken lexer.Boolean "TRUE" (mkPosition "" 0 1 1);
            lexer.mkToken lexer.EOF "" (mkPosition "" 4 1 5)]
  /\ (forall (ParseFloat : string -> option Float64.t)
             (unquote : string -> option string) (new_string : Position -> N)
             (parse_error : string -> error) (St : Type)
             (FormatError : Position -> string -> string)
             (obj : option (Gettable St)) (s : St),
         Eval St FormatError (Parser ParseFloat unquote new_string parse_error)
           "TRUE" obj s
         = (Ok (of_bool true), s))
  /\ (forall b rest : string,
         lexer.first_match myLexer b = Some (Some lexer.Ident, rest) ->
         ident_shape (lexer.consumed b rest) = true
         /\ b = lexer.consumed b rest ++ rest
         /\ keyword_prefix b = false)
  /\ (forall name : string,
         ident_shape name = true ->
         keyword_prefix name = false ->
         lexer.Lex myLexer name
         = inl [lexer.mkToken lexer.Ident name (mkPosition "" 0 1 1);
                lexer.mkToken lexer.EOF ""
                  (lexer.advance (mkPosition "" 0 1 1) name)])
  /\ (forall (ParseFloat : string -> option Float64.t)
             (unquote : string -> option string) (new_string : Position -> N)
             (parse_error : string -> error) (St : Type)
             (FormatError : Position -> string -> string)
             (object : Gettable St) (s : St) (name : string),
         ident_shape name = true ->
         keyword_prefix name = false ->
         Eval St FormatError (Parser ParseFloat unquote new_string parse_error)
           name (Some object) s
         = match object name s with
           | ((_, Some err), s') =>
               (Err (lexer_Error (mkPosition "" 0 1 1) (error_Error FormatError err)),
                s')
           | ((value, None), s') => (Ok (castToExternal (castToInternal value)), s')
           end).
Proof.
  split; [exact first_match_LogicOp|].
  split; [exact first_match_Boolean|].
  split; [vm_compute; reflexivity|].
  split; [intros; vm_compute; reflexivity|].
  split; [|split].
  - intros b rest H. pose proof (keyword_prefix_not_Ident b rest H) as K.
    apply first_match_Ident_inv in H. destruct H as (c & b' & -> & Hc & ->).
    assert (E : String c b'
                = String c (take_while ident_part b') ++ drop_while ident_part b').
    { simpl. f_equal. apply take_drop_while. }
    assert (C : lexer.consumed (String c b') (drop_while ident_part b')
                = String c (take_while ident_part b')).
    { rewrite E at 1. apply consumed_append. }
    rewrite C. split; [|split].
    + simpl. rewrite Hc. apply all_bytes_take_while.
    + exact E.
    + exact K.
  - exact Lex_identifier.
  - intros ParseFloat unquote new_string parse_error St FormatError object s name Hs K.
    unfold Eval, Parse, Parser. rewrite (Lex_identifier name Hs K).
    destruct name as [|c n]; [discriminate Hs|].
    destruct (object (String c n) s) as [[value [err|]] s'] eqn:E.
    + cbn [Unquote lexer.Type_ List.length String.length Nat.eqb].
      change (parse_Expression ParseFloat new_string 2)
        with (parse_Expression_rule ParseFloat new_string
                (parse_Expression ParseFloat new_string 1)).
      set (sub := parse_Expression ParseFloat new_string 1).
      cbv beta iota zeta delta
          [parse_Expression_rule parse_OrCondition parse_ConditionOperand parse_Term
           parse_Compare parse_Value peek_pos literal caseInsensitive existsb
           repetition List.length lexer.symbol_eqb
           lexer.Type_ lexer.Value lexer.Pos String.eqb Ascii.eqb Bool.eqb orb].
      cbv beta iota zeta delta
          [EvalParsed Expression_Eval Expression_Eval_body OrCondition_Eval
           OrCondition_Eval_body ConditionOperand_Eval Term_Eval Identifier_Eval
           Object deref List.length Nat.eqb].
      rewrite E. reflexivity.
    + cbn [Unquote lexer.Type_ List.length String.length Nat.eqb].
      change (parse_Expression ParseFloat new_string 2)
        with (parse_Expression_rule ParseFloat new_string
                (parse_Expression ParseFloat new_string 1)).
      set (sub := parse_Expression ParseFloat new_string 1).
      cbv beta iota zeta delta
          [parse_Expression_rule parse_OrCondition parse_ConditionOperand parse_Term
           parse_Compare parse_Value peek_pos literal caseInsensitive existsb
           repetition List.length lexer.symbol_eqb
           lexer.Type_ lexer.Value lexer.Pos String.eqb Ascii.eqb Bool.eqb orb].
      cbv beta iota zeta delta
          [EvalParsed Expression_Eval Expression_Eval_body OrCondition_Eval
           OrCondition_Eval_body ConditionOperand_Eval Term_Eval Identifier_Eval
           Object deref List.length Nat.eqb].
      rewrite E. reflexivity.
Qed.

(** [oR] before a space and a name; the token of [Moon44]; and [Moon44]
    on the example host, which is asked for [Moon44] and does not know
    it. *)
Lemma keywords_first_and_plain_names_example :
  lexer.first_match myLexer ("oR" ++ " x") = Some (Some lexer.LogicOp, " x")
  /\ lexer.Lex myLexer "Moon44"
     = inl [lexer.mkToken lexer.Ident "Moon44" (mkPosition "" 0 1 1);
            lexer.mkToken lexer.EOF ""
              (lexer.advance (mkPosition "" 0 1 1) "Moon44")]
  /\ Eval Example.St Example.FormatError
       (Parser (fun _ => None) (fun q => Some q) (fun _ => 0%N)
               (fun _ => errorString "syntax"))
       "Moon44" (Some Example.GetByName) []
     = match Example.GetByName "Moon44" [] with
       | ((_, Some err), s') =>
           (Err (lexer_Error (mkPosition "" 0 1 1)
                   (error_Error Example.FormatError err)), s')
       | ((value, None), s') => (Ok (castToExternal (castToInternal value)), s')
       end.
Proof.
  destruct keywords_first_and_plain_names as (HL & _ & _ & _ & _ & Hlex & Heval).
  split; [|split].
  - apply HL. right. reflexivity.
  - apply Hlex; reflexivity.
  - apply Heval; reflexivity.
Defined.

(** * Further properties *)

(** ** The type of what a logical node and a comparison return *)

Lemma Compare_dispatch_Boolean (pos : Position) (op : string) (lhs rhs v : any) :
  Compare_dispatch pos op lhs rhs = Ok v -> is_Boolean v = true.
Proof.
  unfold Compare_dispatch.
  destruct lhs; try discriminate; destruct rhs; try discriminate;
    repeat match goal with
           | |- context [if ?b then _ else _] => destruct b
           end;
    intros H; try discriminate H; injection H as <-; reflexivity.
Qed.

Section LoopTypes.
Variable St : Type.
Variable FormatError : Position -> string -> string.
Variable X : Type.
Variable Eval_ : X -> Evaluable St.
Variable ctx : Context St.
Variable pos : Position.

Lemma or_range_Boolean (l : list X) :
  forall (lhs v : any) (s s' : St),
    l <> [] ->
    Expression_Eval_range St FormatError X Eval_ ctx pos lhs l s = (Ok v, s') ->
    is_Boolean v = true.
Proof.
  induction l as [|c l IH]; intros lhs v s s' Hne H; [congruence|].
  simpl in H. unfold evaluateBooleans in H.
  destruct (Eval_ c ctx s) as [[rhs|err|msg] s1]; try discriminate H.
  destruct lhs; try discriminate H. destruct rhs; try discriminate H.
  destruct b.
  - injection H as <- _. reflexivity.
  - destruct l as [|c' l].
    + simpl in H. injection H as <- _. reflexivity.
    + eapply IH; [discriminate|exact H].
Qed.

Lemma and_range_Boolean (l : list X) :
  forall (lhs v : any) (s s' : St),
    l <> [] ->
    OrCondition_Eval_range St FormatError X Eval_ ctx pos lhs l s = (Ok v, s') ->
    is_Boolean v = true.
Proof.
  induction l as [|c l IH]; intros lhs v s s' Hne H; [congruence|].
  simpl in H. unfold evaluateBooleans in H.
  destruct (Eval_ c ctx s) as [[rhs|err|msg] s1]; try discriminate H.
  destruct lhs; try discriminate H. destruct rhs; try discriminate H.
  destruct b.
  - destruct l as [|c' l].
    + simpl in H. injection H as <- _. reflexivity.
    + eapply IH; [discriminate|exact H].
  - injection H as <- _. reflexivity.
Qed.

Lemma Expression_body_Boolean (l : list X) (v : any) (s s' : St) :
  2 <= List.length l ->
  Expression_Eval_body St FormatError X Eval_ pos l ctx s = (Ok v, s') ->
  is_Boolean v = true.
Proof.
  destruct l as [|c0 [|c1 l]]; simpl List.length; try lia. intros _.
  unfold Expression_Eval_body.
  destruct (Eval_ c0 ctx s) as [[lhs|err|msg] s1]; try discriminate.
  destruct l as [|c2 l].
  - cbn [List.length Nat.eqb andb negb].
    destruct lhs as [| | | | | | | | | | | | | | |[|]|];
      try (apply or_range_Boolean; discriminate).
    intros H. injection H as <- _. reflexivity.
  - apply or_range_Boolean. discriminate.
Qed.

Lemma OrCondition_body_Boolean (l : list X) (v : any) (s s' : St) :
  2 <= List.length l ->
  OrCondition_Eval_body St FormatError X Eval_ pos l ctx s = (Ok v, s') ->
  is_Boolean v = true.
Proof.
  destruct l as [|c0 [|c1 l]]; simpl List.length; try lia. intros _.
  unfold OrCondition_Eval_body.
  destruct (Eval_ c0 ctx s) as [[lhs|err|msg] s1]; try discriminate.
  destruct l as [|c2 l].
  - cbn [List.length Nat.eqb andb negb].
    destruct lhs as [| | | | | | | | | | | | | | |[|]|];
      try (apply and_range_Boolean; discriminate).
    intros H. injection H as <- _. reflexivity.
  - apply and_range_Boolean. discriminate.
Qed.
End LoopTypes.

Lemma ConditionOperand_Compare_Boolean (St : Type)
      (FormatError : Position -> string -> string) (ctx : Context St)
      (pos : Position) (t : Term) (c : Compare) (v : any) (s s' : St) :
  ConditionOperand_Eval St FormatError (mkConditionOperand pos t (Some c)) ctx s
  = (Ok v, s') ->
  is_Boolean v = true.
Proof.
  destruct c as [cpos op t2]. simpl.
  destruct (Term_Eval St FormatError t ctx s) as [[lhs|err|msg] s1]; try discriminate.
  destruct (Term_Eval St FormatError t2 ctx s1) as [[rhs|err|msg] s2]; try discriminate.
  intros H. injection H as H _. eapply Compare_dispatch_Boolean; exact H.
Qed.

Lemma nary_results_are_Booleans (St : Type)
      (FormatError : Position -> string -> string) (ctx : Context St)
      (v : any) (s s' : St) :
  (forall (pos : Position) (l : list OrCondition),
      2 <= List.length l ->
      Expression_Eval St FormatError (mkExpression pos l) ctx s = (Ok v, s') ->
      is_Boolean v = true)
  /\ (forall (pos : Position) (l : list ConditionOperand),
         2 <= List.length l ->
         OrCondition_Eval St FormatError (mkOrCondition pos l) ctx s = (Ok v, s') ->
         is_Boolean v = true).
Proof.
  split.
  - intros pos l Hl. rewrite Expression_Eval_unfold. apply Expression_body_Boolean, Hl.
  - intros pos l Hl. rewrite OrCondition_Eval_unfold. apply OrCondition_body_Boolean, Hl.
Qed.

(** X1.  Whatever the tree and the host: a value returned by an [Expression]
    or an [OrCondition] with two or more children, or by an operand with a
    [Compare], is a Boolean.  Only a node with a single child hands a
    value of another type through. *)
Theorem logical_results_are_Booleans (St : Type)
        (FormatError : Position -> string -> string) (ctx : Context St)
        (v : any) (s s' : St) :
  (forall (pos : Position) (l : list OrCondition),
      2 <= List.length l ->
      Expression_Eval St FormatError (mkExpression pos l) ctx s = (Ok v, s') ->
      is_Boolean v = true)
  /\ (forall (pos : Position) (l : list ConditionOperand),
         2 <= List.length l ->
         OrCondition_Eval St FormatError (mkOrCondition pos l) ctx s = (Ok v, s') ->
         is_Boolean v = true)
  /\ (forall (pos : Position) (t : Term) (c : Compare),
         ConditionOperand_Eval St FormatError (mkConditionOperand pos t (Some c)) ctx s
         = (Ok v, s') ->
         is_Boolean v = true).
Proof.
  destruct (nary_results_are_Booleans St FormatError ctx v s s') as [HE HO].
  split; [exact HE|split; [exact HO|]].
  intros pos t c. apply ConditionOperand_Compare_Boolean.
Qed.

(** [gender == "male" OR t] on the example host. *)
Lemma logical_results_are_Booleans_witness :
  is_Boolean (of_Boolean true) = true.
Proof.
  apply (proj1 (logical_results_are_Booleans Example.St Example.FormatError
                  Example.ctx (of_Boolean true) [] ["gender"])
           Example.p0
           [mkOrCondition Example.p0
              [mkConditionOperand Example.p0 (Example.ident "gender")
                 (Some (mkCompare Example.p0 "==" (Example.text "male")))];
            Example.cond "t"]).
  - simpl. lia.
  - reflexivity.
Defined.

(** ** Logical nodes on Booleans without effects *)

Section LoopPure.
Variable St : Type.
Variable FormatError : Position -> string -> string.
Variable X : Type.
Variable Eval_ : X -> Evaluable St.
Variable ctx : Context St.
Variable pos : Position.
Variable val : X -> bool.

Lemma or_range_pure (l : list X) :
  forall (a : bool) (s : St),
    (forall c, In c l -> forall s, Eval_ c ctx s = (Ok (of_Boolean (val c)), s)) ->
    Expression_Eval_range St FormatError X Eval_ ctx pos (of_Boolean a) l s
    = (Ok (of_Boolean (a || existsb val l)), s).
Proof.
  induction l as [|c l IH]; intros a s H.
  - simpl. rewrite orb_false_r. reflexivity.
  - rewrite (or_range_step St FormatError X Eval_ ctx pos a (val c) c l s s
               (H c (or_introl eq_refl) s)).
    destruct a; [reflexivity|].
    rewrite IH by (intros c' Hc'; apply H; right; exact Hc'). reflexivity.
Qed.

Lemma and_range_pure (l : list X) :
  forall (a : bool) (s : St),
    (forall c, In c l -> forall s, Eval_ c ctx s = (Ok (of_Boolean (val c)), s)) ->
    OrCondition_Eval_range St FormatError X Eval_ ctx pos (of_Boolean a) l s
    = (Ok (of_Boolean (a && forallb val l)), s).
Proof.
  induction l as [|c l IH]; intros a s H.
  - simpl. rewrite andb_true_r. reflexivity.
  - rewrite (and_range_step St FormatError X Eval_ ctx pos a (val c) c l s s
               (H c (or_introl eq_refl) s)).
    destruct a; [|reflexivity].
    rewrite IH by (intros c' Hc'; apply H; right; exact Hc'). reflexivity.
Qed.

Lemma Expression_body_pure (l : list X) (s : St) :
  l <> [] ->
  (forall c, In c l -> forall s, Eval_ c ctx s = (Ok (of_Boolean (val c)), s)) ->
  Expression_Eval_body St FormatError X Eval_ pos l ctx s
  = (Ok (of_Boolean (existsb val l)), s).
Proof.
  intros Hne H. destruct l as [|c0 l]; [congruence|].
  unfold Expression_Eval_body. rewrite (H c0 (or_introl eq_refl) s).
  destruct l as [|c1 l].
  - simpl. rewrite orb_false_r. reflexivity.
  - assert (Hl : forall c, In c (c1 :: l) ->
                           forall s, Eval_ c ctx s = (Ok (of_Boolean (val c)), s))
      by (intros c Hc; apply H; right; exact Hc).
    pose proof (or_range_pure (c1 :: l) (val c0) s Hl) as R.
    destruct l as [|c2 l]; [|exact R].
    simpl List.length. simpl Nat.eqb. simpl andb.
    change (existsb val [c0; c1]) with (val c0 || existsb val [c1]).
    destruct (val c0); [reflexivity|exact R].
Qed.

Lemma OrCondition_body_pure (l : list X) (s : St) :
  l <> [] ->
  (forall c, In c l -> forall s, Eval_ c ctx s = (Ok (of_Boolean (val c)), s)) ->
  OrCondition_Eval_body St FormatError X Eval_ pos l ctx s
  = (Ok (of_Boolean (forallb val l)), s).
Proof.
  intros Hne H. destruct l as [|c0 l]; [congruence|].
  unfold OrCondition_Eval_body. rewrite (H c0 (or_introl eq_refl) s).
  destruct l as [|c1 l].
  - simpl. rewrite andb_true_r. reflexivity.
  - assert (Hl : forall c, In c (c1 :: l) ->
                           forall s, Eval_ c ctx s = (Ok (of_Boolean (val c)), s))
      by (intros c Hc; apply H; right; exact Hc).
    pose proof (and_range_pure (c1 :: l) (val c0) s Hl) as R.
    destruct l as [|c2 l]; [|exact R].
    simpl List.length. simpl Nat.eqb. simpl andb.
    change (forallb val [c0; c1]) with (val c0 && forallb val [c1]).
    destruct (val c0); [exact R|reflexivity].
Qed.
End LoopPure.

(** X2.  On children that return Booleans and leave the host as it is, an
    [Expression] returns their disjunction and an [OrCondition] their
    conjunction, whatever the number of children: the one-operand-ahead
    evaluation and the two-operand short-circuit do not show in the
    value. *)
Theorem logical_nodes_on_pure_Booleans (St : Type)
        (FormatError : Position -> string -> string) (ctx : Context St)
        (pos : Position) (s : St) :
  (forall (l : list OrCondition) (val : OrCondition -> bool),
      l <> [] ->
      (forall c, In c l ->
                 forall s, OrCondition_Eval St FormatError c ctx s
                           = (Ok (of_Boolean (val c)), s)) ->
      Expression_Eval St FormatError (mkExpression pos l) ctx s
      = (Ok (of_Boolean (existsb val l)), s))
  /\ (forall (l : list ConditionOperand) (val : ConditionOperand -> bool),
         l <> [] ->
         (forall c, In c l ->
                    forall s, ConditionOperand_Eval St FormatError c ctx s
                              = (Ok (of_Boolean (val c)), s)) ->
         OrCondition_Eval St FormatError (mkOrCondition pos l) ctx s
         = (Ok (of_Boolean (forallb val l)), s)).
Proof.
  split; intros l val Hne H.
  - rewrite Expression_Eval_unfold. apply Expression_body_pure; assumption.
  - rewrite OrCondition_Eval_unfold. apply OrCondition_body_pure; assumption.
Qed.

(** [true AND false AND true] as literals. *)
Lemma logical_nodes_on_pure_Booleans_witness :
  OrCondition_Eval Example.St Example.FormatError
    (mkOrCondition Example.p0
       [Boolean_operand Example.p0 true; Boolean_operand Example.p0 false;
        Boolean_operand Example.p0 true])
    Example.ctx []
  = (Ok (of_Boolean (forallb literal_value
                       [Boolean_operand Example.p0 true;
                        Boolean_operand Example.p0 false;
                        Boolean_operand Example.p0 true])), []).
Proof.
  apply (proj2 (logical_nodes_on_pure_Booleans Example.St Example.FormatError
                  Example.ctx Example.p0 [])).
  - discriminate.
  - intros c [<-|[<-|[<-|[]]]] s; reflexivity.
Defined.

(** ** Parentheses *)

Lemma parenthesised_Eval (St : Type) (FormatError : Position -> string -> string)
      (p : Position * Position * Position * Position) (t : Term)
      (ctx : Context St) (s : St) :
  Term_Eval St FormatError (parenthesised p t) ctx s = Term_Eval St FormatError t ctx s.
Proof.
  destruct p as [[[p1 p2] p3] p4]. unfold parenthesised.
  change (Term_Eval St FormatError
            (mkTerm p1 None None
               (Some (mkExpression p2 [mkOrCondition p3 [mkConditionOperand p4 t None]])))
            ctx s)
    with (Expression_Eval_body St FormatError OrCondition
            (OrCondition_Eval St FormatError) p2
            [mkOrCondition p3 [mkConditionOperand p4 t None]] ctx s).
  unfold Expression_Eval_body. rewrite OrCondition_Eval_unfold.
  unfold OrCondition_Eval_body.
  change (ConditionOperand_Eval St FormatError (mkConditionOperand p4 t None) ctx s)
    with (match Term_Eval St FormatError t ctx s with
          | (Err err, s') => (Err err, s')
          | (Panic msg, s') => (Panic msg, s')
          | (Ok lhs, s') => (Ok lhs, s')
          end).
  destruct (Term_Eval St FormatError t ctx s) as [[v|err|msg] s1]; reflexivity.
Qed.

(** X3.  Parentheses are transparent at any depth: a term wrapped in any
    number of them evaluates as the term itself, with the same value of
    whatever type, the same error at the same position, the same panic,
    and the same effect on the host. *)
Theorem parentheses_are_transparent (St : Type)
        (FormatError : Position -> string -> string)
        (ps : list (Position * Position * Position * Position)) (t : Term)
        (ctx : Context St) (s : St) :
  Term_Eval St FormatError (fold_right parenthesised t ps) ctx s
  = Term_Eval St FormatError t ctx s.
Proof.
  induction ps as [|p ps IH]; [reflexivity|].
  simpl fold_right. rewrite parenthesised_Eval. exact IH.
Qed.

(** ** One step of the loops, by the outcome of the child *)

Section LoopSteps.
Variable St : Type.
Variable FormatError : Position -> string -> string.
Variable X : Type.
Variable Eval_ : X -> Evaluable St.
Variable ctx : Context St.
Variable pos : Position.

Lemma or_range_cons (lhs : any) (c : X) (l : list X) (s : St) :
  Expression_Eval_range St FormatError X Eval_ ctx pos lhs (c :: l) s
  = match Eval_ c ctx s with
    | (Err err, s') => (Err (lexer_Error pos (error_Error FormatError err)), s')
    | (Panic msg, s') => (Panic msg, s')
    | (Ok rhs, s') =>
        match lhs with
        | of_Boolean a =>
            match rhs with
            | of_Boolean b =>
                if a then (Ok lhs, s')
                else Expression_Eval_range St FormatError X Eval_ ctx pos
                       (of_Boolean (a || b)) l s'
            | _ => (Err (lexer_Error pos "rhs must be boolean"), s')
            end
        | _ => (Err (lexer_Error pos "lhs must be boolean"), s')
        end
    end.
Proof.
  simpl. unfold evaluateBooleans.
  destruct (Eval_ c ctx s) as [[rhs|err|msg] s1]; try reflexivity.
  destruct lhs; try reflexivity; destruct rhs; reflexivity.
Qed.

Lemma and_range_cons (lhs : any) (c : X) (l : list X) (s : St) :
  OrCondition_Eval_range St FormatError X Eval_ ctx pos lhs (c :: l) s
  = match Eval_ c ctx s with
    | (Err err, s') => (Err (lexer_Error pos (error_Error FormatError err)), s')
    | (Panic msg, s') => (Panic msg, s')
    | (Ok rhs, s') =>
        match lhs with
        | of_Boolean a =>
            match rhs with
            | of_Boolean b =>
                if negb a then (Ok lhs, s')
                else OrCondition_Eval_range St FormatError X Eval_ ctx pos
                       (of_Boolean (a && b)) l s'
            | _ => (Err (lexer_Error pos "rhs must be boolean"), s')
            end
        | _ => (Err (lexer_Error pos "lhs must be boolean"), s')
        end
    end.
Proof.
  simpl. unfold evaluateBooleans.
  destruct (Eval_ c ctx s) as [[rhs|err|msg] s1]; try reflexivity.
  destruct lhs; try reflexivity; destruct rhs; reflexivity.
Qed.
End LoopSteps.

Lemma Forall_forallb_impl (A : Type) (f : A -> bool) (P : A -> Prop) (l : list A) :
  Forall (fun x => f x = true -> P x) l -> forallb f l = true -> Forall P l.
Proof.
  induction 1 as [|x l Hx Hl IH]; intros H; [constructor|].
  simpl in H. apply andb_prop in H as [H1 H2]. constructor; auto.
Qed.

Lemma ConditionOperand_Eval_unfold (St : Type)
      (FormatError : Position -> string -> string) (pos : Position) (t : Term)
      (cmp : option Compare) (ctx : Context St) (s : St) :
  ConditionOperand_Eval St FormatError (mkConditionOperand pos t cmp) ctx s
  = match Term_Eval St FormatError t ctx s with
    | (Err err, s') => (Err err, s')
    | (Panic msg, s') => (Panic msg, s')
    | (Ok lhs, s') =>
        match cmp with
        | None => (Ok lhs, s')
        | Some c' => Compare_Eval St FormatError c' ctx lhs s'
        end
    end.
Proof. reflexivity. Qed.

Lemma Term_Eval_unfold (St : Type) (FormatError : Position -> string -> string)
      (pos : Position) (v : option Value) (id : option string_ptr)
      (sub : option Expression) (ctx : Context St) :
  Term_Eval St FormatError (mkTerm pos v id sub) ctx
  = match v with
    | Some v' => Value_Eval St v' ctx
    | None =>
        match id with
        | Some id' => Identifier_Eval St FormatError pos id' ctx
        | None =>
            match sub with
            | Some e => Expression_Eval St FormatError e ctx
            | None => panic St "unsupported term type"
            end
        end
    end.
Proof. reflexivity. Qed.

(** ** Trees without identifiers *)

Section Constant.
Variable St : Type.
Variable FormatError : Position -> string -> string.

Section ConstantLoops.
Variable X : Type.
Variable Eval_ : X -> Evaluable St.
Variable pos : Position.

Lemma or_range_constant (l : list X) :
  Forall (fun c => constant (Eval_ c)) l ->
  forall lhs,
    constant (fun ctx => Expression_Eval_range St FormatError X Eval_ ctx pos lhs l).
Proof.
  induction 1 as [|c l [rc Hc] Hl IH]; intros lhs.
  - exists (Ok lhs). reflexivity.
  - destruct rc as [rhs|err|msg];
      try (eexists; intros ctx st; cbv beta; rewrite or_range_cons, Hc; reflexivity).
    destruct lhs as [| | | | | | | | | | | | | | |a|];
      try (eexists; intros ctx st; cbv beta; rewrite or_range_cons, Hc; reflexivity).
    destruct rhs as [| | | | | | | | | | | | | | |b|];
      try (eexists; intros ctx st; cbv beta; rewrite or_range_cons, Hc; reflexivity).
    destruct a.
    + eexists; intros ctx st; cbv beta; rewrite or_range_cons, Hc; reflexivity.
    + destruct (IH (of_Boolean (false || b))) as [r Hr]. exists r.
      intros ctx st. cbv beta. rewrite or_range_cons, Hc. apply Hr.
Qed.

Lemma and_range_constant (l : list X) :
  Forall (fun c => constant (Eval_ c)) l ->
  forall lhs,
    constant (fun ctx => OrCondition_Eval_range St FormatError X Eval_ ctx pos lhs l).
Proof.
  induction 1 as [|c l [rc Hc] Hl IH]; intros lhs.
  - exists (Ok lhs). reflexivity.
  - destruct rc as [rhs|err|msg];
      try (eexists; intros ctx st; cbv beta; rewrite and_range_cons, Hc; reflexivity).
    destruct lhs as [| | | | | | | | | | | | | | |a|];
      try (eexists; intros ctx st; cbv beta; rewrite and_range_cons, Hc; reflexivity).
    destruct rhs as [| | | | | | | | | | | | | | |b|];
      try (eexists; intros ctx st; cbv beta; rewrite and_range_cons, Hc; reflexivity).
    destruct a.
    + destruct (IH (of_Boolean (true && b))) as [r Hr]. exists r.
      intros ctx st. cbv beta. rewrite and_range_cons, Hc. apply Hr.
    + eexists; intros ctx st; cbv beta; rewrite and_range_cons, Hc; reflexivity.
Qed.

Lemma Expression_body_constant (l : list X) :
  Forall (fun c => constant (Eval_ c)) l ->
  constant (Expression_Eval_body St FormatError X Eval_ pos l).
Proof.
  intros H. destruct l as [|c0 rest].
  - exists (Ok of_nil). reflexivity.
  - inversion H as [|? ? [rc Hc] Hrest]; subst.
    destruct rc as [lhs|err|msg];
      try (eexists; intros ctx s; unfold Expression_Eval_body; rewrite Hc; reflexivity).
    destruct rest as [|c1 rest].
    + exists (Ok lhs). intros ctx s. unfold Expression_Eval_body. rewrite Hc. reflexivity.
    + destruct (or_range_constant (c1 :: rest) Hrest lhs) as [r Hr].
      exists (if (List.length (c0 :: c1 :: rest) =? 2)%nat
                 && match lhs with of_Boolean lhsBool => lhsBool | _ => false end
              then Ok lhs else r).
      intros ctx s. unfold Expression_Eval_body. rewrite Hc.
      change (List.length (c0 :: c1 :: rest) =? 1)%nat with false. cbv iota.
      destruct ((List.length (c0 :: c1 :: rest) =? 2)%nat
                && match lhs with of_Boolean lhsBool => lhsBool | _ => false end);
        [reflexivity|apply Hr].
Qed.

Lemma OrCondition_body_constant (l : list X) :
  Forall (fun c => constant (Eval_ c)) l ->
  constant (OrCondition_Eval_body St FormatError X Eval_ pos l).
Proof.
  intros H. destruct l as [|c0 rest].
  - exists (Ok of_nil). reflexivity.
  - inversion H as [|? ? [rc Hc] Hrest]; subst.
    destruct rc as [lhs|err|msg];
      try (eexists; intros ctx s; unfold OrCondition_Eval_body; rewrite Hc; reflexivity).
    destruct rest as [|c1 rest].
    + exists (Ok lhs). intros ctx s. unfold OrCondition_Eval_body. rewrite Hc. reflexivity.
    + destruct (and_range_constant (c1 :: rest) Hrest lhs) as [r Hr].
      exists (if (List.length (c0 :: c1 :: rest) =? 2)%nat
                 && match lhs with of_Boolean lhsBool => negb lhsBool | _ => false end
              then Ok lhs else r).
      intros ctx s. unfold OrCondition_Eval_body. rewrite Hc.
      change (List.length (c0 :: c1 :: rest) =? 1)%nat with false. cbv iota.
      destruct ((List.length (c0 :: c1 :: rest) =? 2)%nat
                && match lhs with of_Boolean lhsBool => negb lhsBool | _ => false end);
        [reflexivity|apply Hr].
Qed.
End ConstantLoops.

Lemma Value_Eval_constant (v : Value) : constant (Value_Eval St v).
Proof.
  unfold constant, Value_Eval.
  destruct (Number v); [eexists; reflexivity|].
  destruct (String_ v); [eexists; reflexivity|].
  destruct (Boolean v); eexists; reflexivity.
Qed.

Lemma closed_constant :
  forall e : Expression,
    Expression_closed e = true -> constant (Expression_Eval St FormatError e).
Proof.
  apply (Expression_tree_ind
           (fun e => Expression_closed e = true ->
                     constant (Expression_Eval St FormatError e))
           (fun o => OrCondition_closed o = true ->
                     constant (OrCondition_Eval St FormatError o))
           (fun c => ConditionOperand_closed c = true ->
                     constant (ConditionOperand_Eval St FormatError c))
           (fun c => Compare_closed c = true ->
                     forall lhs,
                       constant (fun ctx => Compare_Eval St FormatError c ctx lhs))
           (fun t => Term_closed t = true ->
                     constant (Term_Eval St FormatError t))).
  - intros pos l HF Hc.
    destruct (Expression_body_constant OrCondition (OrCondition_Eval St FormatError)
                pos l (Forall_forallb_impl _ _ _ _ HF Hc)) as [r Hr].
    exists r. intros ctx s. rewrite Expression_Eval_unfold. apply Hr.
  - intros pos l HF Hc.
    destruct (OrCondition_body_constant ConditionOperand
                (ConditionOperand_Eval St FormatError)
                pos l (Forall_forallb_impl _ _ _ _ HF Hc)) as [r Hr].
    exists r. intros ctx s. rewrite OrCondition_Eval_unfold. apply Hr.
  - intros pos t IHt Hc. simpl in Hc. apply andb_prop in Hc as [Ht _].
    destruct (IHt Ht) as [rt Hrt]. exists rt. intros ctx s.
    rewrite ConditionOperand_Eval_unfold, Hrt. destruct rt; reflexivity.
  - intros pos t c IHt IHc Hc. simpl in Hc. apply andb_prop in Hc as [Ht Hc].
    destruct (IHt Ht) as [rt Hrt].
    destruct rt as [lhs|err|msg].
    + destruct (IHc Hc lhs) as [r Hr]. exists r. intros ctx s.
      rewrite ConditionOperand_Eval_unfold, Hrt. apply Hr.
    + exists (Err err). intros ctx s. rewrite ConditionOperand_Eval_unfold, Hrt.
      reflexivity.
    + exists (Panic msg). intros ctx s. rewrite ConditionOperand_Eval_unfold, Hrt.
      reflexivity.
  - intros pos op t IHt Hc lhs. simpl in Hc.
    destruct (IHt Hc) as [rt Hrt].
    destruct rt as [rhs|err|msg]; eexists; intros ctx s;
      rewrite Compare_Eval_unfold, Hrt; reflexivity.
  - intros pos v id Hc. destruct v as [v|].
    + destruct (Value_Eval_constant v) as [r Hr]. exists r. intros ctx s.
      rewrite Term_Eval_unfold. apply Hr.
    + destruct id as [id|]; [discriminate Hc|].
      exists (Panic "unsupported term type"). reflexivity.
  - intros pos v id e IHe Hc. destruct v as [v|].
    + destruct (Value_Eval_constant v) as [r Hr]. exists r. intros ctx s.
      rewrite Term_Eval_unfold. apply Hr.
    + destruct id as [id|]; [discriminate Hc|].
      destruct (IHe Hc) as [r Hr]. exists r. intros ctx s.
      rewrite Term_Eval_unfold. apply Hr.
Qed.
End Constant.

(** ** Values that need no object *)

Section WithoutObject.
Variable St : Type.
Variable FormatError : Position -> string -> string.

Section WithoutObjectLoops.
Variable X : Type.
Variable Eval_ : X -> Evaluable St.
Variable pos : Position.

Lemma or_range_object_free (l : list X) :
  Forall (fun c => object_free (Eval_ c)) l ->
  forall lhs,
    object_free (fun ctx => Expression_Eval_range St FormatError X Eval_ ctx pos lhs l).
Proof.
  induction 1 as [|c l Hc Hl IH]; intros lhs s0 v s0' H ctx st; cbv beta in *.
  - injection H as <- _. reflexivity.
  - rewrite or_range_cons in H. rewrite or_range_cons.
    destruct (Eval_ c (mkContext St None) s0) as [[rhs|err|msg] s1] eqn:E;
      try discriminate H.
    rewrite (Hc s0 rhs s1 E ctx st).
    destruct lhs as [| | | | | | | | | | | | | | |a|]; try discriminate H.
    destruct rhs as [| | | | | | | | | | | | | | |b|]; try discriminate H.
    destruct a.
    + injection H as <- _. reflexivity.
    + apply (IH _ s1 v s0' H).
Qed.

Lemma and_range_object_free (l : list X) :
  Forall (fun c => object_free (Eval_ c)) l ->
  forall lhs,
    object_free (fun ctx => OrCondition_Eval_range St FormatError X Eval_ ctx pos lhs l).
Proof.
  induction 1 as [|c l Hc Hl IH]; intros lhs s0 v s0' H ctx st; cbv beta in *.
  - injection H as <- _. reflexivity.
  - rewrite and_range_cons in H. rewrite and_range_cons.
    destruct (Eval_ c (mkContext St None) s0) as [[rhs|err|msg] s1] eqn:E;
      try discriminate H.
    rewrite (Hc s0 rhs s1 E ctx st).
    destruct lhs as [| | | | | | | | | | | | | | |a|]; try discriminate H.
    destruct rhs as [| | | | | | | | | | | | | | |b|]; try discriminate H.
    destruct a.
    + apply (IH _ s1 v s0' H).
    + injection H as <- _. reflexivity.
Qed.

Lemma Expression_body_object_free (l : list X) :
  Forall (fun c => object_free (Eval_ c)) l ->
  object_free (Expression_Eval_body St FormatError X Eval_ pos l).
Proof.
  intros HF s0 v s0' H ctx st. destruct l as [|c0 rest].
  - injection H as <- _. reflexivity.
  - inversion HF as [|? ? Hc Hrest]; subst. unfold Expression_Eval_body in *.
    destruct (Eval_ c0 (mkContext St None) s0) as [[lhs|err|msg] s1] eqn:E;
      try discriminate H.
    rewrite (Hc s0 lhs s1 E ctx st).
    destruct (List.length (c0 :: rest) =? 1)%nat;
      [injection H as <- _; reflexivity|].
    destruct ((List.length (c0 :: rest) =? 2)%nat
              && match lhs with of_Boolean lhsBool => lhsBool | _ => false end);
      [injection H as <- _; reflexivity|].
    apply (or_range_object_free rest Hrest lhs s1 v s0' H).
Qed.

Lemma OrCondition_body_object_free (l : list X) :
  Forall (fun c => object_free (Eval_ c)) l ->
  object_free (OrCondition_Eval_body St FormatError X Eval_ pos l).
Proof.
  intros HF s0 v s0' H ctx st. destruct l as [|c0 rest].
  - injection H as <- _. reflexivity.
  - inversion HF as [|? ? Hc Hrest]; subst. unfold OrCondition_Eval_body in *.
    destruct (Eval_ c0 (mkContext St None) s0) as [[lhs|err|msg] s1] eqn:E;
      try discriminate H.
    rewrite (Hc s0 lhs s1 E ctx st).
    destruct (List.length (c0 :: rest) =? 1)%nat;
      [injection H as <- _; reflexivity|].
    destruct ((List.length (c0 :: rest) =? 2)%nat
              && match lhs with of_Boolean lhsBool => negb lhsBool | _ => false end);
      [injection H as <- _; reflexivity|].
    apply (and_range_object_free rest Hrest lhs s1 v s0' H).
Qed.
End WithoutObjectLoops.

Lemma Value_Eval_object_free (v : Value) : object_free (Value_Eval St v).
Proof.
  intros s0 x s0' H ctx st. unfold Value_Eval in *.
  destruct (Number v); [injection H as <- _; reflexivity|].
  destruct (String_ v); [injection H as <- _; reflexivity|].
  destruct (Boolean v); [injection H as <- _; reflexivity|discriminate H].
Qed.

Lemma Expression_Eval_object_free :
  forall e : Expression, object_free (Expression_Eval St FormatError e).
Proof.
  apply (Expression_tree_ind
           (fun e => object_free (Expression_Eval St FormatError e))
           (fun o => object_free (OrCondition_Eval St FormatError o))
           (fun c => object_free (ConditionOperand_Eval St FormatError c))
           (fun c => forall lhs,
                object_free (fun ctx => Compare_Eval St FormatError c ctx lhs))
           (fun t => object_free (Term_Eval St FormatError t))).
  - intros pos l HF s0 v s0' H ctx st. rewrite Expression_Eval_unfold in *.
    apply (Expression_body_object_free OrCondition _ pos l HF s0 v s0' H).
  - intros pos l HF s0 v s0' H ctx st. rewrite OrCondition_Eval_unfold in *.
    apply (OrCondition_body_object_free ConditionOperand _ pos l HF s0 v s0' H).
  - intros pos t IHt s0 v s0' H ctx st.
    rewrite ConditionOperand_Eval_unfold in *.
    destruct (Term_Eval St FormatError t (mkContext St None) s0)
      as [[lhs|err|msg] s1] eqn:E; try discriminate H.
    injection H as <- _. rewrite (IHt s0 lhs s1 E ctx st). reflexivity.
  - intros pos t c IHt IHc s0 v s0' H ctx st.
    rewrite ConditionOperand_Eval_unfold in *.
    destruct (Term_Eval St FormatError t (mkContext St None) s0)
      as [[lhs|err|msg] s1] eqn:E; try discriminate H.
    rewrite (IHt s0 lhs s1 E ctx st). apply (IHc lhs s1 v s0' H).
  - intros pos op t IHt lhs s0 v s0' H ctx st. cbv beta in *.
    rewrite Compare_Eval_unfold in *.
    destruct (Term_Eval St FormatError t (mkContext St None) s0)
      as [[rhs|err|msg] s1] eqn:E; try discriminate H.
    rewrite (IHt s0 rhs s1 E ctx st). injection H as -> _. reflexivity.
  - intros pos v id s0 x s0' H ctx st. rewrite Term_Eval_unfold in *.
    destruct v as [v|]; [apply (Value_Eval_object_free v s0 x s0' H)|].
    destruct id as [id|]; discriminate H.
  - intros pos v id e IHe s0 x s0' H ctx st. rewrite Term_Eval_unfold in *.
    destruct v as [v|]; [apply (Value_Eval_object_free v s0 x s0' H)|].
    destruct id as [id|]; [discriminate H|].
    apply (IHe s0 x s0' H).
Qed.
End WithoutObject.

(** X4.  An expression does not look at the object when it has no use for
    it.  A tree without identifier terms has one outcome, a value or an
    error, that [EvalParsed] returns for every object, none included, in
    every state of the host, which it leaves as it is.  And whatever the
    tree: when [EvalParsed] returns a value without an object, so that
    every identifier of the tree was skipped, as [x] is in [true OR x], it
    returns that value for every object and leaves the host as it is
    ([GetByName] is not called). *)
Theorem closed_expressions_ignore_the_object (St : Type)
        (FormatError : Position -> string -> string) (e : Expression) :
  (Expression_closed e = true ->
   exists r : outcome any,
     forall (obj : option (Gettable St)) (s : St),
       EvalParsed St FormatError e obj s = (r, s))
  /\ (forall (s0 : St) (v : any) (s0' : St),
         EvalParsed St FormatError e None s0 = (Ok v, s0') ->
         forall (obj : option (Gettable St)) (s : St),
           EvalParsed St FormatError e obj s = (Ok v, s)).
Proof.
  split.
  - intros H. destruct (closed_constant St FormatError e H) as [r Hr].
    exists (match r with
            | Ok value => Ok (castToExternal value)
            | Err err => Err err
            | Panic msg => Panic msg
            end).
    intros obj s. unfold EvalParsed. rewrite Hr. destruct r; reflexivity.
  - intros s0 v s0' H obj s. unfold EvalParsed in *.
    destruct (Expression_Eval St FormatError e (mkContext St None) s0)
      as [[x|err|msg] s1] eqn:E; try discriminate H.
    injection H as <- _.
    rewrite (Expression_Eval_object_free St FormatError e s0 x s1 E
               (mkContext St obj) s).
    reflexivity.
Qed.

(** [18 <= 22 AND ('a' != 'b')], which has no identifier, and [true OR x],
    which skips the one it has: on the example host, which does not know
    [x], it is [true] and the host is not asked. *)
Lemma closed_expressions_ignore_the_object_witness :
  (exists r : outcome any,
      forall (obj : option (Gettable Example.St)) (s : Example.St),
        EvalParsed Example.St Example.FormatError
          (mkExpression Example.p0
             [mkOrCondition Example.p0
                [mkConditionOperand Example.p0 (Example.number 18)
                   (Some (mkCompare Example.p0 "<=" (Example.number 22)));
                 mkConditionOperand Example.p0
                   (parenthesised (Example.p0, Example.p0, Example.p0, Example.p0)
                      (Example.text "a"))
                   (Some (mkCompare Example.p0 "!=" (Example.text "b")))]])
          obj s = (r, s))
  /\ EvalParsed Example.St Example.FormatError
       (mkExpression Example.p0
          [mkOrCondition Example.p0 [Boolean_operand Example.p0 true];
           Example.cond "x"])
       (Some Example.GetByName) []
     = (Ok (of_bool true), []).
Proof.
  split.
  - apply closed_expressions_ignore_the_object. reflexivity.
  - apply (proj2 (closed_expressions_ignore_the_object Example.St Example.FormatError
                    (mkExpression Example.p0
                       [mkOrCondition Example.p0 [Boolean_operand Example.p0 true];
                        Example.cond "x"]))
             [] (of_bool true) []).
    reflexivity.
Defined.

(** ** Trees of the shape the grammar gives *)

Lemma Compare_dispatch_no_panic (pos : Position) (op : string) (lhs rhs : any) :
  panics (Compare_dispatch pos op lhs rhs) = false.
Proof.
  unfold Compare_dispatch.
  destruct lhs; try reflexivity; destruct rhs; try reflexivity;
    repeat match goal with
           | |- context [if ?b then _ else _] => destruct b
           end;
    reflexivity.
Qed.

Lemma Value_Eval_wf (St : Type) (v : Value) (ctx : Context St) (s : St) :
  Value_wf v = true ->
  exists x, Value_Eval St v ctx s = (Ok x, s) /\ is_internal x = true.
Proof.
  unfold Value_wf, Value_Eval.
  destruct (Number v), (String_ v), (Boolean v); try discriminate; intros _;
    eexists; split; reflexivity.
Qed.

Lemma castToInternal_supported (v : any) :
  host_supported v = true -> is_internal (castToInternal v) = true.
Proof. destruct v; try discriminate; reflexivity. Qed.

Lemma is_Boolean_internal (v : any) : is_Boolean v = true -> is_internal v = true.
Proof. destruct v; try discriminate; reflexivity. Qed.

Section WellFormed.
Variable St : Type.
Variable FormatError : Position -> string -> string.

Section NoPanicLoops.
Variable X : Type.
Variable Eval_ : X -> Evaluable St.
Variable ctx : Context St.
Variable pos : Position.

Lemma or_range_no_panic (l : list X) :
  Forall (fun c => forall st, panics (fst (Eval_ c ctx st)) = false) l ->
  forall lhs st,
    panics (fst (Expression_Eval_range St FormatError X Eval_ ctx pos lhs l st)) = false.
Proof.
  induction 1 as [|c l Hc Hl IH]; intros lhs st; [reflexivity|].
  rewrite or_range_cons. specialize (Hc st).
  destruct (Eval_ c ctx st) as [[rhs|err|msg] s1]; [|reflexivity|discriminate Hc].
  destruct lhs as [| | | | | | | | | | | | | | |a|]; try reflexivity.
  destruct rhs as [| | | | | | | | | | | | | | |b|]; try reflexivity.
  destruct a; [reflexivity|apply IH].
Qed.

Lemma and_range_no_panic (l : list X) :
  Forall (fun c => forall st, panics (fst (Eval_ c ctx st)) = false) l ->
  forall lhs st,
    panics (fst (OrCondition_Eval_range St FormatError X Eval_ ctx pos lhs l st)) = false.
Proof.
  induction 1 as [|c l Hc Hl IH]; intros lhs st; [reflexivity|].
  rewrite and_range_cons. specialize (Hc st).
  destruct (Eval_ c ctx st) as [[rhs|err|msg] s1]; [|reflexivity|discriminate Hc].
  destruct lhs as [| | | | | | | | | | | | | | |a|]; try reflexivity.
  destruct rhs as [| | | | | | | | | | | | | | |b|]; try reflexivity.
  destruct a; [apply IH|reflexivity].
Qed.

Lemma Expression_body_no_panic (l : list X) (st : St) :
  Forall (fun c => forall st, panics (fst (Eval_ c ctx st)) = false) l ->
  panics (fst (Expression_Eval_body St FormatError X Eval_ pos l ctx st)) = false.
Proof.
  intros H. destruct l as [|c0 rest]; [reflexivity|].
  inversion H as [|? ? Hc Hrest]; subst. unfold Expression_Eval_body.
  specialize (Hc st).
  destruct (Eval_ c0 ctx st) as [[lhs|err|msg] s1]; [|reflexivity|discriminate Hc].
  destruct (List.length (c0 :: rest) =? 1)%nat; [reflexivity|].
  destruct ((List.length (c0 :: rest) =? 2)%nat
            && match lhs with of_Boolean lhsBool => lhsBool | _ => false end);
    [reflexivity|].
  apply or_range_no_panic, Hrest.
Qed.

Lemma OrCondition_body_no_panic (l : list X) (st : St) :
  Forall (fun c => forall st, panics (fst (Eval_ c ctx st)) = false) l ->
  panics (fst (OrCondition_Eval_body St FormatError X Eval_ pos l ctx st)) = false.
Proof.
  intros H. destruct l as [|c0 rest]; [reflexivity|].
  inversion H as [|? ? Hc Hrest]; subst. unfold OrCondition_Eval_body.
  specialize (Hc st).
  destruct (Eval_ c0 ctx st) as [[lhs|err|msg] s1]; [|reflexivity|discriminate Hc].
  destruct (List.length (c0 :: rest) =? 1)%nat; [reflexivity|].
  destruct ((List.length (c0 :: rest) =? 2)%nat
            && match lhs with of_Boolean lhsBool => negb lhsBool | _ => false end);
    [reflexivity|].
  apply and_range_no_panic, Hrest.
Qed.
End NoPanicLoops.

Lemma Identifier_Eval_no_panic (pos : Position) (id : string_ptr) (ctx : Context St)
      (st : St) :
  panics (fst (Identifier_Eval St FormatError pos id ctx st)) = false.
Proof.
  unfold Identifier_Eval. destruct (Object St ctx) as [object|]; [|reflexivity].
  destruct (object (deref id) st) as [[value [err|]] s1]; reflexivity.
Qed.

Lemma wf_no_panic (ctx : Context St) :
  forall e : Expression,
    Expression_wf e = true ->
    forall st, panics (fst (Expression_Eval St FormatError e ctx st)) = false.
Proof.
  apply (Expression_tree_ind
           (fun e => Expression_wf e = true ->
                     forall st, panics (fst (Expression_Eval St FormatError e ctx st))
                                = false)
           (fun o => OrCondition_wf o = true ->
                     forall st, panics (fst (OrCondition_Eval St FormatError o ctx st))
                                = false)
           (fun c => ConditionOperand_wf c = true ->
                     forall st,
                       panics (fst (ConditionOperand_Eval St FormatError c ctx st))
                       = false)
           (fun c => Compare_wf c = true ->
                     forall lhs st,
                       panics (fst (Compare_Eval St FormatError c ctx lhs st)) = false)
           (fun t => Term_wf t = true ->
                     forall st, panics (fst (Term_Eval St FormatError t ctx st))
                                = false)).
  - intros pos l HF Hw st. rewrite Expression_Eval_unfold.
    apply Expression_body_no_panic.
    apply (Forall_forallb_impl _ OrCondition_wf); [exact HF|].
    destruct l; [discriminate Hw|exact Hw].
  - intros pos l HF Hw st. rewrite OrCondition_Eval_unfold.
    apply OrCondition_body_no_panic.
    apply (Forall_forallb_impl _ ConditionOperand_wf); [exact HF|].
    destruct l; [discriminate Hw|exact Hw].
  - intros pos t IHt Hw st. simpl in Hw. apply andb_prop in Hw as [Ht _].
    rewrite ConditionOperand_Eval_unfold. specialize (IHt Ht st).
    destruct (Term_Eval St FormatError t ctx st) as [[lhs|err|msg] s1];
      [reflexivity|reflexivity|discriminate IHt].
  - intros pos t c IHt IHc Hw st. simpl in Hw. apply andb_prop in Hw as [Ht Hc].
    rewrite ConditionOperand_Eval_unfold. specialize (IHt Ht st).
    destruct (Term_Eval St FormatError t ctx st) as [[lhs|err|msg] s1];
      [apply IHc, Hc|reflexivity|discriminate IHt].
  - intros pos op t IHt Hw lhs st. simpl in Hw. apply andb_prop in Hw as [_ Ht].
    rewrite Compare_Eval_unfold. specialize (IHt Ht st).
    destruct (Term_Eval St FormatError t ctx st) as [[rhs|err|msg] s1];
      [apply Compare_dispatch_no_panic|reflexivity|discriminate IHt].
  - intros pos v id Hw st. rewrite Term_Eval_unfold.
    destruct v as [v|], id as [id|]; try discriminate Hw.
    + destruct (Value_Eval_wf St v ctx st Hw) as [x [E _]]. rewrite E. reflexivity.
    + apply Identifier_Eval_no_panic.
  - intros pos v id e IHe Hw st. rewrite Term_Eval_unfold.
    destruct v as [v|], id as [id|]; try discriminate Hw.
    apply IHe, Hw.
Qed.

Lemma wf_internal (ctx : Context St) :
  supported_host (Object St ctx) ->
  forall e : Expression,
    Expression_wf e = true ->
    forall st v st',
      Expression_Eval St FormatError e ctx st = (Ok v, st') -> is_internal v = true.
Proof.
  intros Hhost.
  apply (Expression_tree_ind
           (fun e => Expression_wf e = true ->
                     forall st v st',
                       Expression_Eval St FormatError e ctx st = (Ok v, st') ->
                       is_internal v = true)
           (fun o => OrCondition_wf o = true ->
                     forall st v st',
                       OrCondition_Eval St FormatError o ctx st = (Ok v, st') ->
                       is_internal v = true)
           (fun c => ConditionOperand_wf c = true ->
                     forall st v st',
                       ConditionOperand_Eval St FormatError c ctx st = (Ok v, st') ->
                       is_internal v = true)
           (fun _ => True)
           (fun t => Term_wf t = true ->
                     forall st v st',
                       Term_Eval St FormatError t ctx st = (Ok v, st') ->
                       is_internal v = true)).
  - intros pos l HF Hw st v st' E.
    destruct l as [|c0 [|c1 rest]]; [discriminate Hw| |].
    + inversion HF as [|? ? H0 _]; subst. simpl in Hw. rewrite andb_true_r in Hw.
      rewrite Expression_Eval_unfold in E. unfold Expression_Eval_body in E.
      destruct (OrCondition_Eval St FormatError c0 ctx st) as [[lhs|err|msg] s1] eqn:E0;
        try discriminate E.
      simpl in E. injection E as <- <-. eapply H0; [exact Hw|exact E0].
    + apply is_Boolean_internal.
      apply (proj1 (nary_results_are_Booleans St FormatError ctx v st st')
               pos (c0 :: c1 :: rest)); [simpl; lia|exact E].
  - intros pos l HF Hw st v st' E.
    destruct l as [|c0 [|c1 rest]]; [discriminate Hw| |].
    + inversion HF as [|? ? H0 _]; subst. simpl in Hw. rewrite andb_true_r in Hw.
      rewrite OrCondition_Eval_unfold in E. unfold OrCondition_Eval_body in E.
      destruct (ConditionOperand_Eval St FormatError c0 ctx st)
        as [[lhs|err|msg] s1] eqn:E0; try discriminate E.
      simpl in E. injection E as <- <-. eapply H0; [exact Hw|exact E0].
    + apply is_Boolean_internal.
      apply (proj2 (nary_results_are_Booleans St FormatError ctx v st st')
               pos (c0 :: c1 :: rest)); [simpl; lia|exact E].
  - intros pos t IHt Hw st v st' E. simpl in Hw. apply andb_prop in Hw as [Ht _].
    rewrite ConditionOperand_Eval_unfold in E.
    destruct (Term_Eval St FormatError t ctx st) as [[lhs|err|msg] s1] eqn:E0;
      try discriminate E.
    injection E as <- <-. eapply IHt; [exact Ht|exact E0].
  - intros pos t c _ _ _ st v st' E. apply is_Boolean_internal.
    eapply ConditionOperand_Compare_Boolean. exact E.
  - intros; exact I.
  - intros pos v id Hw st x st' E. rewrite Term_Eval_unfold in E.
    destruct v as [v|], id as [id|]; try discriminate Hw.
    + destruct (Value_Eval_wf St v ctx st Hw) as [y [Ey Hy]].
      rewrite Ey in E. injection E as <- _. exact Hy.
    + unfold Identifier_Eval in E.
      destruct (Object St ctx) as [object|] eqn:EO; [|discriminate E].
      destruct (object (deref id) st) as [[value [err|]] s1] eqn:EG; [discriminate E|].
      injection E as <- _. apply castToInternal_supported.
      eapply (Hhost object eq_refl). exact EG.
  - intros pos v id e IHe Hw st x st' E. rewrite Term_Eval_unfold in E.
    destruct v as [v|], id as [id|]; try discriminate Hw.
    eapply IHe; [exact Hw|exact E].
Qed.
End WellFormed.

(** ** The trees of the parser *)

Lemma to_lower_plain (c l : ascii) :
  lexer.lower l = false -> lexer.to_lower c = l -> c = l.
Proof.
  intros Hl <-. revert Hl.
  destruct c as [[|] [|] [|] [|] [|] [|] [|] [|]]; vm_compute; intros H;
    try discriminate H; reflexivity.
Qed.

Lemma ToLower_plain (l : string) :
  forall v, all_bytes (fun c => negb (lexer.lower c)) l = true ->
            ToLower v = l -> v = l.
Proof.
  induction l as [|c l IH]; intros [|d v] Hl H; simpl in H; try discriminate H.
  - reflexivity.
  - simpl in Hl. apply andb_prop in Hl as [Hc Hl]. injection H as H1 H2.
    apply negb_true_iff in Hc. f_equal; [apply to_lower_plain; assumption|auto].
Qed.

(** A token that matches one of the six operators has that operator as
    its text, whatever its type. *)
Lemma literal_operator (l : string) (tok : lexer.Token) :
  In l comparison_operators -> literal l tok = true -> lexer.Value tok = l.
Proof.
  intros Hin H.
  assert (P : all_bytes (fun c => negb (lexer.lower c)) l = true /\ ToLower l = l).
  { simpl in Hin.
    repeat (destruct Hin as [<-|Hin]; [split; reflexivity|]). contradiction. }
  destruct P as [P1 P2]. unfold literal, EqualFold in H.
  destruct (caseInsensitive (lexer.Type_ tok)).
  - apply String.eqb_eq in H. rewrite P2 in H. apply ToLower_plain; assumption.
  - apply String.eqb_eq in H. exact H.
Qed.

Lemma repetition_wf (A : Type) (wf : A -> bool) (op : string)
      (elem : tokens -> option (A * tokens)) :
  (forall ts a ts', elem ts = Some (a, ts') -> wf a = true) ->
  forall fuel ts l rest,
    repetition op elem fuel ts = (l, rest) -> forallb wf l = true.
Proof.
  intros Helem. induction fuel as [|fuel IH]; intros ts l rest H.
  - destruct ts; injection H as <- _; reflexivity.
  - destruct ts as [|tok ts0]; [injection H as <- _; reflexivity|].
    simpl in H. destruct (literal op tok); [|injection H as <- _; reflexivity].
    destruct (elem ts0) as [[a ts1]|] eqn:Ea; [|injection H as <- _; reflexivity].
    destruct (repetition op elem fuel ts1) as [l1 rest1] eqn:Er.
    injection H as <- _. simpl. rewrite (Helem _ _ _ Ea). simpl.
    eapply IH. exact Er.
Qed.

Section ParserShape.
Variable ParseFloat : string -> option Float64.t.
Variable unquote : string -> option string.
Variable new_string : Position -> N.
Variable parse_error : string -> error.

Lemma parse_Value_wf (ts ts' : tokens) (v : Value) :
  parse_Value ParseFloat ts = Some (v, ts') -> Value_wf v = true.
Proof.
  unfold parse_Value. destruct ts as [|tok ts0]; [discriminate|].
  destruct (lexer.Type_ tok); try discriminate.
  - intros H. injection H as <- _. reflexivity.
  - destruct (ParseFloat (lexer.Value tok)); [|discriminate].
    intros H. injection H as <- _. reflexivity.
  - intros H. injection H as <- _. reflexivity.
Qed.

Section RulesShape.
Variable sub : tokens -> option (Expression * tokens).
Hypothesis Hsub : forall ts e ts', sub ts = Some (e, ts') -> Expression_wf e = true.

Lemma parse_Term_wf (ts ts' : tokens) (t : Term) :
  parse_Term ParseFloat new_string sub ts = Some (t, ts') -> Term_wf t = true.
Proof.
  unfold parse_Term.
  destruct (parse_Value ParseFloat ts) as [[v ts1]|] eqn:EV.
  - intros H. injection H as <- _. simpl. eapply parse_Value_wf. exact EV.
  - destruct ts as [|tok ts0]; [discriminate|].
    destruct (lexer.Type_ tok);
      try (destruct (literal "(" tok); [|discriminate];
           destruct (sub ts0) as [[e [|close ts2]]|] eqn:ES; try discriminate;
           destruct (literal ")" close); [|discriminate];
           intros H; injection H as <- _; simpl; eapply Hsub; exact ES).
    intros H. injection H as <- _. reflexivity.
Qed.

Lemma parse_Compare_wf (ts ts' : tokens) (c : Compare) :
  parse_Compare ParseFloat new_string sub ts = Some (c, ts') -> Compare_wf c = true.
Proof.
  unfold parse_Compare. destruct ts as [|tok ts0]; [discriminate|].
  destruct (existsb (fun l => literal l tok) ["<="; ">="; "=="; "<"; ">"; "!="])
    eqn:EO; [|discriminate].
  destruct (parse_Term ParseFloat new_string sub ts0) as [[t ts1]|] eqn:ET;
    [|discriminate].
  intros H. injection H as <- _.
  change (existsb (String.eqb (lexer.Value tok)) comparison_operators && Term_wf t
          = true).
  rewrite (parse_Term_wf _ _ _ ET), andb_true_r.
  apply existsb_exists in EO as [l [Hin Hl]].
  apply existsb_exists. exists l. split; [exact Hin|].
  rewrite (literal_operator l tok Hin Hl). apply String.eqb_refl.
Qed.

Lemma parse_ConditionOperand_wf (ts ts' : tokens) (c : ConditionOperand) :
  parse_ConditionOperand ParseFloat new_string sub ts = Some (c, ts') ->
  ConditionOperand_wf c = true.
Proof.
  unfold parse_ConditionOperand.
  destruct (parse_Term ParseFloat new_string sub ts) as [[t ts1]|] eqn:ET;
    [|discriminate].
  destruct (parse_Compare ParseFloat new_string sub ts1) as [[c' ts2]|] eqn:EC;
    intros H; injection H as <- _; simpl;
    rewrite (parse_Term_wf _ _ _ ET); [|reflexivity].
  simpl. eapply parse_Compare_wf. exact EC.
Qed.

Lemma parse_OrCondition_wf (ts ts' : tokens) (o : OrCondition) :
  parse_OrCondition ParseFloat new_string sub ts = Some (o, ts') ->
  OrCondition_wf o = true.
Proof.
  unfold parse_OrCondition.
  destruct (parse_ConditionOperand ParseFloat new_string sub ts) as [[c ts1]|] eqn:EC;
    [|discriminate].
  destruct (repetition "AND" (parse_ConditionOperand ParseFloat new_string sub)
              (List.length ts1) ts1) as [l rest] eqn:ER.
  intros H. injection H as <- _. simpl.
  rewrite (parse_ConditionOperand_wf _ _ _ EC). simpl.
  eapply repetition_wf; [|exact ER]. intros ? ? ?. apply parse_ConditionOperand_wf.
Qed.

Lemma parse_Expression_rule_wf (ts ts' : tokens) (e : Expression) :
  parse_Expression_rule ParseFloat new_string sub ts = Some (e, ts') ->
  Expression_wf e = true.
Proof.
  unfold parse_Expression_rule.
  destruct (parse_OrCondition ParseFloat new_string sub ts) as [[o ts1]|] eqn:EO;
    [|discriminate].
  destruct (repetition "OR" (parse_OrCondition ParseFloat new_string sub)
              (List.length ts1) ts1) as [l rest] eqn:ER.
  intros H. injection H as <- _. simpl.
  rewrite (parse_OrCondition_wf _ _ _ EO). simpl.
  eapply repetition_wf; [|exact ER]. intros ? ? ?. apply parse_OrCondition_wf.
Qed.
End RulesShape.

Lemma parse_Expression_wf (depth : nat) :
  forall ts e ts',
    parse_Expression ParseFloat new_string depth ts = Some (e, ts') ->
    Expression_wf e = true.
Proof.
  induction depth as [|depth IH]; intros ts e ts' H; [discriminate H|].
  change (parse_Expression ParseFloat new_string (Datatypes.S depth) ts)
    with (parse_Expression_rule ParseFloat new_string
            (parse_Expression ParseFloat new_string depth) ts) in H.
  eapply parse_Expression_rule_wf; [exact IH|exact H].
Qed.

Lemma Parser_wf (text : string) (e : Expression) :
  Parser ParseFloat unquote new_string parse_error text = inl e ->
  Expression_wf e = true.
Proof.
  unfold Parser. destruct (lexer.Lex myLexer text) as [raw|]; [|discriminate].
  destruct (Unquote unquote raw) as [ts|]; [|discriminate].
  destruct (parse_Expression ParseFloat new_string (List.length ts) ts)
    as [[e' [|eof [|x rest]]]|] eqn:EP; try discriminate.
  destruct (lexer.symbol_eqb (lexer.Type_ eof) lexer.EOF); [|discriminate].
  intros H. injection H as <-. eapply parse_Expression_wf. exact EP.
Qed.
End ParserShape.

(** X5.  Whatever the text, a tree the parser returns has the shape of the
    grammar: every [Expression] and every [OrCondition] has at least one
    child, every [Compare] has one of the six operators of its tag as
    [Operator], and every [Term] and every [Value] has exactly one
    populated field. *)
Theorem parsed_trees_have_the_shape_of_the_grammar
        (ParseFloat : string -> option Float64.t) (unquote : string -> option string)
        (new_string : Position -> N) (parse_error : string -> error)
        (text : string) (e : Expression) :
  Parser ParseFloat unquote new_string parse_error text = inl e ->
  Expression_wf e = true.
Proof. apply Parser_wf. Qed.

(** The text [age >= 18 and (gender == 'male' or t)], with a stand-in
    for [strconv.ParseFloat] and for the unquoting. *)
Lemma parsed_trees_have_the_shape_of_the_grammar_witness :
  exists e : Expression,
    Parser (fun _ => Some (Float64.of_Z 18)) (fun q => Some q) (fun _ => 0%N)
           errorString "age >= 18 and (gender == 'male' or t)" = inl e
    /\ Expression_wf e = true.
Proof.
  eexists. split.
  - vm_compute. reflexivity.
  - apply (parsed_trees_have_the_shape_of_the_grammar
             (fun _ => Some (Float64.of_Z 18)) (fun q => Some q) (fun _ => 0%N)
             errorString "age >= 18 and (gender == 'male' or t)").
    vm_compute. reflexivity.
Defined.

(** X6.  The two [panic] statements of the package, the last lines of
    [Term.Eval] and of [Value.Eval], are out of reach of [Eval]: whatever
    the text, and whatever an object whose [GetByName] returns gives back,
    [Eval] returns a value or an error and runs neither statement.  A
    [Gettable] here is a method that returns; a panic that [GetByName]
    itself raises is not caught by the evaluator and is not part of this
    statement. *)
Theorem panic_statements_are_out_of_reach (St : Type) (FormatError : Position -> string -> string)
        (ParseFloat : string -> option Float64.t) (unquote : string -> option string)
        (new_string : Position -> N) (parse_error : string -> error)
        (text : string) (obj : option (Gettable St)) (s : St) :
  panics (fst (Eval St FormatError
                 (Parser ParseFloat unquote new_string parse_error) text obj s))
  = false.
Proof.
  unfold Eval, Parse. destruct (String.length text =? 0)%nat; [reflexivity|].
  destruct (Parser ParseFloat unquote new_string parse_error text) as [e|err] eqn:EP;
    [|reflexivity].
  apply Parser_wf in EP. unfold EvalParsed.
  pose proof (wf_no_panic St FormatError (mkContext St obj) e EP s) as H.
  destruct (Expression_Eval St FormatError e (mkContext St obj) s)
    as [[v|err|msg] s1]; [reflexivity|reflexivity|discriminate H].
Qed.

Lemma Example_host_supported : supported_host (Some Example.GetByName).
Proof.
  intros object [= <-] name s v s'. unfold Example.GetByName.
  repeat match goal with
         | |- context [if ?b then _ else _] => destruct b
         end;
    intros H; try discriminate H; injection H as <- _; reflexivity.
Qed.

(** X7.  With an object that returns numbers, strings and bools only (or with
    none), a value [Eval] returns for a text that is not empty is a
    float64, a string or a bool, as the comment on [Eval] says; nil is
    returned for the empty text only. *)
Theorem Eval_returns_float64_string_or_bool (St : Type)
        (FormatError : Position -> string -> string)
        (ParseFloat : string -> option Float64.t) (unquote : string -> option string)
        (new_string : Position -> N) (parse_error : string -> error)
        (text : string) (obj : option (Gettable St)) (s s' : St) (v : any) :
  supported_host obj ->
  Eval St FormatError (Parser ParseFloat unquote new_string parse_error) text obj s
  = (Ok v, s') ->
  (text = "" /\ v = of_nil /\ s' = s) \/ (text <> "" /\ is_external v = true).
Proof.
  intros Hhost. unfold Eval, Parse.
  destruct text as [|c text].
  - intros H. injection H as <- <-. left. auto.
  - change (String.length (String c text) =? 0)%nat with false. cbv iota.
    intros H. right. split; [discriminate|].
    destruct (Parser ParseFloat unquote new_string parse_error (String c text))
      as [e|err] eqn:EP; [|discriminate H].
    apply Parser_wf in EP. unfold EvalParsed in H.
    destruct (Expression_Eval St FormatError e (mkContext St obj) s)
      as [[x|err|msg] s1] eqn:EE; try discriminate H.
    injection H as <- _.
    pose proof (wf_internal St FormatError (mkContext St obj) Hhost e EP s x s1 EE) as Hx.
    destruct x; try discriminate Hx; reflexivity.
Qed.

(** [age] on the example host, where it is the int 22. *)
Lemma Eval_returns_float64_string_or_bool_witness :
  ("age" = "" /\ of_float64 (Float64.of_Z 22) = of_nil /\ ["age"] = [])
  \/ ("age" <> "" /\ is_external (of_float64 (Float64.of_Z 22)) = true).
Proof.
  apply (Eval_returns_float64_string_or_bool Example.St Example.FormatError
           (fun _ => None) (fun q => Some q) (fun _ => 0%N) errorString
           "age" (Some Example.GetByName) [] ["age"]).
  - exact Example_host_supported.
  - vm_compute. reflexivity.
Defined.

(** ** The errors of the evaluation *)

Section ErrorPositions.
Variable St : Type.
Variable FormatError : Position -> string -> string.
Variable ctx : Context St.

Lemma positioned_incl (ps qs : list Position) (err : error) :
  incl ps qs -> positioned ps err -> positioned qs err.
Proof. intros Hi (pos & msg & E & Hin). exists pos, msg. auto. Qed.

Section ErrorLoops.
Variable X : Type.
Variable Eval_ : X -> Evaluable St.
Variable pos : Position.

Lemma or_range_error (l : list X) :
  forall lhs st err st',
    Expression_Eval_range St FormatError X Eval_ ctx pos lhs l st = (Err err, st') ->
    exists msg, err = lexer_Error pos msg.
Proof.
  induction l as [|c l IH]; intros lhs st err st' H; [discriminate H|].
  rewrite or_range_cons in H.
  destruct (Eval_ c ctx st) as [[rhs|e|m] s1]; [| |discriminate H].
  - destruct lhs as [| | | | | | | | | | | | | | |a|];
      try (injection H as <- _; eexists; reflexivity).
    destruct rhs as [| | | | | | | | | | | | | | |b|];
      try (injection H as <- _; eexists; reflexivity).
    destruct a; [discriminate H|]. eapply IH. exact H.
  - injection H as <- _. eexists. reflexivity.
Qed.

Lemma and_range_error (l : list X) :
  forall lhs st err st',
    OrCondition_Eval_range St FormatError X Eval_ ctx pos lhs l st = (Err err, st') ->
    exists msg, err = lexer_Error pos msg.
Proof.
  induction l as [|c l IH]; intros lhs st err st' H; [discriminate H|].
  rewrite and_range_cons in H.
  destruct (Eval_ c ctx st) as [[rhs|e|m] s1]; [| |discriminate H].
  - destruct lhs as [| | | | | | | | | | | | | | |a|];
      try (injection H as <- _; eexists; reflexivity).
    destruct rhs as [| | | | | | | | | | | | | | |b|];
      try (injection H as <- _; eexists; reflexivity).
    destruct a; [|discriminate H]. eapply IH. exact H.
  - injection H as <- _. eexists. reflexivity.
Qed.

Variable positions : X -> list Position.

Lemma Expression_body_error (l : list X) (st st' : St) (err : error) :
  Forall (fun c => forall st err st',
              Eval_ c ctx st = (Err err, st') -> positioned (positions c) err) l ->
  Expression_Eval_body St FormatError X Eval_ pos l ctx st = (Err err, st') ->
  positioned (pos :: flat_map positions l) err.
Proof.
  intros HF H. destruct l as [|c0 rest]; [discriminate H|].
  inversion HF as [|? ? H0 _]; subst. unfold Expression_Eval_body in H.
  destruct (Eval_ c0 ctx st) as [[lhs|e|m] s1] eqn:E0; [| |discriminate H].
  - destruct (List.length (c0 :: rest) =? 1)%nat; [discriminate H|].
    destruct ((List.length (c0 :: rest) =? 2)%nat
              && match lhs with of_Boolean lhsBool => lhsBool | _ => false end);
      [discriminate H|].
    apply or_range_error in H as [msg ->]. exists pos, msg. split; [reflexivity|].
    left. reflexivity.
  - injection H as <- _. eapply positioned_incl; [|eapply H0; exact E0].
    intros x Hx. right. simpl. apply in_or_app. left. exact Hx.
Qed.

Lemma OrCondition_body_error (l : list X) (st st' : St) (err : error) :
  Forall (fun c => forall st err st',
              Eval_ c ctx st = (Err err, st') -> positioned (positions c) err) l ->
  OrCondition_Eval_body St FormatError X Eval_ pos l ctx st = (Err err, st') ->
  positioned (pos :: flat_map positions l) err.
Proof.
  intros HF H. destruct l as [|c0 rest]; [discriminate H|].
  inversion HF as [|? ? H0 _]; subst. unfold OrCondition_Eval_body in H.
  destruct (Eval_ c0 ctx st) as [[lhs|e|m] s1] eqn:E0; [| |discriminate H].
  - destruct (List.length (c0 :: rest) =? 1)%nat; [discriminate H|].
    destruct ((List.length (c0 :: rest) =? 2)%nat
              && match lhs with of_Boolean lhsBool => negb lhsBool | _ => false end);
      [discriminate H|].
    apply and_range_error in H as [msg ->]. exists pos, msg. split; [reflexivity|].
    left. reflexivity.
  - injection H as <- _. eapply positioned_incl; [|eapply H0; exact E0].
    intros x Hx. right. simpl. apply in_or_app. left. exact Hx.
Qed.
End ErrorLoops.

Lemma Compare_dispatch_error (pos : Position) (op : string) (lhs rhs : any)
      (err : error) :
  Compare_dispatch pos op lhs rhs = Err err -> exists msg, err = lexer_Error pos msg.
Proof.
  unfold Compare_dispatch.
  destruct lhs; try (intros H; injection H as <-; eexists; reflexivity);
    destruct rhs; try (intros H; injection H as <-; eexists; reflexivity);
    repeat match goal with
           | |- context [if ?b then _ else _] => destruct b
           end;
    intros H; try discriminate H; injection H as <-; eexists; reflexivity.
Qed.

Lemma Value_Eval_no_error (v : Value) (st st' : St) (err : error) :
  Value_Eval St v ctx st <> (Err err, st').
Proof.
  unfold Value_Eval. destruct (Number v); [discriminate|].
  destruct (String_ v); [discriminate|]. destruct (Boolean v); discriminate.
Qed.

Lemma Identifier_Eval_error (pos : Position) (id : string_ptr) (st st' : St)
      (err : error) :
  Identifier_Eval St FormatError pos id ctx st = (Err err, st') ->
  exists msg, err = lexer_Error pos msg.
Proof.
  unfold Identifier_Eval. destruct (Object St ctx) as [object|].
  - destruct (object (deref id) st) as [[value [e|]] s1]; [|discriminate].
    intros H. injection H as <- _. eexists. reflexivity.
  - intros H. injection H as <- _. eexists. reflexivity.
Qed.

Lemma Expression_Eval_error :
  forall e : Expression,
  forall st err st',
    Expression_Eval St FormatError e ctx st = (Err err, st') ->
    positioned (Expression_positions e) err.
Proof.
  apply (Expression_tree_ind
           (fun e => forall st err st',
                Expression_Eval St FormatError e ctx st = (Err err, st') ->
                positioned (Expression_positions e) err)
           (fun o => forall st err st',
                OrCondition_Eval St FormatError o ctx st = (Err err, st') ->
                positioned (OrCondition_positions o) err)
           (fun c => forall st err st',
                ConditionOperand_Eval St FormatError c ctx st = (Err err, st') ->
                positioned (ConditionOperand_positions c) err)
           (fun c => forall lhs st err st',
                Compare_Eval St FormatError c ctx lhs st = (Err err, st') ->
                positioned (Compare_positions c) err)
           (fun t => forall st err st',
                Term_Eval St FormatError t ctx st = (Err err, st') ->
                positioned (Term_positions t) err)).
  - intros pos l HF st err st' H. rewrite Expression_Eval_unfold in H.
    apply (Expression_body_error OrCondition _ pos OrCondition_positions l st st' err HF H).
  - intros pos l HF st err st' H. rewrite OrCondition_Eval_unfold in H.
    apply (OrCondition_body_error ConditionOperand _ pos ConditionOperand_positions
             l st st' err HF H).
  - intros pos t IHt st err st' H. rewrite ConditionOperand_Eval_unfold in H.
    destruct (Term_Eval St FormatError t ctx st) as [[lhs|e|m] s1] eqn:E0;
      try discriminate H.
    injection H as <- _. eapply positioned_incl; [|eapply IHt; exact E0].
    intros x Hx. right. apply in_or_app. left. exact Hx.
  - intros pos t c IHt IHc st err st' H. rewrite ConditionOperand_Eval_unfold in H.
    destruct (Term_Eval St FormatError t ctx st) as [[lhs|e|m] s1] eqn:E0;
      [| |discriminate H].
    + eapply positioned_incl; [|eapply IHc; exact H].
      intros x Hx. right. apply in_or_app. right. exact Hx.
    + injection H as <- _. eapply positioned_incl; [|eapply IHt; exact E0].
      intros x Hx. right. apply in_or_app. left. exact Hx.
  - intros pos op t IHt lhs st err st' H. rewrite Compare_Eval_unfold in H.
    destruct (Term_Eval St FormatError t ctx st) as [[rhs|e|m] s1] eqn:E0;
      [| |discriminate H].
    + injection H as H _. apply Compare_dispatch_error in H as [msg ->].
      exists pos, msg. split; [reflexivity|left; reflexivity].
    + injection H as <- _. eapply positioned_incl; [|eapply IHt; exact E0].
      intros x Hx. right. exact Hx.
  - intros pos v id st err st' H. rewrite Term_Eval_unfold in H.
    destruct v as [v|]; [exfalso; eapply Value_Eval_no_error; exact H|].
    destruct id as [id|]; [|discriminate H].
    apply Identifier_Eval_error in H as [msg ->].
    exists pos, msg. split; [reflexivity|left; reflexivity].
  - intros pos v id e IHe st err st' H. rewrite Term_Eval_unfold in H.
    destruct v as [v|]; [exfalso; eapply Value_Eval_no_error; exact H|].
    destruct id as [id|].
    + apply Identifier_Eval_error in H as [msg ->].
      exists pos, msg. split; [reflexivity|left; reflexivity].
    + eapply positioned_incl; [|eapply IHe; exact H].
      intros x Hx. right. exact Hx.
Qed.
End ErrorPositions.

(** X8.  Every error of the evaluation is a [lexer.Error] at the position of a
    node of the tree, whatever the tree and whatever the object does: the
    errors of [GetByName] and of [evaluateBooleans] are never returned as
    they are. *)
Theorem evaluation_errors_have_a_position_of_the_tree (St : Type)
        (FormatError : Position -> string -> string) (e : Expression)
        (obj : option (Gettable St)) (s s' : St) (err : error) :
  EvalParsed St FormatError e obj s = (Err err, s') ->
  positioned (Expression_positions e) err.
Proof.
  unfold EvalParsed.
  destruct (Expression_Eval St FormatError e (mkContext St obj) s)
    as [[v|e0|m] s1] eqn:E; try discriminate.
  intros H. injection H as <- _. eapply Expression_Eval_error. exact E.
Qed.

(** [unknown OR t] on the example host, which does not know [unknown]. *)
Lemma evaluation_errors_have_a_position_of_the_tree_witness :
  positioned
    (Expression_positions
       (mkExpression Example.p0 [Example.cond "unknown"; Example.cond "t"]))
    (lexer_Error Example.p0 "Invalid identifier").
Proof.
  apply (evaluation_errors_have_a_position_of_the_tree Example.St Example.FormatError
           (mkExpression Example.p0 [Example.cond "unknown"; Example.cond "t"])
           (Some Example.GetByName) [] ["unknown"]).
  reflexivity.
Defined.

(** ** What a match takes *)

Lemma string_app_assoc (a b c : string) : (a ++ b) ++ c = a ++ b ++ c.
Proof. induction a as [|x a IH]; simpl; [reflexivity|rewrite IH; reflexivity]. Qed.

Lemma strip_prefix_app (l : string) :
  forall s s', lexer.strip_prefix l s = Some s' -> s = l ++ s'.
Proof.
  induction l as [|c l IH]; intros s s' H; simpl in H.
  - injection H as <-. reflexivity.
  - destruct s as [|d s]; [discriminate H|].
    destruct (Ascii.eqb c d) eqn:E; [|discriminate H].
    apply Ascii.eqb_eq in E as <-. simpl. f_equal. apply IH, H.
Qed.

Lemma star_loop_suffix (A : Type) (r : lexer.regex)
      (m : string -> (string -> option A) -> option A) :
  (forall s k x, m s k = Some x ->
                 exists a s', s = a ++ s' /\ k s' = Some x /\ taken r a) ->
  forall fuel s k x,
    lexer.star_loop m k fuel s = Some x ->
    exists a s', s = a ++ s' /\ k s' = Some x /\ taken (lexer.Star r) a.
Proof.
  intros Hm. induction fuel as [|fuel IH]; intros s k x H; simpl in H.
  - exists EmptyString, s. repeat split; auto.
  - destruct (m s (fun s' => if (String.length s' <? String.length s)%nat
                             then lexer.star_loop m k fuel s' else None)) as [y|] eqn:E.
    + injection H as ->. apply Hm in E as (a & s1 & -> & E & Ta).
      destruct (String.length s1 <? String.length (a ++ s1))%nat eqn:L;
        [|discriminate E].
      apply IH in E as (b & s2 & -> & E & Tb).
      exists (a ++ b), s2. split; [symmetry; apply string_app_assoc|]. split; [exact E|].
      destruct a as [|c a].
      * exact Tb.
      * exact Ta.
    + exists EmptyString, s. repeat split; auto.
Qed.

Lemma rmatch_suffix (r : lexer.regex) :
  forall (A : Type) (s : string) (k : string -> option A) (x : A),
    lexer.rmatch r s k = Some x ->
    exists a s', s = a ++ s' /\ k s' = Some x /\ taken r a.
Proof.
  induction r as [class|l|r1 IH1 r2 IH2|r1 IH1 r2 IH2|r1 IH1|r1 IH1];
    intros A s k x H; simpl in H.
  - destruct s as [|c s]; [discriminate H|].
    destruct (class c) eqn:E; [|discriminate H].
    exists (String c EmptyString), s. repeat split; auto.
  - destruct (lexer.strip_prefix l s) as [s'|] eqn:E; [|discriminate H].
    apply strip_prefix_app in E as ->. exists l, s'. repeat split; auto.
    destruct l as [|d l]; [reflexivity|]. simpl. apply Ascii.eqb_refl.
  - apply IH1 in H as (a & s1 & -> & H & Ta).
    apply IH2 in H as (b & s2 & -> & H & Tb).
    exists (a ++ b), s2. split; [symmetry; apply string_app_assoc|]. split; [exact H|].
    destruct a as [|c a]; simpl in *.
    + destruct b as [|d b]; simpl in *; rewrite Ta, Tb; [reflexivity|].
      apply orb_true_r.
    + rewrite Ta. reflexivity.
  - destruct (lexer.rmatch r1 s k) as [y|] eqn:E.
    + injection H as ->. apply IH1 in E as (a & s1 & -> & E & Ta).
      exists a, s1. repeat split; auto.
      destruct a as [|c a]; simpl in *; rewrite Ta; reflexivity.
    + apply IH2 in H as (a & s1 & -> & H & Ta).
      exists a, s1. repeat split; auto.
      destruct a as [|c a]; simpl in *; rewrite Ta; apply orb_true_r.
  - eapply star_loop_suffix; [|exact H]. intros s0 k0 x0. apply IH1.
  - destruct (lexer.rmatch r1 s k) as [y|] eqn:E.
    + injection H as ->. apply IH1 in E as (a & s1 & -> & E & Ta).
      exists a, s1. repeat split; auto.
      destruct a as [|c a]; [reflexivity|exact Ta].
    + exists EmptyString, s. repeat split; auto.
Qed.

Lemma first_match_In (d : lexer.Definition_) (b : string) (name : option lexer.symbol)
      (rest : string) :
  lexer.first_match d b = Some (name, rest) ->
  exists r, In (name, r) d /\ lexer.rmatch r b (fun rest => Some rest) = Some rest.
Proof.
  induction d as [|[n r] d IH]; [discriminate|]. rewrite first_match_cons.
  destruct (lexer.rmatch r b (fun rest => Some rest)) as [y|] eqn:E.
  - intros H. injection H as <- <-. exists r. split; [left; reflexivity|exact E].
  - intros H. apply IH in H as (r' & Hin & H). exists r'. split; [right; exact Hin|exact H].
Qed.

(** The alternatives of [myLexer], by the bytes they start with. *)
Lemma myLexer_first_bytes (name : option lexer.symbol) (r : lexer.regex) (c : ascii) :
  In (name, r) myLexer ->
  nullable r = false
  /\ (first_byte r c = true ->
      match name with
      | None => lexer.space c = true
      | Some sym => starts sym c = true
      end).
Proof.
  intros Hin. simpl in Hin.
  repeat (destruct Hin as [Hin|Hin];
          [injection Hin as <- <-; split; [reflexivity|];
           destruct c as [[|] [|] [|] [|] [|] [|] [|] [|]]; vm_compute;
           intros H; try discriminate H; reflexivity|]).
  contradiction.
Qed.

Lemma first_match_myLexer (b rest : string) (name : option lexer.symbol) :
  lexer.first_match myLexer b = Some (name, rest) ->
  exists c a, b = String c a ++ rest
              /\ match name with
                 | None => lexer.space c = true
                 | Some sym => starts sym c = true
                 end.
Proof.
  intros H. apply first_match_In in H as (r & Hin & H).
  apply rmatch_suffix in H as (a & s' & -> & H & Ta). injection H as ->.
  destruct a as [|c a]; simpl in Ta.
  - destruct (myLexer_first_bytes name r "a"%char Hin) as [N _]. congruence.
  - exists c, a. split; [reflexivity|].
    apply (myLexer_first_bytes name r c Hin). exact Ta.
Qed.

(** ** The first byte of a token *)

Lemma starts_can_start (sym : lexer.symbol) (c : ascii) :
  starts sym c = true -> can_start c = true.
Proof.
  destruct sym; destruct c as [[|] [|] [|] [|] [|] [|] [|] [|]]; intros H;
    try (vm_compute in H; discriminate H); vm_compute; reflexivity.
Qed.

Lemma first_match_foreign (c : ascii) (rest : string) :
  can_start c = false -> lexer.first_match myLexer (String c rest) = None.
Proof.
  intros H.
  destruct (lexer.first_match myLexer (String c rest)) as [[name rest']|] eqn:E;
    [|reflexivity].
  apply first_match_myLexer in E as (c' & a & E & Hs). simpl in E. injection E as <- _.
  destruct name as [sym|].
  - apply starts_can_start in Hs. congruence.
  - unfold can_start in H. rewrite Hs in H. discriminate H.
Qed.

Lemma first_match_completion (c : ascii) :
  can_start c = true ->
  lexer.first_match myLexer (String c (completion c)) <> None.
Proof.
  destruct c as [[|] [|] [|] [|] [|] [|] [|] [|]]; intros H;
    try (vm_compute in H; discriminate H); vm_compute; discriminate.
Qed.

Lemma Lex_fuel_step (d : lexer.Definition_) (fuel : nat) (pos : Position)
      (c : ascii) (b : string) :
  lexer.Lex_fuel d (Datatypes.S fuel) pos (String c b)
  = match lexer.first_match d (String c b) with
    | None => inr pos
    | Some (name, rest) =>
        if (String.length (String c b) <=? String.length rest)%nat then inr pos
        else
          match name, lexer.Lex_fuel d fuel
                        (lexer.advance pos (lexer.consumed (String c b) rest)) rest with
          | _, inr p => inr p
          | None, inl ts => inl ts
          | Some sym, inl ts =>
              inl (lexer.mkToken sym (lexer.consumed (String c b) rest) pos :: ts)
          end
    end.
Proof. reflexivity. Qed.

Lemma Lex_fuel_tokens (fuel : nat) :
  forall pos b ts,
    lexer.Lex_fuel myLexer fuel pos b = inl ts ->
    exists ts0 p, ts = (ts0 ++ [lexer.mkToken lexer.EOF "" p])%list
                  /\ forallb named_token ts0 = true.
Proof.
  induction fuel as [|fuel IH]; intros pos b ts H.
  - destruct b; [|discriminate H]. injection H as <-. exists [], pos. auto.
  - destruct b as [|c b].
    + injection H as <-. exists [], pos. auto.
    + rewrite Lex_fuel_step in H.
      destruct (lexer.first_match myLexer (String c b)) as [[name rest]|] eqn:E;
        [|discriminate H].
      destruct (String.length (String c b) <=? String.length rest)%nat;
        [discriminate H|].
      destruct (lexer.Lex_fuel myLexer fuel
                  (lexer.advance pos (lexer.consumed (String c b) rest)) rest)
        as [ts1|] eqn:E1; [|destruct name; discriminate H].
      apply IH in E1 as (ts0 & p & -> & Hts0).
      destruct name as [sym|].
      * injection H as <-.
        exists (lexer.mkToken sym (lexer.consumed (String c b) rest) pos :: ts0), p.
        split; [reflexivity|]. simpl forallb. rewrite Hts0, andb_true_r.
        apply first_match_myLexer in E as (c' & a & E & Hs). rewrite E.
        rewrite consumed_append. exact Hs.
      * injection H as <-. exists ts0, p. auto.
Qed.

(** X9.  A byte can start a token exactly when it is white space, a letter,
    the underscore, a digit, a sign, the dot, a quote, or one of
    [! = < > ( )]; a text that starts with any other byte is rejected
    before the object is looked at. *)
Theorem foreign_first_byte_is_rejected (St : Type)
        (FormatError : Position -> string -> string)
        (ParseFloat : string -> option Float64.t) (unquote : string -> option string)
        (new_string : Position -> N) (parse_error : string -> error) (c : ascii) :
  (can_start c = true <->
   exists rest, lexer.first_match myLexer (String c rest) <> None)
  /\ (can_start c = false ->
      forall (rest : string) (obj : option (Gettable St)) (s : St),
        Eval St FormatError (Parser ParseFloat unquote new_string parse_error)
             (String c rest) obj s
        = (Err (parse_error (String c rest)), s)).
Proof.
  split; [split|].
  - intros H. exists (completion c). apply first_match_completion, H.
  - intros [rest H]. destruct (can_start c) eqn:E; [reflexivity|].
    exfalso. apply H. apply first_match_foreign, E.
  - intros H rest obj s. unfold Eval, Parse, Parser, lexer.Lex.
    change (String.length (String c rest) =? 0)%nat with false. cbv iota.
    change (String.length (String c rest)) with (Datatypes.S (String.length rest)).
    rewrite Lex_fuel_step, (first_match_foreign c rest H). reflexivity.
Qed.

(** The text [&& true]. *)
Lemma foreign_first_byte_is_rejected_witness :
  Eval Example.St Example.FormatError
       (Parser (fun _ => None) (fun q => Some q) (fun _ => 0%N) errorString)
       "&& true" (Some Example.GetByName) []
  = (Err (errorString "&& true"), []).
Proof.
  apply (proj2 (foreign_first_byte_is_rejected Example.St Example.FormatError
                  (fun _ => None) (fun q => Some q) (fun _ => 0%N) errorString
                  "&"%char)).
  reflexivity.
Defined.

(** X10.  The tokens of a text end with the one [EOF] token, and every token
    before it is not empty and starts as its type says: a [LogicOp] with
    [a] or [o] in either case, a [Boolean] with [t] or [f], an [Ident]
    with a letter or the underscore, a [Number] with a digit, a sign or
    the dot, a [String] with a quote, a [CompareOp] with one of
    [! < > = ( )].  No token starts with white space. *)
Theorem tokens_start_as_their_type (b : string) (ts : list lexer.Token) :
  lexer.Lex myLexer b = inl ts ->
  exists ts0 p, ts = (ts0 ++ [lexer.mkToken lexer.EOF "" p])%list
                /\ forallb named_token ts0 = true.
Proof. apply Lex_fuel_tokens. Qed.

(** The text [age >= 18 and (name != 'x')]. *)
Lemma tokens_start_as_their_type_witness :
  exists ts ts0 p,
    lexer.Lex myLexer "age >= 18 and (name != 'x')" = inl ts
    /\ ts = (ts0 ++ [lexer.mkToken lexer.EOF "" p])%list
    /\ forallb named_token ts0 = true.
Proof.
  eexists. 
  assert (L : lexer.Lex myLexer "age >= 18 and (name != 'x')" = inl _)
    by (vm_compute; reflexivity).
  destruct (tokens_start_as_their_type _ _ L) as (ts0 & p & E & H).
  exists ts0, p. split; [exact L|]. split; [exact E|exact H].
Defined.

(** ** String tokens *)

Lemma re_String_quoted : re_String = lexer.Alt (quoted "'") (quoted (ascii_of_N 34)).
Proof. reflexivity. Qed.

Lemma none_of_self (q : ascii) : lexer.none_of [q] q = false.
Proof. unfold lexer.none_of, lexer.one_of. simpl. rewrite Ascii.eqb_refl. reflexivity. Qed.

Lemma star_loop_Byte_step (A : Type) (p : ascii -> bool) (k : string -> option A)
      (fuel : nat) (c : ascii) (s : string) :
  lexer.star_loop (lexer.rmatch (lexer.Byte p)) k (Datatypes.S fuel) (String c s)
  = if p c
    then match lexer.star_loop (lexer.rmatch (lexer.Byte p)) k fuel s with
         | Some x => Some x
         | None => k (String c s)
         end
    else k (String c s).
Proof.
  cbn [lexer.star_loop lexer.rmatch]. destruct (p c); [|reflexivity].
  replace (String.length s <? String.length (String c s))%nat with true
    by (symmetry; apply Nat.ltb_lt; simpl; lia).
  reflexivity.
Qed.

Lemma star_loop_Byte_empty (A : Type) (p : ascii -> bool) (k : string -> option A)
      (fuel : nat) :
  lexer.star_loop (lexer.rmatch (lexer.Byte p)) k fuel EmptyString = k EmptyString.
Proof. destruct fuel; reflexivity. Qed.

Lemma rmatch_Byte_eqb (q : ascii) (s rest : string) :
  lexer.rmatch (lexer.Byte (Ascii.eqb q)) s (fun r => Some r) = Some rest ->
  s = String q rest.
Proof.
  destruct s as [|c s]; simpl; [discriminate|].
  destruct (Ascii.eqb q c) eqn:E; [|discriminate].
  apply Ascii.eqb_eq in E as <-. intros H. injection H as <-. reflexivity.
Qed.

Lemma star_quote_inv (q : ascii) (fuel : nat) :
  forall s rest,
    lexer.star_loop (lexer.rmatch (lexer.Byte (lexer.none_of [q])))
      (fun s' => lexer.rmatch (lexer.Byte (Ascii.eqb q)) s' (fun r => Some r)) fuel s
    = Some rest ->
    exists body, all_bytes (lexer.none_of [q]) body = true /\ s = body ++ String q rest.
Proof.
  induction fuel as [|fuel IH]; intros s rest H.
  - apply rmatch_Byte_eqb in H as ->. exists EmptyString. auto.
  - destruct s as [|c s1]; [rewrite star_loop_Byte_empty in H; discriminate H|].
    rewrite star_loop_Byte_step in H.
    destruct (lexer.none_of [q] c) eqn:Ec.
    + destruct (lexer.star_loop (lexer.rmatch (lexer.Byte (lexer.none_of [q])))
                  (fun s' => lexer.rmatch (lexer.Byte (Ascii.eqb q)) s'
                               (fun r => Some r)) fuel s1) as [y|] eqn:E1.
      * injection H as ->. apply IH in E1 as (body & Hb & ->).
        exists (String c body). split; [simpl; rewrite Ec, Hb|]; reflexivity.
      * apply rmatch_Byte_eqb in H. injection H as -> _.
        rewrite none_of_self in Ec. discriminate Ec.
    + apply rmatch_Byte_eqb in H as ->. exists EmptyString. auto.
Qed.

Lemma star_quote (q : ascii) (body : string) :
  forall fuel rest,
    all_bytes (lexer.none_of [q]) body = true ->
    String.length body <= fuel ->
    lexer.star_loop (lexer.rmatch (lexer.Byte (lexer.none_of [q])))
      (fun s' => lexer.rmatch (lexer.Byte (Ascii.eqb q)) s' (fun r => Some r)) fuel
      (body ++ String q rest)
    = Some rest.
Proof.
  induction body as [|c body IH]; intros fuel rest Hb Hf.
  - simpl append. destruct fuel.
    + simpl. rewrite Ascii.eqb_refl. reflexivity.
    + rewrite star_loop_Byte_step, none_of_self. simpl.
      rewrite Ascii.eqb_refl. reflexivity.
  - simpl in Hb. apply andb_prop in Hb as [Hc Hb].
    destruct fuel as [|fuel]; [simpl in Hf; lia|].
    simpl append. rewrite star_loop_Byte_step, Hc.
    rewrite IH; [reflexivity|exact Hb|simpl in Hf; lia].
Qed.

Lemma rmatch_quoted (q : ascii) (b rest : string) :
  lexer.rmatch (quoted q) b (fun r => Some r) = Some rest
  <-> exists body, all_bytes (lexer.none_of [q]) body = true
                   /\ b = String q (body ++ String q rest).
Proof.
  unfold quoted. split.
  - intros H. cbn [lexer.rmatch] in H. destruct b as [|c b]; [discriminate H|].
    destruct (Ascii.eqb q c) eqn:E; [|discriminate H].
    apply Ascii.eqb_eq in E as <-.
    apply (star_quote_inv q) in H as (body & Hb & ->). exists body. auto.
  - intros (body & Hb & ->). cbn [lexer.rmatch]. rewrite Ascii.eqb_refl.
    apply (star_quote q body); [exact Hb|].
    rewrite length_append. lia.
Qed.

Lemma rmatch_first_None (r : lexer.regex) (q : ascii) (s : string) :
  nullable r = false -> first_byte r q = false ->
  lexer.rmatch r (String q s) (fun r => Some r) = None.
Proof.
  intros N F.
  destruct (lexer.rmatch r (String q s) (fun r => Some r)) as [y|] eqn:E;
    [|reflexivity].
  apply rmatch_suffix in E as (a & s' & E & _ & Ta).
  destruct a as [|c a]; simpl in Ta; [congruence|].
  simpl in E. injection E as <- _. congruence.
Qed.

Lemma first_match_String (b rest : string) :
  lexer.first_match myLexer b = Some (Some lexer.String_, rest)
  <-> exists q body,
      is_quote q = true
      /\ all_bytes (lexer.none_of [q]) body = true
      /\ b = String q (body ++ String q rest).
Proof.
  split.
  - intros H. apply first_match_In in H as (r & Hin & H).
    assert (r = re_String) as ->.
    { simpl in Hin.
      repeat (destruct Hin as [Hin|Hin]; [try discriminate Hin|]);
        [injection Hin as <-; reflexivity|contradiction]. }
    rewrite re_String_quoted in H. cbn [lexer.rmatch] in H.
    destruct (lexer.rmatch (quoted "'") b (fun r => Some r)) as [y|] eqn:E.
    + injection H as ->. apply rmatch_quoted in E as (body & Hb & ->).
      exists "'"%char, body. auto.
    + apply rmatch_quoted in H as (body & Hb & ->).
      exists (ascii_of_N 34), body. auto.
  - intros (q & body & Hq & Hb & ->).
    assert (Q : q = "'"%char \/ q = ascii_of_N 34).
    { unfold is_quote, lexer.one_of in Hq. simpl in Hq.
      apply orb_true_iff in Hq as [Hq|Hq]; [left; apply Ascii.eqb_eq, Hq|right].
      apply orb_true_iff in Hq as [Hq|Hq]; [|discriminate Hq].
      apply Ascii.eqb_eq in Hq. exact Hq. }
    assert (R : lexer.rmatch (quoted q) (String q (body ++ String q rest))
                  (fun r => Some r) = Some rest)
      by (apply rmatch_quoted; exists body; auto).
    clear Hq Hb. unfold myLexer.
    destruct Q as [-> | ->].
    + do 5 (rewrite first_match_cons, rmatch_first_None by reflexivity).
      rewrite first_match_cons, re_String_quoted. cbn [lexer.rmatch].
      rewrite R. reflexivity.
    + do 5 (rewrite first_match_cons, rmatch_first_None by reflexivity).
      rewrite first_match_cons, re_String_quoted. cbn [lexer.rmatch].
      rewrite (rmatch_first_None (quoted "'")) by reflexivity.
      rewrite R. reflexivity.
Qed.

(** X11.  A text starts with a [String] token exactly when it starts with a
    quote of either kind and that quote occurs again: the token goes up to
    the first next occurrence.  Every other byte is allowed in between,
    the other quote, white space and line feeds included, and nothing
    escapes the quote. *)
Theorem String_token_shape (b rest : string) :
  lexer.first_match myLexer b = Some (Some lexer.String_, rest)
  <-> exists q body,
      is_quote q = true
      /\ all_bytes (lexer.none_of [q]) body = true
      /\ b = String q (body ++ String q rest).
Proof. apply first_match_String. Qed.

(** ** Texts of white space *)

Lemma Lex_blank (c : ascii) (b : string) :
  all_bytes lexer.space (String c b) = true ->
  exists p, lexer.Lex myLexer (String c b) = inl [lexer.mkToken lexer.EOF "" p].
Proof.
  intros H. simpl in H. apply andb_prop in H as [Hc Hb].
  unfold lexer.Lex.
  change (String.length (String c b)) with (Datatypes.S (String.length b)).
  rewrite Lex_fuel_step. unfold myLexer. rewrite first_match_cons.
  assert (R : lexer.rmatch re_space (String c b) (fun rest => Some rest)
              = Some EmptyString).
  { change (lexer.rmatch re_space (String c b) (fun rest => Some rest))
      with (if lexer.space c
            then lexer.star_loop (lexer.rmatch (lexer.Byte lexer.space))
                   (fun r => Some r) (String.length b) b
            else None).
    rewrite Hc. rewrite star_Byte_Some by lia.
    rewrite drop_while_all by exact Hb. reflexivity. }
  rewrite R. cbn [String.length Nat.leb]. rewrite Lex_fuel_empty.
  eexists. reflexivity.
Qed.

(** X12.  A text of white space only, other than the empty text, is not an
    expression: [Eval] returns the error of the parser and leaves the
    object alone, where it returns nil without an error for the empty
    text. *)
Theorem blank_text_is_rejected (St : Type)
        (FormatError : Position -> string -> string)
        (ParseFloat : string -> option Float64.t) (unquote : string -> option string)
        (new_string : Position -> N) (parse_error : string -> error)
        (text : string) (obj : option (Gettable St)) (s : St) :
  text <> "" ->
  all_bytes lexer.space text = true ->
  Eval St FormatError (Parser ParseFloat unquote new_string parse_error) text obj s
  = (Err (parse_error text), s).
Proof.
  intros Hne Hb. destruct text as [|c b]; [congruence|].
  destruct (Lex_blank c b Hb) as [p L].
  unfold Eval, Parse, Parser. rewrite L. reflexivity.
Qed.

(** A space, a tab and a line feed. *)
Lemma blank_text_is_rejected_witness :
  Eval Example.St Example.FormatError
       (Parser (fun _ => None) (fun q => Some q) (fun _ => 0%N) errorString)
       (String " " (String lexer.HT (String lexer.LF ""))) (Some Example.GetByName) []
  = (Err (errorString (String " " (String lexer.HT (String lexer.LF "")))), []).
Proof.
  apply (blank_text_is_rejected Example.St Example.FormatError
           (fun _ => None) (fun q => Some q) (fun _ => 0%N) errorString
           (String " " (String lexer.HT (String lexer.LF "")))).
  - discriminate.
  - reflexivity.
Defined.

(** ** Spelling of the keywords, and comparisons in a row *)

(** X13.  The literals and the operators are read in whatever case: every
    spelling of [true] evaluates to [true] and every spelling of [false]
    to [false], and between two literals every spelling of [and] gives
    the conjunction and every spelling of [or] the disjunction.  No
    object is needed and the host is left as it is. *)
Theorem keywords_in_any_case
        (ParseFloat : string -> option Float64.t) (unquote : string -> option string)
        (new_string : Position -> N) (parse_error : string -> error)
        (St : Type) (FormatError : Position -> string -> string)
        (obj : option (Gettable St)) (s : St) :
  let eval := fun text =>
    Eval St FormatError (Parser ParseFloat unquote new_string parse_error) text obj s in
  (forall w : string, ToLower w = "true" -> eval w = (Ok (of_bool true), s))
  /\ (forall w : string, ToLower w = "false" -> eval w = (Ok (of_bool false), s))
  /\ (forall (w : string) (a b : bool),
         ToLower w = "and" ->
         eval (lit a ++ " " ++ w ++ " " ++ lit b) = (Ok (of_bool (a && b)), s))
  /\ (forall (w : string) (a b : bool),
         ToLower w = "or" ->
         eval (lit a ++ " " ++ w ++ " " ++ lit b) = (Ok (of_bool (a || b)), s)).
Proof.
  intros eval. subst eval. split; [|split; [|split]].
  - intros w H.
    destruct w as [|c1 [|c2 [|c3 [|c4 [|c5 w]]]]]; simpl in H; try discriminate H.
    injection H as H1 H2 H3 H4. letter_cases; vm_compute; reflexivity.
  - intros w H.
    destruct w as [|c1 [|c2 [|c3 [|c4 [|c5 [|c6 w]]]]]]; simpl in H; try discriminate H.
    injection H as H1 H2 H3 H4 H5. letter_cases; vm_compute; reflexivity.
  - intros w a b H.
    destruct w as [|c1 [|c2 [|c3 [|c4 w]]]]; simpl in H; try discriminate H.
    injection H as H1 H2 H3. letter_cases; destruct a, b; vm_compute; reflexivity.
  - intros w a b H.
    destruct w as [|c1 [|c2 [|c3 w]]]; simpl in H; try discriminate H.
    injection H as H1 H2. letter_cases; destruct a, b; vm_compute; reflexivity.
Qed.

(** [tRuE]. *)
Lemma keywords_in_any_case_witness :
  Eval Example.St Example.FormatError
       (Parser (fun _ => None) (fun q => Some q) (fun _ => 0%N) errorString)
       "tRuE" None []
  = (Ok (of_bool true), []).
Proof.
  apply (proj1 (keywords_in_any_case (fun _ => None) (fun q => Some q) (fun _ => 0%N)
                  errorString Example.St Example.FormatError None [])).
  reflexivity.
Defined.

(** X14.  Comparisons do not chain: an operand takes one comparison at most, so
    a text with two comparison operators in a row of three literals, as
    [true == false != true], is rejected by the parser, for each of the
    six operators in either place. *)
Theorem comparisons_do_not_chain
        (ParseFloat : string -> option Float64.t) (unquote : string -> option string)
        (new_string : Position -> N) (parse_error : string -> error)
        (St : Type) (FormatError : Position -> string -> string)
        (obj : option (Gettable St)) (s : St)
        (op1 op2 : string) (a b c : bool) :
  In op1 comparison_operators ->
  In op2 comparison_operators ->
  let text := lit a ++ " " ++ op1 ++ " " ++ lit b ++ " " ++ op2 ++ " " ++ lit c in
  Eval St FormatError (Parser ParseFloat unquote new_string parse_error) text obj s
  = (Err (parse_error text), s).
Proof.
  intros H1 H2 text. subst text. simpl in H1, H2.
  repeat (destruct H1 as [<-|H1]); try contradiction;
    repeat (destruct H2 as [<-|H2]); try contradiction;
    destruct a, b, c; vm_compute; reflexivity.
Qed.

(** [true == false != true]. *)
Lemma comparisons_do_not_chain_witness :
  Eval Example.St Example.FormatError
       (Parser (fun _ => None) (fun q => Some q) (fun _ => 0%N) errorString)
       "true == false != true" (Some Example.GetByName) []
  = (Err (errorString "true == false != true"), []).
Proof.
  apply (comparisons_do_not_chain (fun _ => None) (fun q => Some q) (fun _ => 0%N)
           errorString Example.St Example.FormatError (Some Example.GetByName) []
           "==" "!=" true false true).
  - simpl. auto.
  - simpl. auto 10.
Defined.

(** ** The bounds of the parser

    [parse_Expression] takes a bound on the nesting of parentheses and
    [repetition] one on the number of elements.  Every rule takes at least
    one token, so the number of tokens is bound enough for both: a larger
    bound gives the same parse. *)

Lemma repetition_length (A : Type) (op : string)
      (elem : tokens -> option (A * tokens)) :
  (forall ts a r, elem ts = Some (a, r) -> List.length r < List.length ts) ->
  forall fuel ts l rest,
    repetition op elem fuel ts = (l, rest) -> List.length rest <= List.length ts.
Proof.
  intros Helem. induction fuel as [|fuel IH]; intros ts l rest H.
  - destruct ts; injection H as _ <-; auto.
  - destruct ts as [|tok ts0]; [injection H as _ <-; auto|].
    simpl in H. destruct (literal op tok); [|injection H as _ <-; auto].
    destruct (elem ts0) as [[a ts1]|] eqn:Ea; [|injection H as _ <-; auto].
    destruct (repetition op elem fuel ts1) as [l1 rest1] eqn:Er.
    injection H as _ <-. apply Helem in Ea. apply IH in Er. simpl. lia.
Qed.

Lemma repetition_fuel (A : Type) (op : string)
      (elem : tokens -> option (A * tokens)) :
  (forall ts a r, elem ts = Some (a, r) -> List.length r < List.length ts) ->
  forall f1 f2 ts,
    List.length ts <= f1 -> List.length ts <= f2 ->
    repetition op elem f1 ts = repetition op elem f2 ts.
Proof.
  intros Helem. induction f1 as [|f1 IH]; intros f2 ts H1 H2.
  - destruct ts; [|simpl in H1; lia]. destruct f2; reflexivity.
  - destruct ts as [|tok ts0]; [destruct f2; reflexivity|].
    destruct f2 as [|f2]; [simpl in H2; lia|].
    simpl. destruct (literal op tok); [|reflexivity].
    destruct (elem ts0) as [[a ts1]|] eqn:Ea; [|reflexivity].
    apply Helem in Ea. rewrite (IH f2 ts1); [reflexivity| |]; simpl in *; lia.
Qed.

Lemma repetition_agree (A : Type) (op : string)
      (elem1 elem2 : tokens -> option (A * tokens)) (n : nat) :
  (forall ts a r, elem1 ts = Some (a, r) -> List.length r < List.length ts) ->
  (forall ts, List.length ts <= n -> elem1 ts = elem2 ts) ->
  forall fuel ts,
    List.length ts <= n ->
    repetition op elem1 fuel ts = repetition op elem2 fuel ts.
Proof.
  intros Hs Ha. induction fuel as [|fuel IH]; intros ts Hn; [reflexivity|].
  destruct ts as [|tok ts0]; [reflexivity|].
  simpl. destruct (literal op tok); [|reflexivity].
  rewrite <- (Ha ts0) by (simpl in Hn; lia).
  destruct (elem1 ts0) as [[a ts1]|] eqn:Ea; [|reflexivity].
  apply Hs in Ea. rewrite IH by (simpl in Hn; lia). reflexivity.
Qed.

Section ParserBounds.
Variable ParseFloat : string -> option Float64.t.
Variable new_string : Position -> N.

Lemma parse_Value_length (ts r : tokens) (v : Value) :
  parse_Value ParseFloat ts = Some (v, r) -> List.length r < List.length ts.
Proof.
  unfold parse_Value. destruct ts as [|tok ts0]; [discriminate|].
  destruct (lexer.Type_ tok); try discriminate;
    try (destruct (ParseFloat (lexer.Value tok)); [|discriminate]);
    intros H; injection H as _ <-; simpl; lia.
Qed.

Section RulesLength.
Variable sub : tokens -> option (Expression * tokens).
Hypothesis Hsub : forall ts e r, sub ts = Some (e, r) -> List.length r <= List.length ts.

Lemma parse_Term_length (ts r : tokens) (t : Term) :
  parse_Term ParseFloat new_string sub ts = Some (t, r) ->
  List.length r < List.length ts.
Proof.
  unfold parse_Term.
  destruct (parse_Value ParseFloat ts) as [[v ts1]|] eqn:EV.
  - intros H. injection H as _ <-. eapply parse_Value_length. exact EV.
  - destruct ts as [|tok ts0]; [discriminate|].
    destruct (lexer.Type_ tok);
      try (destruct (literal "(" tok); [|discriminate];
           destruct (sub ts0) as [[e [|close ts2]]|] eqn:ES; try discriminate;
           destruct (literal ")" close); [|discriminate];
           intros H; injection H as _ <-; apply Hsub in ES; simpl in *; lia).
    intros H. injection H as _ <-. simpl. lia.
Qed.

Lemma parse_Compare_length (ts r : tokens) (c : Compare) :
  parse_Compare ParseFloat new_string sub ts = Some (c, r) ->
  List.length r < List.length ts.
Proof.
  unfold parse_Compare. destruct ts as [|tok ts0]; [discriminate|].
  destruct (existsb (fun l => literal l tok) ["<="; ">="; "=="; "<"; ">"; "!="]);
    [|discriminate].
  destruct (parse_Term ParseFloat new_string sub ts0) as [[t ts1]|] eqn:ET;
    [|discriminate].
  intros H. injection H as _ <-. apply parse_Term_length in ET. simpl. lia.
Qed.

Lemma parse_ConditionOperand_length (ts r : tokens) (c : ConditionOperand) :
  parse_ConditionOperand ParseFloat new_string sub ts = Some (c, r) ->
  List.length r < List.length ts.
Proof.
  unfold parse_ConditionOperand.
  destruct (parse_Term ParseFloat new_string sub ts) as [[t ts1]|] eqn:ET;
    [|discriminate].
  apply parse_Term_length in ET.
  destruct (parse_Compare ParseFloat new_string sub ts1) as [[c' ts2]|] eqn:EC;
    intros H; injection H as _ <-; [|exact ET].
  apply parse_Compare_length in EC. lia.
Qed.

Lemma parse_OrCondition_length (ts r : tokens) (o : OrCondition) :
  parse_OrCondition ParseFloat new_string sub ts = Some (o, r) ->
  List.length r < List.length ts.
Proof.
  unfold parse_OrCondition.
  destruct (parse_ConditionOperand ParseFloat new_string sub ts) as [[c ts1]|] eqn:EC;
    [|discriminate].
  destruct (repetition "AND" (parse_ConditionOperand ParseFloat new_string sub)
              (List.length ts1) ts1) as [l rest] eqn:ER.
  intros H. injection H as _ <-. apply parse_ConditionOperand_length in EC.
  apply repetition_length in ER; [lia|].
  intros ? ? ?. apply parse_ConditionOperand_length.
Qed.

Lemma parse_Expression_rule_length (ts r : tokens) (e : Expression) :
  parse_Expression_rule ParseFloat new_string sub ts = Some (e, r) ->
  List.length r < List.length ts.
Proof.
  unfold parse_Expression_rule.
  destruct (parse_OrCondition ParseFloat new_string sub ts) as [[o ts1]|] eqn:EO;
    [|discriminate].
  destruct (repetition "OR" (parse_OrCondition ParseFloat new_string sub)
              (List.length ts1) ts1) as [l rest] eqn:ER.
  intros H. injection H as _ <-. apply parse_OrCondition_length in EO.
  apply repetition_length in ER; [lia|].
  intros ? ? ?. apply parse_OrCondition_length.
Qed.

(** Two parsers of what is between parentheses that agree on the lists
    shorter than [n] give the same rules on the lists up to [n]. *)
Variable sub' : tokens -> option (Expression * tokens).
Variable n : nat.
Hypothesis Hagree : forall ts, List.length ts < n -> sub ts = sub' ts.

Lemma parse_Term_agree (ts : tokens) :
  List.length ts <= n ->
  parse_Term ParseFloat new_string sub ts = parse_Term ParseFloat new_string sub' ts.
Proof.
  intros Hn. unfold parse_Term.
  destruct (parse_Value ParseFloat ts) as [[v ts1]|]; [reflexivity|].
  destruct ts as [|tok ts0]; [reflexivity|].
  rewrite (Hagree ts0) by (simpl in Hn; lia). reflexivity.
Qed.

Lemma parse_Compare_agree (ts : tokens) :
  List.length ts <= n ->
  parse_Compare ParseFloat new_string sub ts
  = parse_Compare ParseFloat new_string sub' ts.
Proof.
  intros Hn. unfold parse_Compare. destruct ts as [|tok ts0]; [reflexivity|].
  rewrite (parse_Term_agree ts0) by (simpl in Hn; lia). reflexivity.
Qed.

Lemma parse_ConditionOperand_agree (ts : tokens) :
  List.length ts <= n ->
  parse_ConditionOperand ParseFloat new_string sub ts
  = parse_ConditionOperand ParseFloat new_string sub' ts.
Proof.
  intros Hn. unfold parse_ConditionOperand.
  rewrite <- (parse_Term_agree ts Hn).
  destruct (parse_Term ParseFloat new_string sub ts) as [[t ts1]|] eqn:ET;
    [|reflexivity].
  apply parse_Term_length in ET.
  rewrite (parse_Compare_agree ts1) by lia. reflexivity.
Qed.

Lemma parse_OrCondition_agree (ts : tokens) :
  List.length ts <= n ->
  parse_OrCondition ParseFloat new_string sub ts
  = parse_OrCondition ParseFloat new_string sub' ts.
Proof.
  intros Hn. unfold parse_OrCondition.
  rewrite <- (parse_ConditionOperand_agree ts Hn).
  destruct (parse_ConditionOperand ParseFloat new_string sub ts) as [[c ts1]|] eqn:EC;
    [|reflexivity].
  apply parse_ConditionOperand_length in EC.
  rewrite (repetition_agree _ "AND" _
             (parse_ConditionOperand ParseFloat new_string sub') n);
    [reflexivity| | |lia].
  - intros ? ? ?. apply parse_ConditionOperand_length.
  - apply parse_ConditionOperand_agree.
Qed.

Lemma parse_Expression_rule_agree (ts : tokens) :
  List.length ts <= n ->
  parse_Expression_rule ParseFloat new_string sub ts
  = parse_Expression_rule ParseFloat new_string sub' ts.
Proof.
  intros Hn. unfold parse_Expression_rule.
  rewrite <- (parse_OrCondition_agree ts Hn).
  destruct (parse_OrCondition ParseFloat new_string sub ts) as [[o ts1]|] eqn:EO;
    [|reflexivity].
  apply parse_OrCondition_length in EO.
  rewrite (repetition_agree _ "OR" _
             (parse_OrCondition ParseFloat new_string sub') n);
    [reflexivity| | |lia].
  - intros ? ? ?. apply parse_OrCondition_length.
  - apply parse_OrCondition_agree.
Qed.
End RulesLength.

Lemma parse_Expression_length (depth : nat) :
  forall ts e r,
    parse_Expression ParseFloat new_string depth ts = Some (e, r) ->
    List.length r < List.length ts.
Proof.
  induction depth as [|depth IH]; intros ts e r H; [discriminate H|].
  change (parse_Expression ParseFloat new_string (Datatypes.S depth) ts)
    with (parse_Expression_rule ParseFloat new_string
            (parse_Expression ParseFloat new_string depth) ts) in H.
  eapply parse_Expression_rule_length; [|exact H].
  intros ts0 e0 r0 H0. apply IH in H0. lia.
Qed.

Lemma parse_Expression_succ (depth : nat) :
  forall ts,
    List.length ts <= depth ->
    parse_Expression ParseFloat new_string depth ts
    = parse_Expression ParseFloat new_string (Datatypes.S depth) ts.
Proof.
  induction depth as [|depth IH]; intros ts H.
  - destruct ts; [reflexivity|simpl in H; lia].
  - change (parse_Expression_rule ParseFloat new_string
              (parse_Expression ParseFloat new_string depth) ts
            = parse_Expression_rule ParseFloat new_string
                (parse_Expression ParseFloat new_string (Datatypes.S depth)) ts).
    apply parse_Expression_rule_agree with (n := Datatypes.S depth); [| |exact H].
    + intros ts0 e0 r0 H0. apply parse_Expression_length in H0. lia.
    + intros ts0 H0. apply IH. lia.
Qed.

Lemma parse_Expression_fuel (ts : tokens) (k : nat) :
  parse_Expression ParseFloat new_string (List.length ts + k) ts
  = parse_Expression ParseFloat new_string (List.length ts) ts.
Proof.
  induction k as [|k IH]; [rewrite Nat.add_0_r; reflexivity|].
  rewrite Nat.add_succ_r, <- parse_Expression_succ by lia. exact IH.
Qed.
End ParserBounds.

(** The parse of a list of tokens is the same under every bound on the
    nesting that is at least the number of tokens, which is the bound
    [Parser] passes, and so is every repetition under every bound on the
    number of its elements: no result of [Parser] is cut short by a
    bound. *)
Lemma parser_bounds_are_enough
        (ParseFloat : string -> option Float64.t) (new_string : Position -> N)
        (depth fuel : nat) (ts : tokens) :
  List.length ts <= depth ->
  List.length ts <= fuel ->
  parse_Expression ParseFloat new_string depth ts
  = parse_Expression ParseFloat new_string (List.length ts) ts
  /\ (forall sub,
         (forall ts e r, sub ts = Some (e, r) -> List.length r <= List.length ts) ->
         repetition "AND" (parse_ConditionOperand ParseFloat new_string sub) fuel ts
         = repetition "AND" (parse_ConditionOperand ParseFloat new_string sub)
             (List.length ts) ts
         /\ repetition "OR" (parse_OrCondition ParseFloat new_string sub) fuel ts
            = repetition "OR" (parse_OrCondition ParseFloat new_string sub)
                (List.length ts) ts).
Proof.
  intros Hd Hf. split.
  - replace depth with (List.length ts + (depth - List.length ts)) by lia.
    apply parse_Expression_fuel.
  - intros sub Hsub. split; apply repetition_fuel; auto; intros ? ? ?.
    + apply parse_ConditionOperand_length, Hsub.
    + apply parse_OrCondition_length, Hsub.
Qed.

(** ** The bound of the tokenizer *)

Lemma first_match_progress (b rest : string) (name : option lexer.symbol) :
  lexer.first_match myLexer b = Some (name, rest) ->
  exists m, b = m ++ rest /\ lexer.consumed b rest = m
            /\ (String.length b <=? String.length rest)%nat = false.
Proof.
  intros H. apply first_match_myLexer in H as (c & a & -> & _).
  exists (String c a). split; [reflexivity|]. split; [apply consumed_append|].
  apply Nat.leb_gt. rewrite length_append. simpl. lia.
Qed.

Lemma Lex_fuel_enough (f1 : nat) :
  forall f2 pos b,
    String.length b <= f1 -> String.length b <= f2 ->
    lexer.Lex_fuel myLexer f1 pos b = lexer.Lex_fuel myLexer f2 pos b.
Proof.
  induction f1 as [|f1 IH]; intros f2 pos b H1 H2.
  - destruct b; [|simpl in H1; lia]. destruct f2; reflexivity.
  - destruct b as [|c b]; [destruct f2; reflexivity|].
    destruct f2 as [|f2]; [simpl in H2; lia|].
    rewrite !Lex_fuel_step.
    destruct (lexer.first_match myLexer (String c b)) as [[name rest]|] eqn:E;
      [|reflexivity].
    destruct (first_match_progress _ _ _ E) as (m & Eb & Em & L). rewrite L.
    assert (String.length rest < String.length (String c b))
      by (apply Nat.leb_gt; exact L).
    rewrite (IH f2) by (simpl in *; lia). reflexivity.
Qed.

Lemma Offset_advance (pos : Position) (m : string) :
  Offset (lexer.advance pos m) = (Offset pos + Z.of_nat (String.length m))%Z.
Proof. reflexivity. Qed.

Lemma Lex_fuel_error (fuel : nat) :
  forall pos b p,
    String.length b <= fuel ->
    lexer.Lex_fuel myLexer fuel pos b = inr p ->
    exists pre c rest,
      b = pre ++ String c rest
      /\ lexer.first_match myLexer (String c rest) = None
      /\ Offset p = (Offset pos + Z.of_nat (String.length pre))%Z.
Proof.
  induction fuel as [|fuel IH]; intros pos b p Hf H.
  - destruct b; [discriminate H|simpl in Hf; lia].
  - destruct b as [|c b]; [discriminate H|].
    rewrite Lex_fuel_step in H.
    destruct (lexer.first_match myLexer (String c b)) as [[name rest]|] eqn:E.
    + destruct (first_match_progress _ _ _ E) as (m & Eb & Em & L).
      rewrite L, Em in H.
      assert (Hr : String.length rest <= fuel).
      { apply Nat.leb_gt in L. simpl in *. lia. }
      destruct (lexer.Lex_fuel myLexer fuel (lexer.advance pos m) rest)
        as [ts|p'] eqn:E1; [destruct name; discriminate H|].
      assert (p' = p) as -> by (destruct name; injection H as <-; reflexivity).
      apply IH in E1 as (pre & c' & rest' & -> & N & O); [|exact Hr].
      exists (m ++ pre), c', rest'. rewrite Eb. split; [|split].
      * symmetry. apply string_app_assoc.
      * exact N.
      * rewrite O, Offset_advance, length_append. lia.
    + injection H as <-. exists EmptyString, c, b. simpl. repeat split; auto. lia.
Qed.

(** X16.  The tokenizer stops only where nothing matches: when it fails, it is
    at a byte of the text where no alternative of the pattern matches,
    and the position it reports is the number of bytes before it.  Every
    match takes at least one byte, so the number of bytes of the text
    bounds the number of matches, and a larger bound changes nothing. *)
Theorem tokenizer_stops_where_nothing_matches (b : string) :
  (forall p,
      lexer.Lex myLexer b = inr p ->
      exists pre c rest,
        b = pre ++ String c rest
        /\ lexer.first_match myLexer (String c rest) = None
        /\ Offset p = Z.of_nat (String.length pre))
  /\ (forall fuel pos,
         String.length b <= fuel ->
         lexer.Lex_fuel myLexer fuel pos b
         = lexer.Lex_fuel myLexer (String.length b) pos b).
Proof.
  split.
  - intros p H. apply Lex_fuel_error in H as (pre & c & rest & E & N & O); [|lia].
    exists pre, c, rest. repeat split; auto.
  - intros fuel pos H. apply Lex_fuel_enough; lia.
Qed.

(** The text [age = 18], where nothing matches at the lone equals sign. *)
Lemma tokenizer_stops_where_nothing_matches_witness :
  exists pre c rest,
    "age = 18" = pre ++ String c rest
    /\ lexer.first_match myLexer (String c rest) = None
    /\ Offset (mkPosition "" 4 1 5) = Z.of_nat (String.length pre).
Proof.
  apply (proj1 (tokenizer_stops_where_nothing_matches "age = 18")).
  vm_compute. reflexivity.
Defined.

(** ** Texts of one literal *)

Lemma parse_single_value (ParseFloat : string -> option Float64.t)
      (new_string : Position -> N) (depth : nat) (tok eof : lexer.Token) (v : Value) :
  parse_Value ParseFloat [tok; eof] = Some (v, [eof]) ->
  lexer.Type_ eof = lexer.EOF ->
  lexer.Value eof = "" ->
  parse_Expression ParseFloat new_string (Datatypes.S depth) [tok; eof]
  = Some (single (lexer.Pos tok) v, [eof]).
Proof.
  intros Hv Ht He. destruct eof as [ty va po]. simpl in Ht, He. subst ty va.
  change (parse_Expression ParseFloat new_string (Datatypes.S depth)
            [tok; lexer.mkToken lexer.EOF "" po])
    with (parse_Expression_rule ParseFloat new_string
            (parse_Expression ParseFloat new_string depth)
            [tok; lexer.mkToken lexer.EOF "" po]).
  generalize (parse_Expression ParseFloat new_string depth). intros sub.
  unfold parse_Expression_rule, parse_OrCondition, parse_ConditionOperand, parse_Term.
  rewrite Hv. reflexivity.
Qed.

Lemma Eval_single (St : Type) (FormatError : Position -> string -> string)
      (pos : Position) (v : Value) (obj : option (Gettable St)) (s : St) :
  EvalParsed St FormatError (single pos v) obj s
  = match Value_Eval St v (mkContext St obj) s with
    | (Ok x, s') => (Ok (castToExternal x), s')
    | (Err err, s') => (Err err, s')
    | (Panic msg, s') => (Panic msg, s')
    end.
Proof.
  unfold EvalParsed, single. rewrite Expression_Eval_unfold.
  unfold Expression_Eval_body. rewrite OrCondition_Eval_unfold.
  unfold OrCondition_Eval_body. rewrite ConditionOperand_Eval_unfold, Term_Eval_unfold.
  destruct (Value_Eval St v (mkContext St obj) s) as [[x|err|msg] s1]; reflexivity.
Qed.

Lemma Lex_one_token (b : string) (sym : lexer.symbol) :
  lexer.first_match myLexer b = Some (Some sym, EmptyString) ->
  lexer.Lex myLexer b
  = inl [lexer.mkToken sym b (mkPosition "" 0 1 1);
         lexer.mkToken lexer.EOF "" (lexer.advance (mkPosition "" 0 1 1) b)].
Proof.
  intros H. destruct (first_match_progress _ _ _ H) as (m & Eb & Em & L).
  destruct b as [|c b]; [discriminate L|].
  unfold lexer.Lex.
  change (String.length (String c b)) with (Datatypes.S (String.length b)).
  rewrite Lex_fuel_step, H, L, Lex_fuel_empty, consumed_all. reflexivity.
Qed.

(** X17.  A quoted text is a literal: it evaluates to the string that
    [participle.Unquote] makes of it, whatever is between the quotes, the
    other quote included, without an object; and the text is rejected
    when the unquoting fails. *)
Theorem quoted_text_is_a_string (St : Type)
        (FormatError : Position -> string -> string)
        (ParseFloat : string -> option Float64.t) (unquote : string -> option string)
        (new_string : Position -> N) (parse_error : string -> error)
        (q : ascii) (body : string) (obj : option (Gettable St)) (s : St) :
  is_quote q = true ->
  all_bytes (lexer.none_of [q]) body = true ->
  let text := String q (body ++ String q "") in
  Eval St FormatError (Parser ParseFloat unquote new_string parse_error) text obj s
  = match unquote text with
    | Some v => (Ok (of_string v), s)
    | None => (Err (parse_error text), s)
    end.
Proof.
  intros Hq Hb text.
  assert (L : lexer.first_match myLexer text = Some (Some lexer.String_, EmptyString))
    by (apply first_match_String; exists q, body; auto).
  apply Lex_one_token in L. unfold Eval, Parse, Parser. rewrite L.
  change (String.length text =? 0)%nat with false. cbv iota.
  cbn [Unquote lexer.Type_ lexer.Value lexer.Pos].
  destruct (unquote text) as [v|]; [|reflexivity].
  cbn [List.length].
  rewrite (parse_single_value ParseFloat new_string 1
             (lexer.mkToken lexer.String_ v (mkPosition "" 0 1 1))
             (lexer.mkToken lexer.EOF "" (lexer.advance (mkPosition "" 0 1 1) text))
             (mkValue (mkPosition "" 0 1 1) None (Some v) None))
    by reflexivity.
  cbn [lexer.symbol_eqb lexer.Type_]. rewrite Eval_single. reflexivity.
Qed.

(** The text ['it is "so"'] with an unquoting that drops the quotes. *)
Lemma quoted_text_is_a_string_witness :
  Eval Example.St Example.FormatError
       (Parser (fun _ => None)
               (fun t => Some (substring 1 (String.length t - 2) t))
               (fun _ => 0%N) errorString)
       (String "'" ("it is " ++ String (ascii_of_N 34) ("so" ++ String (ascii_of_N 34)
                      EmptyString) ++ String "'" ""))
       None []
  = (Ok (of_string ("it is " ++ String (ascii_of_N 34)
                      ("so" ++ String (ascii_of_N 34) EmptyString))), []).
Proof.
  apply (quoted_text_is_a_string Example.St Example.FormatError (fun _ => None)
           (fun t => Some (substring 1 (String.length t - 2) t))
           (fun _ => 0%N) errorString "'"%char
           ("it is " ++ String (ascii_of_N 34) ("so" ++ String (ascii_of_N 34)
               EmptyString)) None []).
  - reflexivity.
  - reflexivity.
Defined.

Lemma string_snoc (p : ascii -> bool) (s : string) :
  s <> "" -> all_bytes p s = true ->
  exists s' d, s = s' ++ String d "" /\ all_bytes p s' = true /\ p d = true.
Proof.
  induction s as [|c s IH]; intros Hne H; [congruence|].
  simpl in H. apply andb_prop in H as [Hc Hs].
  destruct s as [|c' s].
  - exists EmptyString, c. auto.
  - destruct IH as (s' & d & E & Hs' & Hd); [discriminate|exact Hs|].
    exists (String c s'), d. rewrite E. simpl. rewrite Hc, Hs'. auto.
Qed.

Lemma digit_facts (d : ascii) :
  lexer.digit d = true ->
  after_digits (String d "") = Some EmptyString
  /\ lexer.one_of ["-"; "+"]%char d = false
  /\ Ascii.eqb d "(" = false
  /\ first_byte re_space d = false
  /\ first_byte re_LogicOp d = false
  /\ first_byte re_Boolean d = false
  /\ first_byte re_Ident d = false.
Proof.
  destruct d as [[|] [|] [|] [|] [|] [|] [|] [|]]; intros H;
    try (vm_compute in H; discriminate H); vm_compute; repeat split; reflexivity.
Qed.

Lemma star_digits_backtrack (ds : string) :
  forall d fuel,
    all_bytes lexer.digit ds = true ->
    lexer.digit d = true ->
    String.length ds < fuel ->
    lexer.star_loop (lexer.rmatch (lexer.Byte lexer.digit)) after_digits fuel
      (ds ++ String d "")
    = Some EmptyString.
Proof.
  induction ds as [|c ds IH]; intros d fuel Hds Hd Hf;
    (destruct fuel as [|fuel]; [simpl in Hf; lia|]); simpl append;
    rewrite star_loop_Byte_step.
  - rewrite Hd, star_loop_Byte_empty.
    change (after_digits EmptyString) with (@None string).
    apply digit_facts, Hd.
  - simpl in Hds. apply andb_prop in Hds as [Hc Hds]. rewrite Hc.
    rewrite IH; [reflexivity|exact Hds|exact Hd|simpl in Hf; lia].
Qed.

Lemma first_match_digits (ds : string) :
  ds <> "" -> all_bytes lexer.digit ds = true ->
  lexer.first_match myLexer ds = Some (Some lexer.Number, EmptyString).
Proof.
  intros Hne H.
  destruct (string_snoc _ _ Hne H) as (ds' & d & E & Hds' & Hd).
  destruct ds as [|c ds]; [congruence|].
  simpl in H. apply andb_prop in H as [Hc _].
  destruct (digit_facts c Hc) as (_ & Hsign & _ & F1 & F2 & F3 & F4).
  unfold myLexer.
  rewrite first_match_cons, rmatch_first_None by (reflexivity || assumption).
  rewrite first_match_cons, rmatch_first_None by (reflexivity || assumption).
  rewrite first_match_cons, rmatch_first_None by (reflexivity || assumption).
  rewrite first_match_cons, rmatch_first_None by (reflexivity || assumption).
  rewrite first_match_cons.
  assert (R : lexer.rmatch re_Number (String c ds) (fun rest => Some rest)
              = Some EmptyString).
  { change (lexer.rmatch re_Number (String c ds) (fun rest => Some rest))
      with (match (if lexer.one_of ["-"; "+"]%char c
                   then lexer.star_loop (lexer.rmatch (lexer.Byte lexer.digit))
                          after_digits (String.length ds) ds
                   else None) with
            | Some x => Some x
            | None => lexer.star_loop (lexer.rmatch (lexer.Byte lexer.digit))
                        after_digits (String.length (String c ds)) (String c ds)
            end).
    rewrite Hsign, E. apply star_digits_backtrack; [exact Hds'|exact Hd|].
    rewrite length_append. simpl. lia. }
  rewrite R. reflexivity.
Qed.

Lemma parse_no_value (ParseFloat : string -> option Float64.t)
      (new_string : Position -> N) (depth : nat) (tok : lexer.Token) (ts : tokens) :
  parse_Value ParseFloat (tok :: ts) = None ->
  lexer.Type_ tok = lexer.Number ->
  lexer.Value tok <> "(" ->
  parse_Expression ParseFloat new_string (Datatypes.S depth) (tok :: ts) = None.
Proof.
  intros Hv Ht Hp.
  change (parse_Expression ParseFloat new_string (Datatypes.S depth) (tok :: ts))
    with (parse_Expression_rule ParseFloat new_string
            (parse_Expression ParseFloat new_string depth) (tok :: ts)).
  generalize (parse_Expression ParseFloat new_string depth). intros sub.
  unfold parse_Expression_rule, parse_OrCondition, parse_ConditionOperand, parse_Term.
  rewrite Hv, Ht. unfold literal. rewrite Ht. cbn [caseInsensitive].
  apply String.eqb_neq in Hp. rewrite Hp. reflexivity.
Qed.

(** X18.  A text of digits is a literal: it is one [Number] token and evaluates
    to the float64 that [strconv.ParseFloat] makes of it, without an
    object; and the text is rejected when the conversion fails, as it does
    for a number out of the range of float64. *)
Theorem digits_are_a_number (St : Type)
        (FormatError : Position -> string -> string)
        (ParseFloat : string -> option Float64.t) (unquote : string -> option string)
        (new_string : Position -> N) (parse_error : string -> error)
        (ds : string) (obj : option (Gettable St)) (s : St) :
  ds <> "" ->
  all_bytes lexer.digit ds = true ->
  Eval St FormatError (Parser ParseFloat unquote new_string parse_error) ds obj s
  = match ParseFloat ds with
    | Some f => (Ok (of_float64 f), s)
    | None => (Err (parse_error ds), s)
    end.
Proof.
  intros Hne Hd.
  pose proof (Lex_one_token ds lexer.Number (first_match_digits ds Hne Hd)) as L.
  unfold Eval, Parse, Parser. rewrite L.
  destruct ds as [|c ds]; [congruence|].
  change (String.length (String c ds) =? 0)%nat with false. cbv iota.
  cbn [Unquote lexer.Type_ lexer.Value lexer.Pos List.length].
  destruct (ParseFloat (String c ds)) as [f|] eqn:E.
  - rewrite (parse_single_value ParseFloat new_string 1
               (lexer.mkToken lexer.Number (String c ds) (mkPosition "" 0 1 1))
               (lexer.mkToken lexer.EOF ""
                  (lexer.advance (mkPosition "" 0 1 1) (String c ds)))
               (mkValue (mkPosition "" 0 1 1) (Some f) None None));
      [|unfold parse_Value; cbn [lexer.Type_ lexer.Value lexer.Pos]; rewrite E;
        reflexivity|reflexivity|reflexivity].
    cbn [lexer.symbol_eqb lexer.Type_]. rewrite Eval_single. reflexivity.
  - rewrite parse_no_value; [reflexivity| |reflexivity|].
    + unfold parse_Value. cbn [lexer.Type_ lexer.Value lexer.Pos]. rewrite E.
      reflexivity.
    + cbn [lexer.Value]. intros H. injection H as H _.
      simpl in Hd. apply andb_prop in Hd as [Hc _].
      destruct (digit_facts c Hc) as (_ & _ & Hp & _). subst c. discriminate Hp.
Qed.

(** The text [2020] with a conversion that knows this number only. *)
Lemma digits_are_a_number_witness :
  Eval Example.St Example.FormatError
       (Parser (fun t => if t =? "2020" then Some (Float64.of_Z 2020) else None)
               (fun q => Some q) (fun _ => 0%N) errorString)
       "2020" None []
  = (Ok (of_float64 (Float64.of_Z 2020)), []).
Proof.
  apply (digits_are_a_number Example.St Example.FormatError
           (fun t => if t =? "2020" then Some (Float64.of_Z 2020) else None)
           (fun q => Some q) (fun _ => 0%N) errorString "2020" None []).
  - discriminate.
  - reflexivity.
Defined.

(** ** Names that begin with a keyword *)

Lemma Lex_fuel_values (fuel : nat) :
  forall pos b ts,
    lexer.Lex_fuel myLexer fuel pos b = inl ts ->
    forall t, In t ts -> String.length (lexer.Value t) <= String.length b.
Proof.
  induction fuel as [|fuel IH]; intros pos b ts H t Ht.
  - destruct b; [|discriminate H]. injection H as <-.
    destruct Ht as [<-|[]]. simpl. lia.
  - destruct b as [|c b].
    + injection H as <-. destruct Ht as [<-|[]]. simpl. lia.
    + rewrite Lex_fuel_step in H.
      destruct (lexer.first_match myLexer (String c b)) as [[name rest]|] eqn:E;
        [|discriminate H].
      destruct (first_match_progress _ _ _ E) as (m & Eb & Em & L).
      rewrite L, Em in H.
      assert (Hlen : String.length (String c b)
                     = String.length m + String.length rest)
        by (rewrite Eb at 1; apply length_append).
      destruct (lexer.Lex_fuel myLexer fuel (lexer.advance pos m) rest)
        as [ts1|] eqn:E1; [|destruct name; discriminate H].
      pose proof (IH _ _ _ E1) as Hts1.
      destruct name as [sym|]; injection H as <-.
      * destruct Ht as [<-|Ht]; [simpl lexer.Value; lia|].
        specialize (Hts1 t Ht). lia.
      * specialize (Hts1 t Ht). lia.
Qed.

Lemma keyword_not_empty (kw : string) : In (ToLower kw) keywords -> kw <> "".
Proof.
  intros H ->. simpl in H.
  repeat (destruct H as [H|H]; [discriminate H|]). contradiction.
Qed.

Lemma keyword_prefix_first_match (name : string) :
  keyword_prefix name = true ->
  exists kw rest sym,
    name = kw ++ rest
    /\ In (ToLower kw) keywords
    /\ (sym = lexer.LogicOp \/ sym = lexer.Boolean)
    /\ lexer.first_match myLexer name = Some (Some sym, rest).
Proof.
  intros K. apply keyword_prefix_split in K.
  destruct K as (w & r & -> & [K|[K|[K|K]]]).
  - exists w, r, lexer.LogicOp. rewrite K. simpl. repeat split; auto.
    apply first_match_LogicOp. left. exact K.
  - exists w, r, lexer.LogicOp. rewrite K. simpl. repeat split; auto.
    apply first_match_LogicOp. right. exact K.
  - exists w, r, lexer.Boolean. rewrite K. simpl. repeat split; auto.
    apply first_match_Boolean. left. exact K.
  - exists w, r, lexer.Boolean. rewrite K. simpl. repeat split; auto 6.
    apply first_match_Boolean. right. exact K.
Qed.

(** C8.  The keywords are recognised in whatever case and before the
    identifiers, and nothing requires a keyword to end where it is
    matched: a name of the conventional shape that begins with [and],
    [or], [true] or [false], in whatever case, is not an identifier.  Its
    first token is the keyword, of type [LogicOp] or [Boolean], and no
    token of its tokenization is an [Ident] with the name as its
    text.  [order], [origin], [android],
    [trueValue] and [falsey] are such names; [order == 1] tokenizes as
    [or], [der], [==], [1], and [Eval] rejects it for every object without
    asking it. *)
Theorem keyword_prefixed_names_are_split :
  (forall name : string,
      ident_shape name = true ->
      keyword_prefix name = true ->
      (exists kw rest sym,
          name = kw ++ rest
          /\ In (ToLower kw) keywords
          /\ (sym = lexer.LogicOp \/ sym = lexer.Boolean)
          /\ lexer.first_match myLexer name = Some (Some sym, rest))
      /\ (forall ts,
             lexer.Lex myLexer name = inl ts ->
             forall t, In t ts ->
                       lexer.Type_ t = lexer.Ident -> lexer.Value t <> name))
  /\ forallb (fun name => ident_shape name && keyword_prefix name)
       ["order"; "origin"; "android"; "trueValue"; "falsey"] = true
  /\ match lexer.Lex myLexer "order == 1" with
     | inl ts => kinds ts
     | inr _ => []
     end
     = [(lexer.LogicOp, "or"); (lexer.Ident, "der"); (lexer.CompareOp, "==");
        (lexer.Number, "1"); (lexer.EOF, "")]
  /\ (forall (ParseFloat : string -> option Float64.t)
             (unquote : string -> option string) (new_string : Position -> N)
             (parse_error : string -> error) (St : Type)
             (FormatError : Position -> string -> string)
             (obj : option (Gettable St)) (s : St),
         Eval St FormatError (Parser ParseFloat unquote new_string parse_error)
           "order == 1" obj s
         = (Err (parse_error "order == 1"), s)).
Proof.
  split; [|split; [vm_compute; reflexivity|split; [vm_compute; reflexivity|]]].
  - intros name _ K.
    destruct (keyword_prefix_first_match name K) as (kw & rest & sym & E & Hk & Hs & F).
    split; [exists kw, rest, sym; auto|].
    intros ts L t Ht Hty Hv.
    pose proof (keyword_not_empty kw Hk) as Hne.
    destruct (first_match_progress _ _ _ F) as (m & Eb & Em & Lb).
    assert (Hlen : String.length name = String.length m + String.length rest)
      by (rewrite Eb at 1; apply length_append).
    assert (Hm : 0 < String.length m).
    { apply Nat.leb_gt in Lb. lia. }
    unfold lexer.Lex in L. destruct name as [|c n]; [discriminate K|].
    change (String.length (String c n)) with (Datatypes.S (String.length n)) in L.
    rewrite Lex_fuel_step, F, Lb, Em in L.
    destruct (lexer.Lex_fuel myLexer (String.length n)
                (lexer.advance (mkPosition "" 0 1 1) m) rest) as [ts1|] eqn:E1;
      [|discriminate L].
    injection L as <-. destruct Ht as [<-|Ht].
    + simpl in Hty. destruct Hs as [-> | ->]; discriminate Hty.
    + pose proof (Lex_fuel_values _ _ _ _ E1 t Ht) as Hl. rewrite Hv in Hl. lia.
  - intros. vm_compute. reflexivity.
Qed.

(** [order]: the keyword [or], then [der]. *)
Lemma keyword_prefixed_names_are_split_witness :
  exists kw rest sym,
    "order" = kw ++ rest
    /\ In (ToLower kw) keywords
    /\ (sym = lexer.LogicOp \/ sym = lexer.Boolean)
    /\ lexer.first_match myLexer "order" = Some (Some sym, rest).
Proof.
  apply (proj1 keyword_prefixed_names_are_split "order"); reflexivity.
Defined.
